(** * trcls: splice lists, CIGAR interpretation, read grouping, annotations

    A shallow embedding of the core of [trcls] (src/src/splice_list.py,
    src/src/transcript.py, src/src/annotations.py) and the properties of
    it that the specification states.

    Conventions of the embedding.
    - Python [int] is [Z]; list indices and lengths are [nat].
    - Python [str] is [string]; the model covers ASCII text, the alphabet
      of SAM and GTF files: no character above 127 counts as white space
      or as numeric.
    - A Python call that can raise is a function into [result]; the
      exception classes the code can raise are the constructors of [exn].
    - A Python [set] of integers is a [gset Z].  The order in which
      [list(a_set)] enumerates the elements is a property of the hash
      table and not of the program, so it is a parameter ([set_iter]) of
      the functions that depend on it. *)

From stdpp Require Import base numbers list gmap sets strings sorting.
From Stdlib Require Import Ascii.
From Stdlib Require String.

Open Scope Z_scope.

(** ** Python primitives *)
Module Py.

(** The exception classes that the modelled code raises.  The first three
    are the program's own (splice_list.py:322, transcript.py:266,274);
    the others are Python's. *)
Inductive exn : Type :=
| OverlappingExonsError
| NoMappingError
| NoMappedSegmentsError
| TypeError
| ValueError
| IndexError
| StopIteration.

#[global] Instance exn_eq_dec : EqDecision exn.
Proof. solve_decision. Defined.

Inductive result (A : Type) : Type :=
| Ok (a : A)
| Raise (e : exn).
Arguments Ok {A} a.
Arguments Raise {A} e.

#[global] Instance result_ret : MRet result := λ A a, Ok a.
#[global] Instance result_bind : MBind result := λ A B f m,
  match m with
  | Ok a => f a
  | Raise e => Raise e
  end.
#[global] Instance result_fmap : FMap result := λ A B f m,
  match m with
  | Ok a => Ok (f a)
  | Raise e => Raise e
  end.

(** [class NoMappedSegmentsError(NoMappingError)]: an
    [except NoMappingError] clause catches both. *)
Definition is_NoMappingError (e : exn) : bool :=
  match e with
  | NoMappingError | NoMappedSegmentsError => true
  | _ => false
  end.

(** [l[i]] for [i >= 0]. *)
Definition index {A} (l : list A) (i : nat) : result A :=
  match l !! i with
  | Some a => Ok a
  | None => Raise IndexError
  end.

(** [l[-1]] *)
Definition index_last {A} (l : list A) : result A :=
  match last l with
  | Some a => Ok a
  | None => Raise IndexError
  end.

(** [sorted(l, key=key)]: Python's sort is stable, and a stable sort
    has one possible result; insertion from the right computes it. *)
Fixpoint insert_by {A} (key : A → Z) (x : A) (l : list A) : list A :=
  match l with
  | [] => [x]
  | y :: ys =>
      if bool_decide (key x ≤ key y) then x :: y :: ys
      else y :: insert_by key x ys
  end.

Fixpoint sorted {A} (key : A → Z) (l : list A) : list A :=
  match l with
  | [] => []
  | x :: xs => insert_by key x (sorted key xs)
  end.

(** *** Strings *)

Definition tab : ascii := "009"%char.
Definition dquote : ascii := "034"%char.

(** [c.isspace()] on ASCII: HT, LF, VT, FF, CR, FS, GS, RS, US, space. *)
Definition isspace (c : ascii) : bool :=
  let n := nat_of_ascii c in
  bool_decide (9 ≤ n ≤ 13)%nat || bool_decide (28 ≤ n ≤ 32)%nat.

(** [c.isnumeric()] on ASCII: the ten digits. *)
Definition isnumeric (c : ascii) : bool :=
  let n := nat_of_ascii c in bool_decide (48 ≤ n ≤ 57)%nat.

Definition digit_value (c : ascii) : Z := Z.of_nat (nat_of_ascii c) - 48.

(** [s.split(sep)] for a one-character separator. *)
Fixpoint split (sep : ascii) (s : string) : list string :=
  match s with
  | EmptyString => [EmptyString]
  | String c s' =>
      if Ascii.eqb c sep then EmptyString :: split sep s'
      else match split sep s' with
           | [] => [String c EmptyString]
           | field :: fields => String c field :: fields
           end
  end.

Fixpoint lstrip (s : string) : string :=
  match s with
  | EmptyString => EmptyString
  | String c s' => if isspace c then lstrip s' else s
  end.

Fixpoint rstrip (s : string) : string :=
  match s with
  | EmptyString => EmptyString
  | String c s' =>
      match rstrip s' with
      | EmptyString => if isspace c then EmptyString else String c EmptyString
      | r => String c r
      end
  end.

(** [s.strip()] *)
Definition strip (s : string) : string := rstrip (lstrip s).

(** [char * n] *)
Definition repeat_char (c : ascii) (n : Z) : string :=
  String.string_of_list_ascii (replicate (Z.to_nat n) c).

(** The digits of a decimal literal, where single underscores may
    separate digits; [prev_digit] tells whether the character before
    was a digit. *)
Fixpoint int_digits (acc : Z) (prev_digit : bool) (s : string) : option Z :=
  match s with
  | EmptyString => if prev_digit then Some acc else None
  | String c s' =>
      if isnumeric c then int_digits (10 * acc + digit_value c) true s'
      else if Ascii.eqb c "_"%char && prev_digit then int_digits acc false s'
      else None
  end.

(** The white space that [int] skips around a number: HT, LF, VT, FF,
    CR and space.  FS, GS, RS and US, which [str.strip] removes, make
    [int] raise [ValueError]. *)
Definition isspace_int (c : ascii) : bool :=
  let n := nat_of_ascii c in
  bool_decide (9 ≤ n ≤ 13)%nat || bool_decide (n = 32)%nat.

Fixpoint lstrip_int (s : string) : string :=
  match s with
  | EmptyString => EmptyString
  | String c s' => if isspace_int c then lstrip_int s' else s
  end.

Fixpoint rstrip_int (s : string) : string :=
  match s with
  | EmptyString => EmptyString
  | String c s' =>
      match rstrip_int s' with
      | EmptyString => if isspace_int c then EmptyString else String c EmptyString
      | r => String c r
      end
  end.

(** [int(s)]: optional surrounding white space, an optional sign, then
    decimal digits. *)
Definition int (s : string) : result Z :=
  let parsed :=
    match rstrip_int (lstrip_int s) with
    | String "-"%char s' => Z.opp <$> int_digits 0 false s'
    | String "+"%char s' => int_digits 0 false s'
    | s' => int_digits 0 false s'
    end in
  match parsed with
  | Some n => Ok n
  | None => Raise ValueError
  end.

(** ['\t'.join(fields)], used to write SAM and GTF lines down. *)
Fixpoint join_tab (fields : list string) : string :=
  match fields with
  | [] => EmptyString
  | [field] => field
  | field :: rest => field +:+ String tab (join_tab rest)
  end.

(** [sep.join(strings)] *)
Fixpoint join (sep : string) (strings : list string) : string :=
  match strings with
  | [] => EmptyString
  | [s] => s
  | s :: rest => s +:+ sep +:+ join sep rest
  end.

(** Calls that can also end in [UnboundLocalError], which is not among
    the exceptions of [exn]: only [SpliceList.join] raises it, when its
    loop variable is read after a loop over nothing. *)
Inductive outcome (A : Type) : Type :=
| Returned (a : A)
| Raised (e : exn)
| RaisedUnboundLocalError.
Arguments Returned {A} a.
Arguments Raised {A} e.
Arguments RaisedUnboundLocalError {A}.

#[global] Instance outcome_ret : MRet outcome := λ A a, Returned a.
#[global] Instance outcome_bind : MBind outcome := λ A B f m,
  match m with
  | Returned a => f a
  | Raised e => Raised e
  | RaisedUnboundLocalError => RaisedUnboundLocalError
  end.

Definition of_result {A} (m : result A) : outcome A :=
  match m with
  | Ok a => Returned a
  | Raise e => Raised e
  end.

End Py.
Import Py.

(** ** splice_list.py *)

(** [Junction.TYPE_START = 0], [Junction.TYPE_END = 1] *)
Inductive junction_type : Type := TYPE_START | TYPE_END.

#[global] Instance junction_type_eq_dec : EqDecision junction_type.
Proof. solve_decision. Defined.

Module Region.
Record t : Type := __init__ { start : Z; stop : Z }.

#[global] Instance eq_dec : EqDecision t.
Proof. solve_decision. Defined.
End Region.

Module Junction.
(** [complement] is a reference to another [Junction] object or [None].
    The code only ever tests it against [None] and reads the partner's
    [position] when printing; the model stores the index of the partner
    in the transcript's concatenated component list, which identifies
    the object. *)
Record t : Type := Build {
  position : Z;
  type : junction_type;
  complement : option nat;
  has_complement : bool
}.

#[global] Instance eq_dec : EqDecision t.
Proof. solve_decision. Defined.

(** splice_list.py:293-313 *)
Definition __init__ (position : Z) (_type : junction_type) : t :=
  {| position := position; type := _type;
     complement := None; has_complement := false |}.

Definition set_has_complement (b : bool) (j : t) : t :=
  {| position := position j; type := type j;
     complement := complement j; has_complement := b |}.

Definition set_complement (c : option nat) (j : t) : t :=
  {| position := position j; type := type j;
     complement := c; has_complement := has_complement j |}.
End Junction.

(** An element of [SpliceList.components]: [type(x) == Region] or
    [type(x) == Junction]. *)
Inductive component : Type :=
| CRegion (r : Region.t)
| CJunction (j : Junction.t).

#[global] Instance component_eq_dec : EqDecision component.
Proof. solve_decision. Defined.

Definition as_region (c : component) : option Region.t :=
  match c with CRegion r => Some r | CJunction _ => None end.

Definition as_junction (c : component) : option Junction.t :=
  match c with CJunction j => Some j | CRegion _ => None end.

Module SpliceList.

(** [self.regions] and [self.junctions] are lists of the very objects
    that [self.components] holds (splice_list.py:75-78, 202-209): a
    later write to a junction's [complement] through [components]
    (transcript.py:63-64) is seen through [junctions].  The model keeps
    [components] and reads the two projections off it, which is what the
    sharing amounts to. *)
Record t : Type := Build {
  identifier : string;
  components : list component
}.

Definition regions (sl : t) : list Region.t := omap as_region (components sl).
Definition junctions (sl : t) : list Junction.t := omap as_junction (components sl).

(** splice_list.py:53-57 *)
Fixpoint check_overlap (exons : list (Z * Z)) : result unit :=
  match exons with
  | this_exon :: (next_exon :: _) as rest =>
      if bool_decide (this_exon.2 >= next_exon.1)
      then Raise OverlappingExonsError
      else check_overlap rest
  | _ => Ok ()
  end.

(** splice_list.py:60-63 *)
Definition exon_components (exon : Z * Z) : list component :=
  [ CJunction (Junction.__init__ exon.1 TYPE_START);
    CRegion (Region.__init__ exon.1 exon.2);
    CJunction (Junction.__init__ exon.2 TYPE_END) ].

(** [c.has_complement = True]; on a [Region] Python would add a fresh
    attribute that nothing reads. *)
Definition mark (c : component) : component :=
  match c with
  | CJunction j => CJunction (Junction.set_has_complement true j)
  | CRegion r => CRegion r
  end.

(** [components[0].has_complement = True] *)
Definition mark_first (components : list component) : result (list component) :=
  match components with
  | [] => Raise IndexError
  | c :: cs => Ok (mark c :: cs)
  end.

(** [components[-1].has_complement = True] *)
Definition mark_last (components : list component) : result (list component) :=
  match last components with
  | None => Raise IndexError
  | Some c => Ok (removelast components ++ [mark c])
  end.

(** splice_list.py:28-78 *)
Definition __init__ (identifier : string) (exons : list (Z * Z))
    (set_left_junction set_right_junction : bool) : result t :=
  let exons := sorted fst exons in
  _ ← check_overlap exons;
  let components := exons ≫= exon_components in
  components ← (if set_left_junction then mark_first components
                else Ok (drop 1 components));
  components ← (if set_right_junction then mark_last components
                else Ok (removelast components));
  Ok {| identifier := identifier; components := components |}.

(** *** [SpliceList.contains] (splice_list.py:80-144) *)
Section contains.

(** [list(a_set)] for a set of integers: some enumeration of the
    elements, fixed by the set. *)
Variable set_iter : gset Z → list Z.

(** [set(range(r.start, r.stop+1))] *)
Definition region_positions (r : Region.t) : gset Z :=
  list_to_set (seqZ (Region.start r) (Region.stop r + 1 - Region.start r)).

(** [set.union] applied to the unpacked list of the regions' position
    sets: with no region the call has no receiver and raises
    [TypeError]. *)
Definition positions (regions : list Region.t) : result (gset Z) :=
  match regions with
  | [] => Raise TypeError
  | _ => Ok (⋃ (region_positions <$> regions))
  end.

(** splice_list.py:100-111; [false] is the early [return False]. *)
Fixpoint overhangs_within (junction_tolerance : Z) (overhangs : list Z)
    (max_overhang_distance last_position : Z) : bool :=
  match overhangs with
  | [] => true
  | pos :: rest =>
      let max_overhang_distance :=
        if bool_decide (pos - last_position = 1)
        then max_overhang_distance + 1 else 1 in
      if bool_decide (max_overhang_distance > junction_tolerance) then false
      else overhangs_within junction_tolerance rest max_overhang_distance pos
  end.

(** [this_j.type == j.type and this_j.position in check_range] with
    [check_range = set(range(j.position-tol, j.position+tol+1))] *)
Definition in_check_range (junction_tolerance : Z) (j this_j : Junction.t) : bool :=
  bool_decide (Junction.type this_j = Junction.type j) &&
  bool_decide (Junction.position j - junction_tolerance ≤ Junction.position this_j
               < Junction.position j + junction_tolerance + 1).

(** The inner loop, splice_list.py:120-125: every junction of [self]
    in range is a match, and each one is recorded when [j] has a
    complement. *)
Fixpoint scan_this (junction_tolerance : Z) (j : Junction.t) (i : nat)
    (this_junctions : list Junction.t) (has_match : bool)
    (match_order : list nat) : bool * list nat :=
  match this_junctions with
  | [] => (has_match, match_order)
  | this_j :: rest =>
      if in_check_range junction_tolerance j this_j then
        let match_order :=
          match Junction.complement j with
          | Some _ => match_order ++ [i]
          | None => match_order
          end in
        scan_this junction_tolerance j (S i) rest true match_order
      else scan_this junction_tolerance j (S i) rest has_match match_order
  end.

(** The outer loop, splice_list.py:114-127; [None] is [return False]. *)
Fixpoint scan_other (junction_tolerance : Z) (this_junctions : list Junction.t)
    (other_junctions : list Junction.t) (match_order : list nat)
    : option (list nat) :=
  match other_junctions with
  | [] => Some match_order
  | j :: rest =>
      let '(has_match, match_order) :=
        scan_this junction_tolerance j 0 this_junctions false match_order in
      if has_match
      then scan_other junction_tolerance this_junctions rest match_order
      else None
  end.

(** splice_list.py:137-142 *)
Fixpoint complements_adjacent (match_order : list nat) : bool :=
  match match_order with
  | a :: b :: rest =>
      if bool_decide (Z.abs (Z.of_nat a - Z.of_nat b) > 1) then false
      else complements_adjacent rest
  | _ => true
  end.

Definition contains (self other_sl : t) (junction_tolerance : Z)
    : result bool :=
  other_regions ← positions (regions other_sl);
  this_regions ← positions (regions self);
  let overhangs := set_iter (other_regions ∖ this_regions) in
  if negb (overhangs_within junction_tolerance overhangs 0 (-1)) then Ok false
  else
    match scan_other junction_tolerance (junctions self)
            (junctions other_sl) [] with
    | None => Ok false
    | Some match_order => Ok (complements_adjacent match_order)
    end.

End contains.

(** *** [SpliceList.join] and [SpliceList.join_many]
    (splice_list.py:151-233) *)
Section join.

(** [list(a_set)] for a set of integers, as in [contains]. *)
Variable set_iter : gset Z → list Z.

(** The iteration over [set(sl1.junctions).union(sl2.junctions)].
    [Junction] defines neither [__eq__] nor [__hash__], so this is a set
    of objects: each object of the two lists is met once, in an order
    that depends on the addresses of the objects.  The enumeration is a
    parameter, given the two lists. *)
Variable junction_iter : list Junction.t → list Junction.t → list Junction.t.

(** The loop at splice_list.py:174-186 from one position of [mapped] on:
    [start] is [None] until the first position is read. *)
Fixpoint exon_loop (mapped : list Z) (exons : list (Z * Z))
    (start : option Z) (last : Z) : list (Z * Z) * option Z :=
  match mapped with
  | [] => (exons, start)
  | pos :: rest =>
      match start with
      | None => exon_loop rest exons (Some pos) pos
      | Some s =>
          if bool_decide (pos - last = 1)
          then exon_loop rest exons start (last + 1)
          else exon_loop rest (exons ++ [(s, last)]) (Some pos) pos
      end
  end.

(** splice_list.py:174-188: the [else] of the [for] reads [pos], which is
    unbound when [mapped] is empty. *)
Definition merged_exons (mapped : list Z) : outcome (list (Z * Z)) :=
  let '(exons, start) := exon_loop mapped [] None 0 in
  match last mapped, start with
  | Some pos, Some start => Returned (exons ++ [(start, pos)])
  | _, _ => RaisedUnboundLocalError
  end.

(** splice_list.py:194-197 *)
Definition keep_junction (mapped : list Z) (j : Junction.t) : bool :=
  match Junction.type j with
  | TYPE_START => bool_decide (Junction.position j - 1 ∉ mapped)
  | TYPE_END => bool_decide (Junction.position j + 1 ∉ mapped)
  end.

(** The sort key at splice_list.py:201 *)
Definition component_key (c : component) : Z :=
  match c with
  | CRegion r => Region.start r
  | CJunction j => Junction.position j
  end.

(** splice_list.py:151-211 *)
Definition join (sl1 sl2 : t) : outcome t :=
  let identifier :=
    if bool_decide (identifier sl1 = identifier sl2) then identifier sl1
    else identifier sl1 +:+ "," +:+ identifier sl2 in
  mapped ← of_result (positions (regions sl1 ++ regions sl2));
  let mapped := sorted (λ pos, pos) (set_iter mapped) in
  exons ← merged_exons mapped;
  let regions := (λ coords : Z * Z, Region.__init__ coords.1 coords.2) <$> exons in
  let _junctions := junction_iter (junctions sl1) (junctions sl2) in
  let junctions := filter (λ j, keep_junction mapped j = true) _junctions in
  let components := (CRegion <$> regions) ++ (CJunction <$> junctions) in
  let components := sorted component_key components in
  Returned {| identifier := identifier; components := components |}.

(** splice_list.py:213-233 *)
Definition join_many (sls : list t) : outcome t :=
  match sls with
  | [] => Raised IndexError
  | joined :: sls =>
      foldl (λ joined sl, joined ← joined; join joined sl) (Returned joined) sls
  end.

End join.

End SpliceList.

(** ** transcript.py *)

Module Segment.

Record t : Type := Build {
  sam : string;
  splice_list : SpliceList.t
}.

Definition _CIGAR_MAPPING : list ascii := ["M"; "D"; "N"; "="; "X"]%char.
Definition _CIGAR_MAPS_BOTH : list ascii := ["M"; "="; "X"]%char.
Definition _CIGAR_MAPS_REF : list ascii := ["D"; "N"]%char.

(** The loop of [_expand_cigar], transcript.py:252-262.
    [int(number_of_operations)] with [number_of_operations = None] is a
    [TypeError]. *)
Fixpoint expand_loop (cigar : string) (expanded : string)
    (number_of_operations : option string) : result string :=
  match cigar with
  | EmptyString => Ok expanded
  | String char rest =>
      if isnumeric char then
        match number_of_operations with
        | None => expand_loop rest expanded (Some (String char EmptyString))
        | Some n => expand_loop rest expanded (Some (n +:+ String char EmptyString))
        end
      else
        match number_of_operations with
        | None => Raise TypeError
        | Some n =>
            k ← int n;
            expand_loop rest (expanded +:+ repeat_char char k) None
        end
  end.

(** transcript.py:241-263 *)
Definition _expand_cigar (cigar : string) : result string :=
  if bool_decide (cigar = "*"%string) then Raise NoMappingError
  else expand_loop cigar EmptyString None.

(** The longest prefix of [s] made of [c]. *)
Fixpoint leading_run (c : ascii) (s : list ascii) : list ascii :=
  match s with
  | x :: s' => if Ascii.eqb x c then x :: leading_run c s' else []
  | [] => []
  end.

(** [re.match(r'\AS+', cigar_v)]: the longest run of [S] at the start,
    [None] when there is none. *)
Definition re_match_leading_S (cigar_v : list ascii) : option (list ascii) :=
  match leading_run "S" cigar_v with
  | [] => None
  | group => Some group
  end.

(** [re.search(r'S+\Z', cigar_v)]: the leftmost match is the longest run
    of [S] at the end, [None] when there is none. *)
Definition re_search_trailing_S (cigar_v : list ascii) : option (list ascii) :=
  match leading_run "S" (reverse cigar_v) with
  | [] => None
  | group => Some group
  end.

(** An element of [cigar_buffer]: a two-element [list] [[op, n]], which
    [+=] can update in place, or the [tuple] [(True, n)] that skip
    absorption puts in its place, which cannot be assigned to. *)
Inductive pair_kind : Type := PyList | PyTuple.
Record run : Type := Run { kind : pair_kind; op : bool; occurences : Z }.

(** [buffer[-1][1] += n] *)
Definition add_to_last (buffer : list run) (n : Z) : result (list run) :=
  match last buffer with
  | None => Raise IndexError
  | Some (Run PyList o m) => Ok (removelast buffer ++ [Run PyList o (m + n)])
  | Some (Run PyTuple _ _) => Raise TypeError
  end.

(** transcript.py:191-202 *)
Definition encode_step (cigar_buffer : list run) (o : bool) : list run :=
  match last cigar_buffer with
  | None => cigar_buffer ++ [Run PyList o 1]
  | Some (Run k o' m) =>
      if bool_decide (o = o')
      then removelast cigar_buffer ++ [Run k o' (m + 1)]
      else cigar_buffer ++ [Run PyList o 1]
  end.

Definition run_length_encode (cigar_v : list bool) : list run :=
  foldl encode_step [] cigar_v.

(** transcript.py:204-208 *)
Definition absorb_skip (skip_tolerance : Z) (pair : run) : run :=
  if negb (op pair) && bool_decide (occurences pair ≤ skip_tolerance)
  then Run PyTuple true (occurences pair)
  else pair.

(** transcript.py:210-220 *)
Definition merge_step (cigar_buffer2 : result (list run)) (pair : run)
    : result (list run) :=
  cigar_buffer2 ← cigar_buffer2;
  match last cigar_buffer2 with
  | None => Ok (cigar_buffer2 ++ [pair])
  | Some l =>
      if bool_decide (op pair = op l)
      then add_to_last cigar_buffer2 (occurences pair)
      else Ok (cigar_buffer2 ++ [pair])
  end.

Definition merge_adjacent (cigar_buffer : list run) : result (list run) :=
  foldl merge_step (Ok []) cigar_buffer.

(** transcript.py:223-229 *)
Fixpoint to_regions (position : Z) (cigar_buffer2 : list run) : list (Z * Z) :=
  match cigar_buffer2 with
  | [] => []
  | region :: rest =>
      if op region
      then (position, position + occurences region - 1)
             :: to_regions (position + occurences region) rest
      else to_regions (position + occurences region) rest
  end.

(** The restriction of the expanded CIGAR to the ops in
    [_CIGAR_MAPPING + ('S',)], transcript.py:177-178. *)
Definition restrict_ops (expanded : string) : list ascii :=
  filter (λ o, o ∈ _CIGAR_MAPPING ++ ["S"%char])
         (String.list_ascii_of_string expanded).

(** transcript.py:166-239; the result is the region list and the pair
    [(set_left_junction, set_right_junction)]. *)
Definition _get_region_list (sam_alignment : string)
    (skip_tolerance map_tolerance : Z) : result (list (Z * Z) * (bool * bool)) :=
  pos_field ← index (split tab sam_alignment) 3;
  position ← int pos_field;
  cigar ← index (split tab sam_alignment) 5;
  cigar_v ← _expand_cigar cigar;
  let cigar_v := restrict_ops cigar_v in
  let should_set_left_junction :=
    match re_match_leading_S cigar_v with
    | None => false
    | Some group => bool_decide (Z.of_nat (length group) > skip_tolerance)
    end in
  let should_set_right_junction :=
    match re_search_trailing_S cigar_v with
    | None => false
    | Some group => bool_decide (Z.of_nat (length group) > skip_tolerance)
    end in
  let cigar_v := filter (λ o, o ≠ "S"%char) cigar_v in
  let cigar_v := (λ o, bool_decide (o ∈ _CIGAR_MAPS_BOTH)) <$> cigar_v in
  let cigar_buffer := run_length_encode cigar_v in
  let cigar_buffer := absorb_skip skip_tolerance <$> cigar_buffer in
  cigar_buffer2 ← merge_adjacent cigar_buffer;
  let regions := to_regions position cigar_buffer2 in
  let within_tolerance :=
    filter (λ region, ¬ (region.2 - region.1 + 1 < map_tolerance)) regions in
  Ok (within_tolerance, (should_set_left_junction, should_set_right_junction)).

(** transcript.py:114-137 *)
Definition __init__ (sam : string) (skip_tolerance map_tolerance : Z) : result t :=
  '(region_list, set_junctions) ← _get_region_list sam skip_tolerance map_tolerance;
  if bool_decide (region_list = []) then Raise NoMappingError
  else
    qname ← index (split tab sam) 0;
    splice_list ← SpliceList.__init__ qname region_list
                     set_junctions.1 set_junctions.2;
    Ok {| sam := sam; splice_list := splice_list |}.

(** transcript.py:142-164: the new value of [self.sam]. *)
Definition apply_annotation (self : t) (represents : list string) : t :=
  let TR_tag :=
    "TR:Z:" +:+ (if bool_decide (represents = []) then "*"
                 else join "," represents) in
  {| sam := join (String tab EmptyString) [sam self; TR_tag];
     splice_list := splice_list self |}.

End Segment.

Module Transcript.

Record t : Type := Build { segments : list Segment.t }.

(** transcript.py:40-47: a segment that raises [NoMappingError] is
    skipped; any other exception leaves the constructor. *)
Fixpoint build_segments (sam_alignments : list string)
    (skip_tolerance map_tolerance : Z) : result (list Segment.t) :=
  match sam_alignments with
  | [] => Ok []
  | alignment :: rest =>
      match Segment.__init__ alignment skip_tolerance map_tolerance with
      | Ok segment =>
          segments ← build_segments rest skip_tolerance map_tolerance;
          Ok (segment :: segments)
      | Raise e =>
          if is_NoMappingError e
          then build_segments rest skip_tolerance map_tolerance
          else Raise e
      end
  end.

(** [components[i].complement = components[target]] *)
Definition set_complement_at (i target : nat) (components : list component)
    : list component :=
  match components !! i with
  | Some (CJunction j) =>
      <[i := CJunction (Junction.set_complement (Some target) j)]> components
  | _ => components
  end.

(** The body of the loop at transcript.py:57-64. *)
Definition wire_step (components : list component) (i : nat) : list component :=
  match components !! i, components !! S i with
  | Some (CJunction a), Some (CJunction b) =>
      if bool_decide (Junction.type a ≠ Junction.type b)
         && Junction.has_complement a && Junction.has_complement b
      then set_complement_at (S i) i (set_complement_at i (S i) components)
      else components
  | _, _ => components
  end.

Definition wire (components : list component) : list component :=
  foldl wire_step components (seq 0 (length components - 1)).

(** [components] at transcript.py:56 is a new list of the objects that
    the segments' splice lists hold, so the writes of the loop land in
    the segments: each segment reads its components back from its
    stretch of the list. *)
Fixpoint redistribute (segments : list Segment.t) (components : list component)
    : list Segment.t :=
  match segments with
  | [] => []
  | segment :: rest =>
      let sl := Segment.splice_list segment in
      let n := length (SpliceList.components sl) in
      Segment.Build (Segment.sam segment)
        (SpliceList.Build (SpliceList.identifier sl) (take n components))
      :: redistribute rest (drop n components)
  end.

(** transcript.py:22-67 *)
Definition __init__ (sam_alignments : list string)
    (skip_tolerance map_tolerance : Z) : result t :=
  segments ← build_segments sam_alignments skip_tolerance map_tolerance;
  match segments with
  | [] => Raise NoMappedSegmentsError
  | _ =>
      let c_lists := (λ segment,
        SpliceList.components (Segment.splice_list segment)) <$> segments in
      let components := concat c_lists in
      Ok {| segments := redistribute segments (wire components) |}
  end.

(** transcript.py:69-88.  [get_annotations] is the method of the
    [annotations] argument, applied to it. *)
Definition annotate (self : t)
    (get_annotations : t → Z → outcome (list string))
    (junction_tolerance : Z) : outcome t :=
  represents ← get_annotations self junction_tolerance;
  Returned {| segments :=
    (λ segment, Segment.apply_annotation segment represents) <$> segments self |}.

(** transcript.py:90-91 *)
Definition __str__ (self : t) : string :=
  join (String "010" EmptyString) (Segment.sam <$> segments self).

End Transcript.

(** *** Read grouping (transcript.py:314-433) *)
Module Grouping.

(** transcript.py:413-417 *)
Definition _get_flags (alignment : string) : result Z :=
  flags ← index (split tab alignment) 1;
  int flags.

(** transcript.py:419-427; [split] never returns the empty list. *)
Definition _get_qname (alignment : string) : string :=
  match split tab alignment with
  | qname :: _ => qname
  | [] => EmptyString
  end.

(** transcript.py:429-433 *)
Definition _get_rnext (alignment : string) : result string :=
  index (split tab alignment) 6.

Definition is_grouped (line : string) : result bool :=
  flags ← _get_flags line; Ok (bool_decide (Z.land flags 0x1 = 0x1)).
Definition is_ungrouped (line : string) : result bool :=
  negb <$> is_grouped line.
Definition is_first_segment (line : string) : result bool :=
  flags ← _get_flags line; Ok (bool_decide (Z.land flags 0x40 = 0x40)).
Definition is_last_segment (line : string) : result bool :=
  flags ← _get_flags line; Ok (bool_decide (Z.land flags 0x80 = 0x80)).
Definition is_middle_segment (seg : string) : result bool :=
  first ← is_first_segment seg;
  if negb (first : bool) then negb <$> is_last_segment seg else Ok false.

(** [list(filter(p, l))] for a predicate that can raise. *)
Fixpoint filter_list (p : string → result bool) (l : list string)
    : result (list string) :=
  match l with
  | [] => Ok []
  | x :: xs =>
      keep ← p x;
      rest ← filter_list p xs;
      Ok (if (keep : bool) then x :: rest else rest)
  end.

(** transcript.py:358-360, 370-372: the QNAME that [RNEXT] names. *)
Definition next_name (alignment : string) : result (option string) :=
  rnext ← _get_rnext alignment;
  Ok (if bool_decide (rnext = "="%string) then Some (_get_qname alignment)
      else if bool_decide (rnext = "*"%string) then None
      else Some rnext).

(** The [while] loop at transcript.py:363-376 from index [i] on, where
    [grouped_middle] is the list from that index.  A matching line is
    popped and [i] stays; otherwise [i] moves on and the line stays.
    The result is the lines appended to [read_group], the lines left in
    [grouped_middle], and the final [rnext]. *)
Fixpoint consider_middles (grouped_middle : list string) (rnext : option string)
    : result (list string * list string * option string) :=
  match grouped_middle, rnext with
  | consider :: rest, Some name =>
      if bool_decide (_get_qname consider = name) then
        rnext ← next_name consider;
        '(taken, kept, rnext) ← consider_middles rest rnext;
        Ok (consider :: taken, kept, rnext)
      else
        '(taken, kept, rnext) ← consider_middles rest (Some name);
        Ok (taken, consider :: kept, rnext)
  | _, _ => Ok ([], grouped_middle, rnext)
  end.

(** The [for] loop at transcript.py:379-384: the first line whose QNAME
    is [rnext] is appended to [read_group] and popped. *)
Fixpoint consider_lasts (grouped_last : list string) (rnext : option string)
    : list string * list string :=
  match grouped_last with
  | [] => ([], [])
  | consider :: rest =>
      if bool_decide (Some (_get_qname consider) = rnext) then ([consider], rest)
      else let '(taken, kept) := consider_lasts rest rnext in
           (taken, consider :: kept)
  end.

(** The lists that the loop over [grouped_first] updates. *)
Record state : Type := State {
  st_grouped_middle : list string;
  st_grouped_last : list string;
  st_grouped_orphans : list string;
  st_read_groups : list (list string)
}.

(** The body of the loop over [grouped_first], transcript.py:356-397. *)
Definition first_step (st : result state) (alignment : string) : result state :=
  st ← st;
  rnext ← next_name alignment;
  '(middles, grouped_middle, rnext) ← consider_middles (st_grouped_middle st) rnext;
  let '(lasts, grouped_last) := consider_lasts (st_grouped_last st) rnext in
  let read_group := [alignment] ++ middles ++ lasts in
  if bool_decide (length read_group = 1%nat) then
    Ok (State grouped_middle grouped_last
          (st_grouped_orphans st ++ [alignment]) (st_read_groups st))
  else
    Ok (State grouped_middle grouped_last
          (st_grouped_orphans st) (st_read_groups st ++ [read_group])).

(** transcript.py:314-411 *)
Definition _get_read_groups (alignments : list string) : result (list (list string)) :=
  let alignments := strip <$> alignments in
  alignments_ungrouped ← filter_list is_ungrouped alignments;
  alignments_grouped ← filter_list is_grouped alignments;
  grouped_first ← filter_list is_first_segment alignments_grouped;
  grouped_last ← filter_list is_last_segment alignments_grouped;
  grouped_middle ← filter_list is_middle_segment alignments_grouped;
  st ← foldl first_step (Ok (State grouped_middle grouped_last [] [])) grouped_first;
  let grouped_orphans :=
    st_grouped_orphans st ++ st_grouped_middle st ++ st_grouped_last st in
  Ok (st_read_groups st
      ++ ((λ alignment, [alignment]) <$> alignments_ungrouped)
      ++ ((λ alignment, [alignment]) <$> grouped_orphans)).

(** transcript.py:306-312: a group without a mapped segment is passed
    over; any other exception leaves the function. *)
Fixpoint build_transcripts (transcript_groups : list (list string))
    (skip_tolerance map_tolerance : Z) : result (list Transcript.t) :=
  match transcript_groups with
  | [] => Ok []
  | group :: rest =>
      match Transcript.__init__ group skip_tolerance map_tolerance with
      | Ok transcript =>
          transcripts ← build_transcripts rest skip_tolerance map_tolerance;
          Ok (transcript :: transcripts)
      | Raise NoMappedSegmentsError =>
          build_transcripts rest skip_tolerance map_tolerance
      | Raise e => Raise e
      end
  end.

(** transcript.py:282-312 *)
Definition get_transcripts (alignments : list string)
    (skip_tolerance map_tolerance : Z) : result (list Transcript.t) :=
  transcript_groups ← _get_read_groups alignments;
  build_transcripts transcript_groups skip_tolerance map_tolerance.

End Grouping.

(** ** annotations.py *)
Module Annotations.

Record t : Type := Build { variants : list SpliceList.t }.

(** ['transcript_id' in field] *)
Fixpoint str_contains (sub s : string) : bool :=
  String.prefix sub s ||
  match s with
  | EmptyString => false
  | String _ s' => str_contains sub s'
  end.

(** [s.replace(old, '')] for a non-empty [old]: occurrences are removed
    from left to right; [skip] counts the characters of an occurrence
    still to be dropped. *)
Fixpoint remove_loop (old : string) (skip : nat) (s : string) : string :=
  match s with
  | EmptyString => EmptyString
  | String c s' =>
      match skip with
      | S k => remove_loop old k s'
      | O =>
          if String.prefix old s
          then remove_loop old (String.length old - 1) s'
          else String c (remove_loop old 0 s')
      end
  end.

Definition remove_all (old s : string) : string := remove_loop old 0 s.

(** [next(filter(p, fields))] *)
Definition next_filter (p : string → bool) (fields : list string) : result string :=
  match List.find p fields with
  | Some field => Ok field
  | None => Raise StopIteration
  end.

(** annotations.py:40-47 *)
Definition parse_line (line : list string) : result (Z * Z * string) :=
  start_field ← index line 3;
  start ← int start_field;
  stop_field ← index line 4;
  stop ← int stop_field;
  attributes ← index_last line;
  transcript_id ← next_filter (str_contains "transcript_id")
                     (split ";" attributes);
  let transcript_id := remove_all "transcript_id" transcript_id in
  let transcript_id := remove_all (String dquote EmptyString) transcript_id in
  let transcript_id := strip transcript_id in
  Ok (start, stop, transcript_id).

(** annotations.py:35-36: the rows of feature type [exon]. *)
Fixpoint exon_lines (lines : list (list string)) : result (list (list string)) :=
  match lines with
  | [] => Ok []
  | line :: rest =>
      feature ← index line 2;
      kept ← exon_lines rest;
      Ok (if bool_decide (feature = "exon"%string) then line :: kept else kept)
  end.

(** annotations.py:38-47: [lines2], the triples
    [(start, stop, transcript_id)] of the exon rows. *)
Fixpoint parse_lines (lines : list (list string)) : result (list (Z * Z * string)) :=
  match lines with
  | [] => Ok []
  | line :: rest =>
      triple ← parse_line line;
      triples ← parse_lines rest;
      Ok (triple :: triples)
  end.

(** The variables of the loop at annotations.py:49-91. *)
Record state : Type := State {
  st_precursor_start : option Z;
  st_precursor_end : option Z;
  st_variants : list SpliceList.t;
  st_exons : list (Z * Z);
  st_current_variant : string
}.

(** [sorted(pair)] on a pair of integers *)
Definition sorted_pair (pair : Z * Z) : Z * Z :=
  (Z.min pair.1 pair.2, Z.max pair.1 pair.2).

(** annotations.py:61-71 and 78-88: close the splice variant whose exons
    have been collected. *)
Definition close_variant (st : state) : result state :=
  first_exon ← index (st_exons st) 0;
  let should_reverse := bool_decide (first_exon.1 > first_exon.2) in
  let exons :=
    if should_reverse then sorted fst (sorted_pair <$> st_exons st)
    else st_exons st in
  variant ← SpliceList.__init__ (st_current_variant st) exons true true;
  first_exon ← index exons 0;
  last_exon ← index_last exons;
  let precursor_start :=
    match st_precursor_start st with
    | None => first_exon.1
    | Some precursor_start => Z.min precursor_start first_exon.1
    end in
  let precursor_end :=
    match st_precursor_end st with
    | None => last_exon.2
    | Some precursor_end => Z.max precursor_end last_exon.2
    end in
  Ok (State (Some precursor_start) (Some precursor_end)
        (st_variants st ++ [variant]) exons (st_current_variant st)).

(** The body of the loop at annotations.py:54-75. *)
Definition triple_step (st : result state) (triple : Z * Z * string) : result state :=
  st ← st;
  if bool_decide (triple.2 = st_current_variant st) then
    Ok (State (st_precursor_start st) (st_precursor_end st) (st_variants st)
          (st_exons st ++ [triple.1]) (st_current_variant st))
  else
    st ← close_variant st;
    Ok (State (st_precursor_start st) (st_precursor_end st) (st_variants st)
          [triple.1] triple.2).

(** annotations.py:49-93, from the exon triples [lines2]. *)
Definition from_triples (lines2 : list (Z * Z * string)) : result t :=
  first_triple ← index lines2 0;
  st ← foldl triple_step (Ok (State None None [] [] first_triple.2)) lines2;
  st ← close_variant st;
  match st_precursor_start st, st_precursor_end st with
  | Some precursor_start, Some precursor_end =>
      pre_mRNA ← SpliceList.__init__ "pre-mRNA"
                    [(precursor_start, precursor_end)] true true;
      Ok {| variants := st_variants st ++ [pre_mRNA] |}
  | _, _ => Raise TypeError (* not reached: [close_variant] sets both *)
  end.

(** annotations.py:24-95, from the lines that [readlines] returns. *)
Definition __init__ (gtf_lines : list string) : result t :=
  lines ← exon_lines (split tab <$> gtf_lines);
  lines2 ← parse_lines lines;
  from_triples lines2.

(** *** [Annotations.get_annotations] (annotations.py:97-134) *)
Section get_annotations.

Variable set_iter : gset Z → list Z.
Variable junction_iter : list Junction.t → list Junction.t → list Junction.t.

(** annotations.py:126-132: [map] is lazy, so the variants are compared
    one by one as the loop over [zip] goes, and the first comparison that
    raises ends it. *)
Fixpoint possible_annotations (variants : list SpliceList.t)
    (merged : SpliceList.t) (junction_tolerance : Z) : result (list string) :=
  match variants with
  | [] => Ok []
  | variant :: rest =>
      contains_transcript ←
        SpliceList.contains set_iter variant merged junction_tolerance;
      possible ← possible_annotations rest merged junction_tolerance;
      Ok (if (contains_transcript : bool)
          then SpliceList.identifier variant :: possible else possible)
  end.

Definition get_annotations (self : t) (transcript : Transcript.t)
    (junction_tolerance : Z) : outcome (list string) :=
  let transcript_splice_lists :=
    Segment.splice_list <$> Transcript.segments transcript in
  transcript_splice_lists_merged ←
    SpliceList.join_many set_iter junction_iter transcript_splice_lists;
  of_result (possible_annotations (variants self)
               transcript_splice_lists_merged junction_tolerance).

End get_annotations.

End Annotations.

(** * Vocabulary of the properties *)

(** ** The SpliceList constructor *)

(** Some exon of [l] reaches the start of the next one. *)
Definition adjacent_overlap (l : list (Z * Z)) : Prop :=
  ∃ (i : nat) (a b : Z * Z), l !! i = Some a ∧ l !! S i = Some b ∧ a.2 >= b.1.

(** No two exons at different places of the list share a position. *)
Definition pairwise_disjoint (exons : list (Z * Z)) : Prop :=
  ∀ (i j : nat) (a b : Z * Z),
    i ≠ j → exons !! i = Some a → exons !! j = Some b → a.2 < b.1 ∨ b.2 < a.1.

Definition is_Region (c : option component) : Prop :=
  ∃ r, c = Some (CRegion r).

(** The components of one exon. *)
Definition left_end (exon : Z * Z) : component :=
  CJunction (Junction.__init__ exon.1 TYPE_START).
Definition right_end (exon : Z * Z) : component :=
  CJunction (Junction.__init__ exon.2 TYPE_END).
Definition exon_region (exon : Z * Z) : Region.t := Region.__init__ exon.1 exon.2.

(** ** The CIGAR interpretation *)

(** The merge loop seen from its last element [cur]: what it appends to
    the runs before [cur] while it reads [rest]. *)
Fixpoint merge_from (cur : Segment.run) (rest : list Segment.run)
    : result (list Segment.run) :=
  match rest with
  | [] => Ok [cur]
  | p :: rest =>
      if bool_decide (Segment.op p = Segment.op cur) then
        match Segment.kind cur with
        | Segment.PyList =>
            merge_from (Segment.Run Segment.PyList (Segment.op cur)
                          (Segment.occurences cur + Segment.occurences p)) rest
        | Segment.PyTuple => Raise TypeError
        end
      else (cur ::.) <$> merge_from p rest
  end.

(** Every run has at least one op. *)
Definition positive_runs (buffer : list Segment.run) : Prop :=
  Forall (λ p, 1 ≤ Segment.occurences p) buffer.

(** Neighbouring runs are of different classes. *)
Definition alternating (buffer : list Segment.run) : Prop :=
  Sorted (λ p q, Segment.op p ≠ Segment.op q) buffer.

(** [prev] is a well-formed region and [next] starts at least two
    positions after its stop. *)
Definition region_gap (prev next : Z * Z) : Prop :=
  prev.1 ≤ prev.2 ∧ prev.2 + 1 < next.1 ∧ next.1 ≤ next.2.

(** The ops begin (end) with [n >= 1] copies of [S], [n] above the
    tolerance. *)
Definition begins_with_S_run (ops : list ascii) (skip_tolerance : Z) : Prop :=
  ∃ (n : nat) (rest : list ascii),
    ops = replicate n "S"%char ++ rest ∧ (0 < n)%nat ∧ Z.of_nat n > skip_tolerance.
Definition ends_with_S_run (ops : list ascii) (skip_tolerance : Z) : Prop :=
  ∃ (n : nat) (rest : list ascii),
    ops = rest ++ replicate n "S"%char ∧ (0 < n)%nat ∧ Z.of_nat n > skip_tolerance.

(** The ops of an expanded CIGAR that are one of [M], [D], [N], [=], [X]
    and [S], in their order: the restriction in the words of the
    specification, to be compared with [Segment.restrict_ops]. *)
Definition ops_in_MDNEXS (expanded : string) : list ascii :=
  filter (λ o, o ∈ ["M"; "D"; "N"; "="; "X"; "S"]%char)
         (String.list_ascii_of_string expanded).

(** The left flag of [_get_region_list], as a function of the ops. *)
Definition left_flag (ops : list ascii) (skip_tolerance : Z) : bool :=
  match Segment.re_match_leading_S ops with
  | None => false
  | Some group => bool_decide (Z.of_nat (length group) > skip_tolerance)
  end.

Definition right_flag (ops : list ascii) (skip_tolerance : Z) : bool :=
  match Segment.re_search_trailing_S ops with
  | None => false
  | Some group => bool_decide (Z.of_nat (length group) > skip_tolerance)
  end.

(** ** Containment *)

(** No junction of the list has its [complement] set. *)
Definition no_complement (junctions : list Junction.t) : Prop :=
  Forall (λ j, Junction.complement j = None) junctions.

(** Every junction of [other_junctions] has a junction of
    [this_junctions] in its check range. *)
Definition all_matched (junction_tolerance : Z)
    (this_junctions other_junctions : list Junction.t) : bool :=
  forallb (λ j, existsb (SpliceList.in_check_range junction_tolerance j) this_junctions)
          other_junctions.

(** ** The annotations *)

(** The groups of the exon triples: consecutive triples with one
    [transcript_id], as pairs of the id and the exons in input order.
    [current] and [exons] are the group being collected. *)
Fixpoint groups_from (current : string) (exons : list (Z * Z))
    (lines2 : list (Z * Z * string)) : list (string * list (Z * Z)) :=
  match lines2 with
  | [] => [(current, exons)]
  | triple :: rest =>
      if bool_decide (triple.2 = current)
      then groups_from current (exons ++ [triple.1]) rest
      else (current, exons) :: groups_from triple.2 [triple.1] rest
  end.

Definition groups_of (lines2 : list (Z * Z * string)) : list (string * list (Z * Z)) :=
  match lines2 with
  | [] => []
  | triple :: _ => groups_from triple.2 [] lines2
  end.

(** The first exon of the group has its start after its stop. *)
Definition first_reversed (exons : list (Z * Z)) : bool :=
  match exons with
  | first_exon :: _ => bool_decide (first_exon.1 > first_exon.2)
  | [] => false
  end.

(** The exons from which the SpliceList of a group is built. *)
Definition normalised (exons : list (Z * Z)) : list (Z * Z) :=
  if first_reversed exons then sorted fst (Annotations.sorted_pair <$> exons)
  else exons.

(** [v] is the SpliceList of the group [g]. *)
Definition variant_of (g : string * list (Z * Z)) (v : SpliceList.t) : Prop :=
  g.2 ≠ [] ∧
  SpliceList.__init__ g.1 (normalised g.2) true true = Ok v.

(** The start of the first and the stop of the last exon of a list. *)
Definition first_start (exons : list (Z * Z)) : Z :=
  match exons with exon :: _ => exon.1 | [] => 0 end.
Definition last_stop (exons : list (Z * Z)) : Z :=
  match last exons with Some exon => exon.2 | None => 0 end.

Definition is_minimum (x : Z) (l : list Z) : Prop := x ∈ l ∧ ∀ y, y ∈ l → x ≤ y.
Definition is_maximum (x : Z) (l : list Z) : Prop := x ∈ l ∧ ∀ y, y ∈ l → y ≤ x.

(** The exons of a group are in ascending order of start and of stop. *)
Definition ascending (exons : list (Z * Z)) : Prop :=
  Sorted (λ a b, a.1 ≤ b.1 ∧ a.2 ≤ b.2) exons.

(** The starts of the first exons and the stops of the last exons of the
    groups, as the SpliceLists of the groups are built. *)
Definition group_starts (groups : list (string * list (Z * Z))) : list Z :=
  (λ g, first_start (normalised g.2)) <$> groups.
Definition group_stops (groups : list (string * list (Z * Z))) : list Z :=
  (λ g, last_stop (normalised g.2)) <$> groups.

(** ** The read grouping *)

(** The lines that a state of the loop over [grouped_first] holds. *)
Definition held (st : Grouping.state) : list string :=
  concat (Grouping.st_read_groups st) ++ Grouping.st_grouped_orphans st
  ++ Grouping.st_grouped_middle st ++ Grouping.st_grouped_last st.

(** A line is marked as the first and as the last segment of its
    template. *)
Definition first_and_last (line : string) : Prop :=
  Grouping.is_first_segment line = Ok true ∧ Grouping.is_last_segment line = Ok true.

(** ** Inputs of the examples *)

(** A read that starts with 25 soft-clipped bases. *)
Definition clip_line : string :=
  join_tab ["r1"; "0"; "chrX"; "500"; "60"; "25S50M"; "*"; "0"; "0"; "ACGT"; "*"]%string.

(** A read spliced over an intron of 30 bases. *)
Definition spliced_line : string :=
  join_tab ["r2"; "0"; "chrX"; "100"; "60"; "10M30N10M"; "*"; "0"; "0";
            "ACGTACGTACGTACGTACGT"; "*"]%string.

(** A read pair over a splice: the first mate ends in a soft clip, the
    second starts with one and spans a further intron. *)
Definition mate1 : string :=
  join_tab ["r1"; "65"; "chrX"; "1"; "60"; "10M3S"; "="; "21"; "0"; "ACGTACGTACGTA"; "*"]%string.
Definition mate2 : string :=
  join_tab ["r1"; "129"; "chrX"; "21"; "60"; "3S10M10N10M"; "="; "1"; "0";
            "ACGTACGTACGTACGTACGTACG"; "*"]%string.

(** The splice list of the second mate once the transcript of the pair is
    built: its first junction has the end junction of the first mate as
    complement. *)
Definition mate2_splice_list : SpliceList.t :=
  {| SpliceList.identifier := "r1";
     SpliceList.components :=
       [ CJunction (Junction.Build 21 TYPE_START (Some 1%nat) true);
         CRegion (Region.__init__ 21 30);
         CJunction (Junction.Build 30 TYPE_END None false);
         CJunction (Junction.Build 41 TYPE_START None false);
         CRegion (Region.__init__ 41 50) ] |}.

(** What the transcript of the pair holds for the second mate. *)
Definition second_splice_list (t : Transcript.t) : option SpliceList.t :=
  Segment.splice_list <$> Transcript.segments t !! 1%nat.

(** The SpliceList of a test case of test_splice_list_cases.py. *)
Definition test_splice_list (exons : list (Z * Z)) : SpliceList.t :=
  match SpliceList.__init__ "test" exons false false with
  | Ok sl => sl
  | Raise _ => SpliceList.Build "test" []
  end.

(** One GTF line of feature type [exon]. *)
Definition gtf_exon_line (start stop transcript_id : string) : string :=
  join_tab ["chrX"; "RefSeq"; "exon"; start; stop; "."; "-"; ".";
            "gene_id " +:+ String dquote "FLNA" +:+ String dquote "; transcript_id "
              +:+ String dquote transcript_id +:+ String dquote (String ";" (String "010" ""))]%string.

(** Exon rows of one transcript in descending order, as GTF files list
    the exons of a transcript on the minus strand. *)
Definition descending_rows : list (Z * Z * string) :=
  [(100, 200, "T"%string); (10, 50, "T"%string)].

(** A line of a template with several segments (0x1) that is marked as
    its first (0x40) and as its last (0x80) segment: FLAG 193. *)
Definition both_ends_line : string :=
  join_tab ["r1"; "193"; "chrX"; "100"; "60"; "10M"; "="; "100"; "0";
            "ACGTACGTAC"; "*"]%string.
Definition both_ends_orphan : string :=
  join_tab ["r1"; "193"; "chrX"; "100"; "60"; "10M"; "*"; "0"; "0";
            "ACGTACGTAC"; "*"]%string.

(** ** Vocabulary for the further properties *)

(** The position [z] lies in one of the regions. *)
Definition covered (regions : list Region.t) (z : Z) : Prop :=
  ∃ r, r ∈ regions ∧ Region.start r ≤ z ≤ Region.stop r.

(** The call returned. *)
Definition succeeds {A} (m : result A) : bool :=
  match m with Ok _ => true | Raise _ => false end.

(** A component without what [Transcript.__init__] writes to it. *)
Definition forget_complement (c : component) : component :=
  match c with
  | CJunction j => CJunction (Junction.set_complement None j)
  | CRegion r => CRegion r
  end.

(** The components of the segments of a transcript, one segment after
    the other: the list that [Transcript.__init__] walks. *)
Definition all_components (t : Transcript.t) : list component :=
  concat ((λ segment, SpliceList.components (Segment.splice_list segment))
            <$> Transcript.segments t).

(** The components at [i] and [k] are neighbours, both are junctions with
    [has_complement] set, and their types differ. *)
Definition partners (components : list component) (i k : nat) : Prop :=
  (k = S i ∨ i = S k) ∧
  ∃ a b, components !! i = Some (CJunction a) ∧
         components !! k = Some (CJunction b) ∧
         Junction.type a ≠ Junction.type b ∧
         Junction.has_complement a = true ∧
         Junction.has_complement b = true.

(** The test of the loop of [Transcript.__init__] at [i]. *)
Definition wirable (components : list component) (i : nat) : bool :=
  match components !! i, components !! S i with
  | Some (CJunction a), Some (CJunction b) =>
      bool_decide (Junction.type a ≠ Junction.type b)
      && Junction.has_complement a && Junction.has_complement b
  | _, _ => false
  end.

(** The [complement] of the component at [i] once the loop has gone
    through the indices below [m]: the later write wins. *)
Definition complement_after (components : list component) (m i : nat)
    (before : option nat) : option nat :=
  if bool_decide (i < m)%nat && wirable components i then Some (S i)
  else if bool_decide (0 < i ≤ m)%nat && wirable components (i - 1)
       then Some (i - 1)%nat
       else before.

(** The transcript of the read pair [mate1], [mate2]. *)
Definition pair_of_mates : Transcript.t :=
  match Transcript.__init__ [mate1; mate2] 2 0 with
  | Ok t => t
  | Raise _ => Transcript.Build []
  end.

(** The ops of an expanded CIGAR that consume the reference, [true] for
    those that consume the read too: what [_get_region_list] encodes in
    runs (transcript.py:177-189). *)
Definition reference_ops (expanded : string) : list bool :=
  (λ o, bool_decide (o ∈ Segment._CIGAR_MAPS_BOTH))
    <$> filter (λ o, o ≠ "S"%char) (Segment.restrict_ops expanded).

(** The ops begin with [n >= 1] skips, [n] within the tolerance, and an
    op that is no skip comes next. *)
Definition leading_short_skip (ops : list bool) (skip_tolerance : Z) : Prop :=
  ∃ (n : nat) (rest : list bool),
    ops = replicate n false ++ true :: rest ∧ (0 < n)%nat ∧
    Z.of_nat n ≤ skip_tolerance.

(** The encoding loop seen from its last run [cur]: what it appends to
    the runs before [cur] while it reads [cigar_v]. *)
Fixpoint encode_from (cur : Segment.run) (cigar_v : list bool) : list Segment.run :=
  match cigar_v with
  | [] => [cur]
  | o :: cigar_v =>
      if bool_decide (o = Segment.op cur)
      then encode_from (Segment.Run (Segment.kind cur) (Segment.op cur)
                          (Segment.occurences cur + 1)) cigar_v
      else cur :: encode_from (Segment.Run Segment.PyList o 1) cigar_v
  end.

(** The number of ops in the runs. *)
Definition total (buffer : list Segment.run) : Z :=
  foldr (λ p n, Segment.occurences p + n) 0 buffer.

(** Every run is a [list], which [+=] can update. *)
Definition all_lists (buffer : list Segment.run) : Prop :=
  Forall (λ p, Segment.kind p = Segment.PyList) buffer.

(** An unpaired alignment at position 100 with the given CIGAR. *)
Definition line_with_cigar (cigar : string) : string :=
  join_tab ["r1"; "0"; "chrX"; "100"; "60"; cigar; "*"; "0"; "0"; "ACGT"; "*"]%string.

(** The segment of the second mate on its own. *)
Definition mate2_segment : Segment.t :=
  match Segment.__init__ mate2 2 0 with
  | Ok segment => segment
  | Raise _ => Segment.Build mate2 (SpliceList.Build "" [])
  end.

(** Each line of the group but the first has the QNAME that the RNEXT of
    the line before it names. *)
Definition linked (group : list string) : Prop :=
  ∀ (i : nat) (a b : string),
    group !! i = Some a → group !! S i = Some b →
    Grouping.next_name a = Ok (Some (Grouping._get_qname b)).

(** The lines follow one another by name from [rnext] on, and [final] is
    the name that the last of them gives (or [rnext] when there is no
    line). *)
Fixpoint chain_to (rnext : option string) (lines : list string)
    (final : option string) : Prop :=
  match lines with
  | [] => final = rnext
  | line :: lines =>
      rnext = Some (Grouping._get_qname line) ∧
      ∃ r, Grouping.next_name line = Ok r ∧ chain_to r lines final
  end.

(** A read group of more than one line: a line marked as first segment of
    a template, then lines that are not marked first. *)
Definition first_then_others (group : list string) : Prop :=
  ∃ first others,
    group = first :: others ∧
    Grouping.is_grouped first = Ok true ∧
    Grouping.is_first_segment first = Ok true ∧
    Forall (λ line, Grouping.is_grouped line = Ok true ∧
                    (Grouping.is_middle_segment line = Ok true ∨
                     Grouping.is_last_segment line = Ok true)) others.

(** A pair of SAM lines of one template and one unpaired line. *)
Definition pair_first : string :=
  join_tab ["p"; "65"; "chrX"; "1"; "60"; "10M"; "="; "21"; "0"; "ACGT"; "*"]%string.
Definition pair_last : string :=
  join_tab ["p"; "129"; "chrX"; "21"; "60"; "10M"; "="; "1"; "0"; "ACGT"; "*"]%string.
Definition single_line : string :=
  join_tab ["s"; "0"; "chrX"; "100"; "60"; "10M"; "*"; "0"; "0"; "ACGT"; "*"]%string.

(** The exons from which the SpliceList of the group is built overlap
    once they are sorted by start. *)
Definition overlapping_group (g : string * list (Z * Z)) : Prop :=
  adjacent_overlap (sorted fst (normalised g.2)).

(** [prev] is a well-formed region and [next] starts at least two
    positions after its stop. *)
Definition region_order (prev next : Region.t) : Prop :=
  Region.start prev ≤ Region.stop prev ∧
  Region.stop prev + 1 < Region.start next ∧
  Region.start next ≤ Region.stop next.

(** The position next to a junction on the side away from its exon:
    the one that [SpliceList.join] looks up. *)
Definition outer_position (j : Junction.t) : Z :=
  match Junction.type j with
  | TYPE_START => Junction.position j - 1
  | TYPE_END => Junction.position j + 1
  end.

(** The exon loop of [SpliceList.join] seen from the exon in hand, which
    starts at [start] and has [prev] as its last position read: the exons
    that the loop and its [else] append while [mapped] is read. *)
Fixpoint exons_from (start prev : Z) (mapped : list Z) : list (Z * Z) :=
  match mapped with
  | [] => [(start, prev)]
  | pos :: mapped =>
      if bool_decide (pos - prev = 1) then exons_from start pos mapped
      else (start, prev) :: exons_from pos pos mapped
  end.

(** The call returned [True]. *)
Definition holds (m : result bool) : bool :=
  match m with Ok true => true | _ => false end.

(** The character [c] does not occur in [s]. *)
Definition free_of (c : ascii) (s : string) : Prop :=
  c ∉ String.list_ascii_of_string s.

(** [sl1 + sl2] for the junction objects of two SpliceLists that share
    none: an enumeration of [set(sl1.junctions).union(sl2.junctions)]. *)
Definition junctions_in_order (l1 l2 : list Junction.t) : list Junction.t := l1 ++ l2.

(** Two SpliceLists whose regions overlap, and their join. *)
Definition two_exons : SpliceList.t := test_splice_list [(1, 10); (21, 30)].
Definition bridge : SpliceList.t := test_splice_list [(5, 25)].
Definition joined_example : SpliceList.t :=
  match SpliceList.join elements junctions_in_order two_exons bridge with
  | Returned sl => sl
  | _ => SpliceList.Build "" []
  end.

(** The annotations of the rows of one transcript in ascending order. *)
Definition ascending_rows : list (Z * Z * string) :=
  [(10, 50, "T"); (100, 200, "T")]%string.
Definition ascending_gtf : list string :=
  [gtf_exon_line "10" "50" "T"; gtf_exon_line "100" "200" "T"].
Definition example_annotations : Annotations.t :=
  match Annotations.from_triples ascending_rows with
  | Ok ann => ann
  | Raise _ => Annotations.Build []
  end.

(** The pair of mates, annotated with the example annotations. *)
Definition annotated_pair : Transcript.t :=
  match Transcript.annotate pair_of_mates
          (Annotations.get_annotations elements junctions_in_order example_annotations)
          0 with
  | Returned t => t
  | _ => Transcript.Build []
  end.

(** The text of a CIGAR made of runs, each with the digits of its count,
    its op and the count. *)
Fixpoint cigar_of (runs : list (string * ascii * Z)) : string :=
  match runs with
  | [] => EmptyString
  | (digits, o, _) :: runs => digits +:+ String o (cigar_of runs)
  end.

(** Each op of the runs as often as its count says. *)
Fixpoint expansion (runs : list (string * ascii * Z)) : string :=
  match runs with
  | [] => EmptyString
  | (_, o, n) :: runs => repeat_char o n +:+ expansion runs
  end.

(** [digits] is a non-empty string of digits that [int] reads as [n], and
    [o] is no digit. *)
Definition well_formed_run (run : string * ascii * Z) : Prop :=
  run.1.1 ≠ EmptyString ∧
  Forall (λ c, isnumeric c = true) (String.list_ascii_of_string run.1.1) ∧
  isnumeric run.1.2 = false ∧
  int run.1.1 = Ok run.2.

(** A GTF line of another feature type. *)
Definition gtf_gene_line : string :=
  join_tab ["chrX"; "RefSeq"; "gene"; "1"; "300"; "."; "-"; "."; "gene_id FLNA"]%string.

(** The runs of the CIGAR [10M30N2D]. *)
Definition example_runs : list (string * ascii * Z) :=
  [("10"%string, "M"%char, 10); ("30"%string, "N"%char, 30); ("2"%string, "D"%char, 2)].

(** A SpliceList of one exon, within which [bridge] lies. *)
Definition one_exon : SpliceList.t := test_splice_list [(1, 30)].

(** * Properties *)

(** ** [sorted] *)
Section sorted_facts.
Context {A : Type} (key : A → Z).

Let le_key : relation A := λ a b, key a ≤ key b.

Lemma insert_by_perm x l : insert_by key x l ≡ₚ x :: l.
Proof.
  induction l as [|y ys IH]; simpl; [done|].
  case_bool_decide; [done|]. rewrite IH. apply Permutation_swap.
Qed.

Lemma sorted_perm l : sorted key l ≡ₚ l.
Proof.
  induction l as [|x xs IH]; simpl; [done|].
  by rewrite insert_by_perm, IH.
Qed.

Lemma insert_by_Sorted x l : Sorted le_key l → Sorted le_key (insert_by key x l).
Proof.
  induction 1 as [|y ys Hs IH Hhd]; simpl.
  - repeat constructor.
  - case_bool_decide as Hxy.
    + repeat constructor; done.
    + constructor; [done|].
      destruct Hhd as [|z zs Hyz]; simpl.
      * constructor. unfold le_key. lia.
      * case_bool_decide; constructor; unfold le_key in *; lia.
Qed.

Lemma sorted_Sorted l : Sorted le_key (sorted key l).
Proof.
  induction l; simpl; [constructor|]. by apply insert_by_Sorted.
Qed.

Lemma insert_by_HdRel x l : HdRel le_key x l → insert_by key x l = x :: l.
Proof.
  destruct 1 as [|y ys Hxy]; simpl; [done|].
  by rewrite bool_decide_eq_true_2.
Qed.

(** Sorting a list that is in order returns it. *)
Lemma sorted_id l : Sorted le_key l → sorted key l = l.
Proof.
  induction 1 as [|x xs Hs IH Hhd]; simpl; [done|].
  rewrite IH. by apply insert_by_HdRel.
Qed.

Lemma Sorted_lookup_succ l i a b :
  Sorted le_key l → l !! i = Some a → l !! S i = Some b → key a ≤ key b.
Proof.
  intros Hs. revert i. induction Hs as [|x xs Hs IH Hhd]; intros i Ha Hb; [done|].
  destruct i as [|i]; simpl in *.
  - simplify_eq. destruct Hhd; simplify_eq/=. done.
  - eauto.
Qed.

Lemma sorted_length l : length (sorted key l) = length l.
Proof. apply Permutation_length, sorted_perm. Qed.

Lemma sorted_nil_inv l : sorted key l = [] → l = [].
Proof.
  intros H. apply (f_equal length) in H. rewrite sorted_length in H.
  by destruct l.
Qed.
End sorted_facts.

(** ** [SpliceList.__init__] *)


Lemma check_overlap_cons x y l :
  SpliceList.check_overlap (x :: y :: l) =
    if bool_decide (x.2 >= y.1) then Raise OverlappingExonsError
    else SpliceList.check_overlap (y :: l).
Proof. done. Qed.

Lemma check_overlap_spec l :
  (SpliceList.check_overlap l = Ok () ∧ ¬ adjacent_overlap l) ∨
  (SpliceList.check_overlap l = Raise OverlappingExonsError ∧ adjacent_overlap l).
Proof.
  induction l as [|x [|y l] IH].
  - left. split; [done|]. by intros (i & a & b & Ha & _).
  - left. split; [done|]. by intros ([|i] & a & b & Ha & Hb & _).
  - rewrite check_overlap_cons. case_bool_decide as Hxy.
    + right. split; [done|]. by exists 0%nat, x, y.
    + destruct IH as [[-> Hno]|[-> (i & a & b & Ha & Hb & Hab)]].
      * left. split; [done|]. intros ([|i] & a & b & Ha & Hb & Hab).
        -- by simplify_eq/=.
        -- apply Hno. by exists i, a, b.
      * right. split; [done|]. by exists (S i), a, b.
Qed.


Lemma regions_exon_components l :
  omap as_region (l ≫= SpliceList.exon_components) = exon_region <$> l.
Proof.
  induction l as [|e l IH]; [done|].
  rewrite bind_cons, omap_app, IH. done.
Qed.

Lemma length_exon_components l :
  length (l ≫= SpliceList.exon_components) = (3 * length l)%nat.
Proof.
  induction l as [|e l IH]; [done|].
  rewrite bind_cons, length_app, IH. simpl. lia.
Qed.

(** The components of a non-empty exon list: a start junction, an inner
    part that begins and ends with a region, an end junction. *)
Lemma components_shape l :
  l ≠ [] →
  ∃ e1 en M,
    head l = Some e1 ∧ last l = Some en ∧
    l ≫= SpliceList.exon_components = left_end e1 :: M ++ [right_end en] ∧
    is_Region (head M) ∧ is_Region (last M).
Proof.
  destruct l as [|e1 t]; [done|]. intros _.
  destruct t as [|en t _] using rev_ind.
  - exists e1, e1, [CRegion (exon_region e1)]. repeat split; by eexists.
  - exists e1, en,
      (CRegion (exon_region e1) :: right_end e1
         :: (t ≫= SpliceList.exon_components)
         ++ [left_end en; CRegion (exon_region en)]).
    split; [done|]. split.
    { by rewrite app_comm_cons, last_snoc. }
    split.
    { rewrite bind_cons, bind_app, bind_singleton. simpl.
      rewrite <-!app_assoc. done. }
    split; [by eexists|].
    exists (exon_region en).
    by rewrite !app_comm_cons, last_app_cons.
Qed.

Lemma mark_last_snoc cs c :
  SpliceList.mark_last (cs ++ [c]) = Ok (cs ++ [SpliceList.mark c]).
Proof. unfold SpliceList.mark_last. by rewrite last_snoc, removelast_last. Qed.

(** What the constructor returns when the overlap check passes on a
    non-empty exon list. *)
Lemma init_shape id exons l r e1 en M :
  ¬ adjacent_overlap (sorted fst exons) →
  sorted fst exons ≫= SpliceList.exon_components
    = left_end e1 :: M ++ [right_end en] →
  SpliceList.__init__ id exons l r =
    Ok (SpliceList.Build id
          ((if l then [SpliceList.mark (left_end e1)] else [])
           ++ M ++ (if r then [SpliceList.mark (right_end en)] else []))).
Proof.
  intros Hno Hc. unfold SpliceList.__init__.
  destruct (check_overlap_spec (sorted fst exons)) as [[-> _]|[_ ?]]; [|done].
  cbn [mbind result_bind]. rewrite Hc.
  destruct l, r;
    cbn [SpliceList.mark_first mbind result_bind drop app];
    by rewrite ?drop_0, ?app_comm_cons, ?mark_last_snoc, ?removelast_last,
         ?app_nil_r.
Qed.

Lemma no_overlap_sorted exons :
  Forall (λ e, e.1 ≤ e.2) exons → pairwise_disjoint exons →
  ¬ adjacent_overlap (sorted fst exons).
Proof.
  intros Hwf Hd (i & a & b & Ha & Hb & Hab).
  pose proof (Sorted_lookup_succ fst _ _ _ _ (sorted_Sorted fst exons) Ha Hb) as Hle.
  destruct (proj1 (Permutation_inj _ _) (sorted_perm fst exons)) as (_ & f & Hf & Hfi).
  rewrite Hfi in Ha, Hb.
  assert (f i ≠ f (S i)) as Hne by (intros ?%Hf; lia).
  assert (b.1 ≤ b.2) as Hb12.
  { rewrite Forall_forall in Hwf. apply (Hwf b).
    by eapply list_elem_of_lookup_2. }
  destruct (Hd _ _ _ _ Hne Ha Hb); lia.
Qed.

(** C6. A SpliceList built from [n >= 1] pairwise disjoint exons with
    neither endpoint junction set has [3n - 2] components, [n] of them
    regions, and its first and last components are regions; with both
    endpoint junctions set it has [3n] components. *)
Theorem SpliceList_structure (identifier : string) (exons : list (Z * Z)) :
  (1 ≤ length exons)%nat →
  Forall (λ exon, exon.1 ≤ exon.2) exons →
  pairwise_disjoint exons →
  (∃ sl, SpliceList.__init__ identifier exons false false = Ok sl ∧
         length (SpliceList.components sl) = (3 * length exons - 2)%nat ∧
         length (SpliceList.regions sl) = length exons ∧
         is_Region (head (SpliceList.components sl)) ∧
         is_Region (last (SpliceList.components sl))) ∧
  (∃ sl, SpliceList.__init__ identifier exons true true = Ok sl ∧
         length (SpliceList.components sl) = (3 * length exons)%nat).
Proof.
  intros Hn Hwf Hd.
  pose proof (no_overlap_sorted _ Hwf Hd) as Hno.
  assert (sorted fst exons ≠ []) as Hne.
  { intros ->%sorted_nil_inv. simpl in Hn. lia. }
  destruct (components_shape _ Hne) as (e1 & en & M & _ & _ & Hc & HhM & HlM).
  pose proof (length_exon_components (sorted fst exons)) as Hlen.
  rewrite sorted_length, Hc in Hlen. simpl in Hlen. rewrite length_app in Hlen.
  simpl in Hlen.
  pose proof (regions_exon_components (sorted fst exons)) as Hreg.
  apply (f_equal length) in Hreg.
  rewrite length_fmap, sorted_length, Hc in Hreg. simpl in Hreg.
  rewrite omap_app in Hreg. simpl in Hreg. rewrite app_nil_r in Hreg.
  split.
  - eexists. split; [by apply init_shape|]. simpl. rewrite app_nil_r.
    unfold SpliceList.regions. simpl.
    repeat split; [lia|done..].
  - eexists. split; [by apply init_shape|]. simpl.
    rewrite length_app. simpl. lia.
Qed.

Lemma SpliceList_structure_witness :
  ∃ sl, SpliceList.__init__ "TEST_SPLICE_VARIANT"
          [(412, 532); (1, 2); (9999999999999998, 9999999999999999)]
          false false = Ok sl ∧
        length (SpliceList.components sl) = 7%nat.
Proof.
  destruct (SpliceList_structure "TEST_SPLICE_VARIANT"
              [(412, 532); (1, 2); (9999999999999998, 9999999999999999)])
    as [(sl & Hsl & Hlen & _) _].
  - simpl. lia.
  - repeat constructor; simpl; lia.
  - intros [|[|[|i]]] [|[|[|j]]] a b Hij Ha Hb; simplify_eq/=; lia.
  - exists sl. split; [exact Hsl | exact Hlen].
Defined.

(** C7. Construction raises [OverlappingExonsError] exactly when, after the
    sort by start, some exon reaches the start of the next one; otherwise
    it returns a SpliceList, for every non-empty exon list and, with the
    default flags, for the empty one too. *)
Theorem overlap_rejection (identifier : string) (exons : list (Z * Z))
    (set_left_junction set_right_junction : bool) :
  (adjacent_overlap (sorted fst exons) →
   SpliceList.__init__ identifier exons set_left_junction set_right_junction
     = Raise OverlappingExonsError) ∧
  (¬ adjacent_overlap (sorted fst exons) →
   SpliceList.__init__ identifier exons set_left_junction set_right_junction
     ≠ Raise OverlappingExonsError ∧
   (exons ≠ [] ∨ (set_left_junction = false ∧ set_right_junction = false) →
    ∃ sl, SpliceList.__init__ identifier exons
            set_left_junction set_right_junction = Ok sl)).
Proof.
  split.
  - intros Hov. unfold SpliceList.__init__.
    destruct (check_overlap_spec (sorted fst exons)) as [[_ Hno]|[-> _]]; done.
  - intros Hno.
    destruct (decide (exons = [])) as [->|Hne].
    + split.
      * by destruct set_left_junction, set_right_junction.
      * intros [?|[-> ->]]; [done|]. by eexists.
    + assert (sorted fst exons ≠ []) as Hne' by (by intros ?%sorted_nil_inv).
      destruct (components_shape _ Hne') as (e1 & en & M & _ & _ & Hc & _).
      rewrite (init_shape _ _ _ _ _ _ _ Hno Hc). split; [done|]. by eexists.
Qed.

Lemma overlap_rejection_witness :
  SpliceList.__init__ "TEST_SPLICE_VARIANT" [(200, 300); (100, 250)] false false
    = Raise OverlappingExonsError ∧
  ∃ sl, SpliceList.__init__ "TEST_SPLICE_VARIANT" [(412, 532); (1, 2)] false false
          = Ok sl.
Proof.
  split.
  - apply (overlap_rejection "TEST_SPLICE_VARIANT" [(200, 300); (100, 250)]).
    exists 0%nat, (100, 250), (200, 300). simpl. repeat split; lia.
  - apply (overlap_rejection "TEST_SPLICE_VARIANT" [(412, 532); (1, 2)]).
    + intros ([|[|i]] & a & b & Ha & Hb & Hab); simplify_eq/=; lia.
    + left. discriminate.
Defined.

(** ** CIGAR interpretation *)

(** *** Which exceptions the helpers raise *)

Lemma index_Raise {A} (l : list A) i e : index l i = Raise e → e = IndexError.
Proof. unfold index. destruct (l !! i); congruence. Qed.

Lemma int_Raise s e : int s = Raise e → e = ValueError.
Proof.
  unfold int.
  destruct (match rstrip_int (lstrip_int s) with
            | String "-"%char s' => Z.opp <$> int_digits 0 false s'
            | String "+"%char s' => int_digits 0 false s'
            | s' => int_digits 0 false s'
            end); congruence.
Qed.

Lemma expand_loop_Raise cigar expanded n e :
  Segment.expand_loop cigar expanded n = Raise e → e = TypeError ∨ e = ValueError.
Proof.
  revert expanded n. induction cigar as [|c cigar IH]; intros expanded n; simpl; [done|].
  destruct (isnumeric c).
  - destruct n; apply IH.
  - destruct n as [n|]; [|intros [= <-]; by left].
    destruct (int n) as [k|e'] eqn:Hk; simpl.
    + apply IH.
    + intros [= <-]. right. by eapply int_Raise.
Qed.

Lemma expand_cigar_Raise cigar e :
  Segment._expand_cigar cigar = Raise e →
  e = NoMappingError ∨ e = TypeError ∨ e = ValueError.
Proof.
  unfold Segment._expand_cigar. case_bool_decide.
  - intros [= <-]. by left.
  - intros ?%expand_loop_Raise. by right.
Qed.

(** *** The run-length encoding *)

Lemma encode_step_positive buffer o :
  positive_runs buffer → positive_runs (Segment.encode_step buffer o).
Proof.
  unfold positive_runs, Segment.encode_step. intros Hpos.
  destruct (last buffer) as [[k o' m]|] eqn:Hlast.
  - apply last_Some in Hlast as [buffer' ->].
    rewrite Forall_app, Forall_singleton in Hpos. destruct Hpos as [Hpos Hm].
    simpl in Hm. case_bool_decide.
    + rewrite removelast_last. apply Forall_app. split; [done|].
      apply Forall_singleton. simpl. lia.
    + rewrite !Forall_app, !Forall_singleton. simpl. repeat split; [done|lia|lia].
  - apply Forall_app. split; [done|]. by apply Forall_singleton.
Qed.

Lemma run_length_encode_positive cigar_v :
  positive_runs (Segment.run_length_encode cigar_v).
Proof.
  unfold Segment.run_length_encode.
  assert (positive_runs []) as Hnil by constructor.
  revert Hnil. generalize (@nil Segment.run).
  induction cigar_v as [|o cigar_v IH]; intros buffer Hpos; simpl; [done|].
  by apply IH, encode_step_positive.
Qed.

Lemma absorb_skip_positive skip_tolerance buffer :
  positive_runs buffer → positive_runs (Segment.absorb_skip skip_tolerance <$> buffer).
Proof.
  unfold positive_runs. intros Hpos. apply Forall_fmap.
  eapply Forall_impl; [done|]. intros [k o n] Hn. unfold Segment.absorb_skip.
  simpl. by destruct (negb o && bool_decide (n ≤ skip_tolerance)).
Qed.

(** *** The merge of adjacent runs *)

Lemma merge_loop_from acc cur rest :
  foldl Segment.merge_step (Ok (acc ++ [cur])) rest
    = (acc ++.) <$> merge_from cur rest.
Proof.
  revert acc cur. induction rest as [|p rest IH]; intros acc cur; simpl; [done|].
  rewrite last_snoc. case_bool_decide as Hop.
  - unfold Segment.add_to_last. rewrite last_snoc.
    destruct cur as [[] o m]; simpl.
    + rewrite removelast_last. apply IH.
    + clear. induction rest as [|? ? IH]; simpl; [done|]. apply IH.
  - rewrite <-(app_assoc acc [cur] [p]), (app_assoc acc [cur] [p]), IH.
    destruct (merge_from p rest); simpl; [|done].
    by rewrite <-app_assoc.
Qed.

Lemma merge_adjacent_from buffer :
  Segment.merge_adjacent buffer =
    match buffer with
    | [] => Ok []
    | p :: rest => merge_from p rest
    end.
Proof.
  unfold Segment.merge_adjacent. destruct buffer as [|p rest]; [done|].
  change (foldl Segment.merge_step (Ok ([] ++ [p])) rest = merge_from p rest).
  rewrite merge_loop_from. by destruct (merge_from p rest).
Qed.

Lemma merge_from_Raise cur rest e : merge_from cur rest = Raise e → e = TypeError.
Proof.
  revert cur. induction rest as [|p rest IH]; intros cur; simpl; [done|].
  case_bool_decide.
  - destruct (Segment.kind cur); [apply IH|congruence].
  - destruct (merge_from p rest) eqn:E; simpl; [done|].
    intros [= <-]. by eapply IH.
Qed.

Lemma merge_from_spec cur rest buffer2 :
  1 ≤ Segment.occurences cur → positive_runs rest →
  merge_from cur rest = Ok buffer2 →
  positive_runs buffer2 ∧ alternating buffer2 ∧
  ∃ first tl, buffer2 = first :: tl ∧ Segment.op first = Segment.op cur.
Proof.
  revert cur buffer2. induction rest as [|p rest IH]; intros cur buffer2 Hcur Hpos; simpl.
  - intros [= <-]. split; [by repeat constructor|]. split; [by repeat constructor|].
    by eexists _, _.
  - apply Forall_cons in Hpos as [Hp Hpos]. case_bool_decide as Hop.
    + destruct (Segment.kind cur); [|done]. intros Hm.
      apply IH in Hm; [done| simpl; lia | done].
    + destruct (merge_from p rest) as [b|] eqn:E; simpl; [|done].
      intros [= <-].
      destruct (IH p b Hp Hpos E) as (Hb & Halt & first & tl & -> & Hfirst).
      split; [by constructor|]. split; [|by eexists _, _].
      constructor; [done|]. constructor. congruence.
Qed.

(** *** From runs to regions *)

Lemma to_regions_lower position buffer :
  positive_runs buffer →
  Forall (λ region, position ≤ region.1 ∧ region.1 ≤ region.2)
         (Segment.to_regions position buffer).
Proof.
  revert position. induction buffer as [|[k o n] buffer IH]; intros position Hpos; simpl.
  { constructor. }
  apply Forall_cons in Hpos as [Hn Hpos]. simpl in Hn.
  specialize (IH (position + n) Hpos).
  assert (Forall (λ region : Z * Z, position ≤ region.1 ∧ region.1 ≤ region.2)
            (Segment.to_regions (position + n) buffer)) as IH'.
  { eapply Forall_impl; [done|]. simpl. lia. }
  destruct o; [|done]. constructor; [simpl; lia|done].
Qed.

Lemma to_regions_gaps position buffer :
  positive_runs buffer → alternating buffer →
  Sorted region_gap (Segment.to_regions position buffer).
Proof.
  revert position. induction buffer as [|[k o n] buffer IH]; intros position Hpos Halt; simpl.
  { constructor. }
  apply Forall_cons in Hpos as [Hn Hpos]. simpl in Hn.
  apply Sorted_inv in Halt as [Halt Hhd].
  destruct o; [|by apply IH].
  constructor; [by apply IH|].
  destruct buffer as [|[k' o' n'] buffer]; simpl; [constructor|].
  apply HdRel_inv in Hhd. simpl in Hhd. destruct o'; [done|].
  apply Forall_cons in Hpos as [Hn' Hpos]. simpl in Hn'.
  pose proof (to_regions_lower (position + n + n') buffer Hpos) as Hlow.
  destruct Hlow as [|region regions [Hlo Hwf] _]; constructor.
  unfold region_gap. simpl. lia.
Qed.

#[local] Instance region_gap_trans : Transitive region_gap.
Proof. unfold region_gap. intros a b c. lia. Qed.

Lemma StronglySorted_filter {A} (R : relation A) (P : A → Prop)
    `{∀ x, Decision (P x)} l :
  StronglySorted R l → StronglySorted R (filter P l).
Proof.
  induction 1 as [|x l Hs IH Hx]; [constructor|].
  rewrite filter_cons. case_decide; [|done].
  constructor; [done|]. rewrite Forall_forall in Hx |- *.
  intros y [_ Hy]%list_elem_of_filter. by apply Hx.
Qed.

Lemma Sorted_gap_filter (P : Z * Z → Prop) `{∀ x, Decision (P x)} regions :
  Sorted region_gap regions → Sorted region_gap (filter P regions).
Proof.
  intros Hs. apply StronglySorted_Sorted, StronglySorted_filter.
  by apply Sorted_StronglySorted; [apply _|].
Qed.

Lemma Sorted_weaken {A} (R1 R2 : relation A) l :
  (∀ a b, R1 a b → R2 a b) → Sorted R1 l → Sorted R2 l.
Proof.
  intros HR. induction 1 as [|x xs Hs IH Hhd]; constructor; [done|].
  destruct Hhd; constructor; auto.
Qed.

Lemma Sorted_lookup_rel {A} (R : relation A) l i a b :
  Sorted R l → l !! i = Some a → l !! S i = Some b → R a b.
Proof.
  intros Hs. revert i. induction Hs as [|x xs Hs IH Hhd]; intros i Ha Hb; [done|].
  destruct i as [|i]; simpl in *; [|by eauto].
  simplify_eq. destruct Hhd; by simplify_eq/=.
Qed.

(** The regions that [_get_region_list] returns. *)
Lemma get_region_list_gaps sam st mt regions flags :
  Segment._get_region_list sam st mt = Ok (regions, flags) →
  Sorted region_gap regions.
Proof.
  unfold Segment._get_region_list. intros Hget.
  destruct (index (split tab sam) 3) as [pos_field|]; [simpl in Hget|done].
  destruct (int pos_field) as [position|]; [simpl in Hget|done].
  destruct (index (split tab sam) 5) as [cigar|]; [simpl in Hget|done].
  destruct (Segment._expand_cigar cigar) as [cigar_v|]; [simpl in Hget|done].
  rewrite merge_adjacent_from in Hget.
  match type of Hget with
  | context [Segment.absorb_skip st <$> ?b] =>
      pose proof (absorb_skip_positive st b (run_length_encode_positive _)) as Hpos;
      destruct (Segment.absorb_skip st <$> b) as [|p rest]
  end; simpl in Hget.
  - injection Hget as <- _. constructor.
  - apply Forall_cons in Hpos as [Hp Hrest].
    destruct (merge_from p rest) as [buffer2|] eqn:Hm; [simpl in Hget|done].
    injection Hget as <- _.
    destruct (merge_from_spec _ _ _ Hp Hrest Hm) as (Hpos2 & Halt & _).
    apply Sorted_gap_filter. by apply to_regions_gaps.
Qed.

Lemma get_region_list_Raise sam st mt e :
  Segment._get_region_list sam st mt = Raise e → e ≠ OverlappingExonsError.
Proof.
  unfold Segment._get_region_list. intros Hget.
  destruct (index (split tab sam) 3) as [pos_field|] eqn:E1; simpl in Hget;
    [|injection Hget as <-; by apply index_Raise in E1 as ->].
  destruct (int pos_field) as [position|] eqn:E2; simpl in Hget;
    [|injection Hget as <-; by apply int_Raise in E2 as ->].
  destruct (index (split tab sam) 5) as [cigar|] eqn:E3; simpl in Hget;
    [|injection Hget as <-; by apply index_Raise in E3 as ->].
  destruct (Segment._expand_cigar cigar) as [cigar_v|] eqn:E4; simpl in Hget;
    [|injection Hget as <-; by apply expand_cigar_Raise in E4 as [->|[->| ->]]].
  rewrite merge_adjacent_from in Hget.
  match type of Hget with
  | context [Segment.absorb_skip st <$> ?b] =>
      destruct (Segment.absorb_skip st <$> b) as [|p rest]
  end; simpl in Hget; [done|].
  destruct (merge_from p rest) as [buffer2|] eqn:Hm; simpl in Hget; [done|].
  injection Hget as <-. by apply merge_from_Raise in Hm as ->.
Qed.

Lemma gaps_no_overlap regions :
  Sorted region_gap regions → ¬ adjacent_overlap (sorted fst regions).
Proof.
  intros Hs. rewrite sorted_id.
  - intros (i & a & b & Ha & Hb & Hab).
    pose proof (Sorted_lookup_rel _ _ _ _ _ Hs Ha Hb) as Hgap.
    unfold region_gap in Hgap. lia.
  - eapply Sorted_weaken; [|done]. unfold region_gap. intros a b. simpl. lia.
Qed.

Lemma init_not_overlapping id exons l r :
  ¬ adjacent_overlap (sorted fst exons) →
  SpliceList.__init__ id exons l r ≠ Raise OverlappingExonsError.
Proof.
  intros Hno. unfold SpliceList.__init__.
  destruct (check_overlap_spec (sorted fst exons)) as [[-> _]|[_ ?]]; [|done].
  cbn [mbind result_bind].
  generalize (sorted fst exons ≫= SpliceList.exon_components). intros cs.
  destruct l; [destruct cs as [|c cs]|]; destruct r;
    unfold SpliceList.mark_first, SpliceList.mark_last;
    cbn [mbind result_bind]; try discriminate;
    by destruct (last _).
Qed.

(** C10. Consecutive regions returned by [_get_region_list] leave a gap of
    at least two positions, and building the segment's SpliceList never
    raises [OverlappingExonsError]. *)
Theorem region_list_gaps (sam : string) (skip_tolerance map_tolerance : Z)
    (regions : list (Z * Z)) (flags : bool * bool) :
  Segment._get_region_list sam skip_tolerance map_tolerance = Ok (regions, flags) →
  (∀ (i : nat) (prev next : Z * Z),
     regions !! i = Some prev → regions !! S i = Some next →
     prev.2 + 1 < next.1) ∧
  SpliceList.__init__ (Grouping._get_qname sam) regions flags.1 flags.2
    ≠ Raise OverlappingExonsError ∧
  Segment.__init__ sam skip_tolerance map_tolerance ≠ Raise OverlappingExonsError.
Proof.
  intros Hget. pose proof (get_region_list_gaps _ _ _ _ _ Hget) as Hs.
  split; [|split].
  - intros i prev next Hprev Hnext.
    by destruct (Sorted_lookup_rel _ _ _ _ _ Hs Hprev Hnext) as (_ & ? & _).
  - by apply init_not_overlapping, gaps_no_overlap.
  - unfold Segment.__init__. rewrite Hget. cbn [mbind result_bind].
    case_bool_decide; [done|].
    destruct (index (split tab sam) 0) as [qname|e] eqn:Hq; cbn [mbind result_bind].
    + pose proof (init_not_overlapping qname regions flags.1 flags.2
                    (gaps_no_overlap _ Hs)) as Hinit.
      destruct (SpliceList.__init__ qname regions flags.1 flags.2);
        cbn [mbind result_bind]; congruence.
    + by apply index_Raise in Hq as ->.
Qed.

Lemma region_list_gaps_witness :
  Segment._get_region_list spliced_line 20 10
    = Ok ([(100, 109); (140, 149)], (false, false)) ∧
  109 + 1 < 140 ∧
  Segment.__init__ spliced_line 20 10 ≠ Raise OverlappingExonsError.
Proof.
  assert (Segment._get_region_list spliced_line 20 10
            = Ok ([(100, 109); (140, 149)], (false, false))) as Hget
    by (by vm_compute).
  destruct (region_list_gaps _ _ _ _ _ Hget) as (Hgap & _ & Hseg).
  split; [exact Hget|]. split; [|exact Hseg].
  exact (Hgap 0%nat (100, 109) (140, 149) eq_refl eq_refl).
Defined.

(** *** The worked example *)

(** C8. ["3M1I2D4M"] expands to ["MMMIDDMMMM"]; a line with this CIGAR and
    POS 100 has the one region [(100, 108)] under skip tolerance 2 and map
    tolerance 0. *)
Theorem cigar_example :
  Segment._expand_cigar "3M1I2D4M" = Ok "MMMIDDMMMM"%string ∧
  ∀ (sam pos_field : string),
    split tab sam !! 3%nat = Some pos_field →
    int pos_field = Ok 100 →
    split tab sam !! 5%nat = Some "3M1I2D4M"%string →
    Segment._get_region_list sam 2 0 = Ok ([(100, 108)], (false, false)).
Proof.
  split; [by vm_compute|].
  intros sam pos_field Hpos Hint Hcigar.
  unfold Segment._get_region_list, index. rewrite Hpos, Hcigar.
  cbn [mbind result_bind]. rewrite Hint. by vm_compute.
Qed.

Lemma cigar_example_witness :
  Segment._get_region_list
    (join_tab ["r1"; "0"; "chrX"; "100"; "60"; "3M1I2D4M"; "*"; "0"; "0";
               "ACGTACGTAC"; "*"]%string) 2 0
  = Ok ([(100, 108)], (false, false)).
Proof.
  apply (proj2 cigar_example _ "100"%string); by vm_compute.
Defined.

(** *** Soft clips at the ends *)

Lemma append_cons c (s1 s2 : string) : String c s1 +:+ s2 = String c (s1 +:+ s2).
Proof. done. Qed.

Lemma append_nil_r (s : string) : s +:+ "" = s.
Proof. induction s as [|c s IH]; [done|]. by rewrite append_cons, IH. Qed.

Lemma append_assoc (s1 s2 s3 : string) : (s1 +:+ s2) +:+ s3 = s1 +:+ s2 +:+ s3.
Proof. induction s1 as [|c s1 IH]; [done|]. by rewrite !append_cons, IH. Qed.

Lemma list_ascii_of_append (s1 s2 : string) :
  String.list_ascii_of_string (s1 +:+ s2)
    = String.list_ascii_of_string s1 ++ String.list_ascii_of_string s2.
Proof.
  induction s1 as [|c s1 IH]; [done|]. rewrite append_cons. simpl. by rewrite IH.
Qed.

Lemma expand_loop_prefix cigar expanded n e :
  Segment.expand_loop cigar expanded n = Ok e → ∃ t, e = expanded +:+ t.
Proof.
  revert expanded n. induction cigar as [|c cigar IH]; intros expanded n; simpl.
  - intros [= <-]. exists ""%string. by rewrite append_nil_r.
  - destruct (isnumeric c).
    + destruct n; apply IH.
    + destruct n as [n|]; [|done].
      destruct (int n) as [k|]; simpl; [|done].
      intros [t ->]%IH. eexists. apply append_assoc.
Qed.

Lemma leading_run_replicate c n rest :
  Segment.leading_run c (replicate n c ++ rest)
    = replicate n c ++ Segment.leading_run c rest.
Proof. induction n as [|n IH]; simpl; [done|]. by rewrite Ascii.eqb_refl, IH. Qed.

Lemma leading_run_spec c s :
  ∃ rest, s = Segment.leading_run c s ++ rest ∧
          Segment.leading_run c s = replicate (length (Segment.leading_run c s)) c.
Proof.
  induction s as [|x s (rest & Hs & Hrun)]; simpl.
  - by exists [].
  - destruct (Ascii.eqb_spec x c) as [->|]; simpl.
    + exists rest. split; congruence.
    + by eexists.
Qed.


Lemma left_flag_iff ops st : left_flag ops st = true ↔ begins_with_S_run ops st.
Proof.
  unfold left_flag, Segment.re_match_leading_S, begins_with_S_run. split.
  - destruct (leading_run_spec "S" ops) as (rest & Hops & Hrun).
    destruct (Segment.leading_run "S" ops) as [|x g] eqn:Hg; [done|].
    intros Hlen%bool_decide_eq_true.
    exists (length (x :: g)), rest. rewrite <-Hrun. simpl in *. split; [done|lia].
  - intros (n & rest & -> & Hn & Hst). rewrite leading_run_replicate.
    destruct n as [|n]; [lia|]. simpl. apply bool_decide_eq_true.
    rewrite length_app, length_replicate. lia.
Qed.

Lemma right_flag_iff ops st : right_flag ops st = true ↔ ends_with_S_run ops st.
Proof.
  unfold right_flag, Segment.re_search_trailing_S.
  change (left_flag (reverse ops) st = true ↔ ends_with_S_run ops st).
  rewrite left_flag_iff. unfold begins_with_S_run, ends_with_S_run.
  split; intros (n & rest & Hops & Hn); exists n, (reverse rest); split; try done.
  - by rewrite <-(reverse_involutive ops), Hops, reverse_app, reverse_replicate.
  - by rewrite Hops, reverse_app, reverse_replicate.
Qed.

Lemma get_region_list_flags sam st mt regions l r :
  Segment._get_region_list sam st mt = Ok (regions, (l, r)) →
  ∃ cigar expanded,
    split tab sam !! 5%nat = Some cigar ∧
    Segment._expand_cigar cigar = Ok expanded ∧
    l = left_flag (Segment.restrict_ops expanded) st ∧
    r = right_flag (Segment.restrict_ops expanded) st.
Proof.
  unfold Segment._get_region_list, index. intros Hget.
  destruct (split tab sam !! 3%nat) as [pos_field|]; [simpl in Hget|done].
  destruct (int pos_field) as [position|]; [simpl in Hget|done].
  destruct (split tab sam !! 5%nat) as [cigar|] eqn:Hc; [simpl in Hget|done].
  destruct (Segment._expand_cigar cigar) as [cigar_v|] eqn:He; [simpl in Hget|done].
  destruct (Segment.merge_adjacent _); [simpl in Hget|done].
  injection Hget as _ <- <-. by exists cigar, cigar_v.
Qed.

Lemma restrict_ops_append s1 s2 :
  Segment.restrict_ops (s1 +:+ s2)
    = Segment.restrict_ops s1 ++ Segment.restrict_ops s2.
Proof. unfold Segment.restrict_ops. by rewrite list_ascii_of_append, filter_app. Qed.

(** The first component of a SpliceList built with the left junction set. *)
Lemma init_left_junction id exons r sl :
  exons ≠ [] →
  SpliceList.__init__ id exons true r = Ok sl →
  ∃ (exon : Z * Z) cs,
    head (sorted fst exons) = Some exon ∧
    SpliceList.components sl
      = CJunction (Junction.Build exon.1 TYPE_START None true) :: cs.
Proof.
  intros Hne Hinit.
  assert (sorted fst exons ≠ []) as Hne' by (by intros ?%sorted_nil_inv).
  destruct (components_shape _ Hne') as (e1 & en & M & He1 & _ & Hc & _).
  destruct (check_overlap_spec (sorted fst exons)) as [[_ Hno]|[Hov _]].
  - rewrite (init_shape _ _ _ _ _ _ _ Hno Hc) in Hinit.
    injection Hinit as <-. by eexists e1, _.
  - unfold SpliceList.__init__ in Hinit. by rewrite Hov in Hinit.
Qed.

(** [restrict_ops] keeps the ops that the specification names. *)
Lemma restrict_ops_spec expanded :
  Segment.restrict_ops expanded = ops_in_MDNEXS expanded.
Proof. done. Qed.

(** C9. The left (right) flag of [_get_region_list] is set exactly when the
    ops of the expanded CIGAR that are one of [M], [D], [N], [=], [X], [S]
    begin (end) with a run of [S] longer than the skip tolerance; a CIGAR
    that begins with [25S] sets the left flag under skip tolerance 20, and
    the segment's SpliceList then begins with a start junction. *)
Theorem soft_clip_junctions (sam : string) (map_tolerance : Z) :
  (∀ skip_tolerance regions l r,
     Segment._get_region_list sam skip_tolerance map_tolerance
       = Ok (regions, (l, r)) →
     ∃ cigar expanded,
       split tab sam !! 5%nat = Some cigar ∧
       Segment._expand_cigar cigar = Ok expanded ∧
       (l = true ↔ begins_with_S_run (ops_in_MDNEXS expanded) skip_tolerance) ∧
       (r = true ↔ ends_with_S_run (ops_in_MDNEXS expanded) skip_tolerance)) ∧
  (∀ rest_of_cigar,
     split tab sam !! 5%nat = Some ("25S" +:+ rest_of_cigar) →
     (∀ regions l r,
        Segment._get_region_list sam 20 map_tolerance = Ok (regions, (l, r)) →
        l = true) ∧
     (∀ segment,
        Segment.__init__ sam 20 map_tolerance = Ok segment →
        ∃ position cs,
          SpliceList.components (Segment.splice_list segment)
            = CJunction (Junction.Build position TYPE_START None true) :: cs)).
Proof.
  split.
  - intros st regions l r Hget.
    destruct (get_region_list_flags _ _ _ _ _ _ Hget) as (cigar & expanded & ? & ? & -> & ->).
    exists cigar, expanded. split; [done|]. split; [done|].
    rewrite left_flag_iff, right_flag_iff. by rewrite restrict_ops_spec.
  - intros rest Hcigar.
    assert (∀ regions l r,
      Segment._get_region_list sam 20 map_tolerance = Ok (regions, (l, r)) →
      l = true) as Hleft.
    { intros regions l r Hget.
      destruct (get_region_list_flags _ _ _ _ _ _ Hget)
        as (cigar & expanded & Hc & Hexp & -> & _).
      rewrite Hcigar in Hc. injection Hc as <-.
      unfold Segment._expand_cigar in Hexp. case_bool_decide; [done|].
      change (Segment.expand_loop rest (repeat_char "S" 25) None = Ok expanded) in Hexp.
      apply expand_loop_prefix in Hexp as [t ->].
      apply left_flag_iff. rewrite restrict_ops_append.
      exists 25%nat, (Segment.restrict_ops t). split; [done|lia]. }
    split; [done|].
    intros segment Hseg. unfold Segment.__init__ in Hseg.
    destruct (Segment._get_region_list sam 20 map_tolerance)
      as [[regions [l r]]|] eqn:Hget; [|done].
    rewrite (Hleft _ _ _ eq_refl) in *. cbn [mbind result_bind] in Hseg.
    case_bool_decide; [done|].
    destruct (index (split tab sam) 0) as [qname|]; [|done].
    cbn [mbind result_bind fst snd] in Hseg.
    destruct (SpliceList.__init__ qname regions true r) as [sl|] eqn:Hinit; [|done].
    injection Hseg as <-.
    destruct (init_left_junction _ _ _ _ H Hinit) as (exon & cs & _ & Hcs).
    by exists exon.1, cs.
Qed.

Lemma soft_clip_junctions_witness :
  (∃ cigar expanded,
     split tab (line_with_cigar "25H25S50M") !! 5%nat = Some cigar ∧
     Segment._expand_cigar cigar = Ok expanded ∧
     begins_with_S_run (ops_in_MDNEXS expanded) 20 ∧
     ¬ ends_with_S_run (ops_in_MDNEXS expanded) 20) ∧
  ∃ segment position cs,
    Segment.__init__ clip_line 20 10 = Ok segment ∧
    SpliceList.components (Segment.splice_list segment)
      = CJunction (Junction.Build position TYPE_START None true) :: cs.
Proof.
  split.
  - assert (Segment._get_region_list (line_with_cigar "25H25S50M") 20 10
            = Ok ([(100, 149)], (true, false))) as Hget by (by vm_compute).
    destruct (proj1 (soft_clip_junctions (line_with_cigar "25H25S50M") 10) _ _ _ _ Hget)
      as (cigar & expanded & Hcigar & Hexpanded & Hleft & Hright).
    exists cigar, expanded. split; [exact Hcigar|]. split; [exact Hexpanded|].
    split; [by apply Hleft|]. by intros ?%Hright.
  - assert (∃ segment, Segment.__init__ clip_line 20 10 = Ok segment)
      as [segment Hseg] by (vm_compute; by eexists).
    assert (split tab clip_line !! 5%nat = Some ("25S" +:+ "50M")%string)
      as Hcigar by (by vm_compute).
    destruct (proj2 (soft_clip_junctions clip_line 10) _ Hcigar) as [_ Hjunction].
    destruct (Hjunction segment Hseg) as (position & cs & Hcs).
    exists segment, position, cs. split; [exact Hseg | exact Hcs].
Defined.

(** ** [SpliceList.contains] *)

Section contains_facts.
Variable set_iter : gset Z → list Z.

Lemma overhangs_within_mono tol overhangs distance last_position :
  SpliceList.overhangs_within tol overhangs distance last_position = true →
  SpliceList.overhangs_within (tol + 1) overhangs distance last_position = true.
Proof.
  revert distance last_position.
  induction overhangs as [|pos rest IH]; intros distance last_position; simpl; [done|].
  repeat case_bool_decide; try done; try lia; apply IH.
Qed.

Lemma in_check_range_mono tol j this_j :
  SpliceList.in_check_range tol j this_j = true →
  SpliceList.in_check_range (tol + 1) j this_j = true.
Proof.
  unfold SpliceList.in_check_range.
  rewrite !andb_true_iff, !bool_decide_eq_true.
  intros [Htype Hrange]. split; [done|lia].
Qed.

Lemma in_check_range_refl tol j :
  0 ≤ tol → SpliceList.in_check_range tol j j = true.
Proof.
  intros Htol. unfold SpliceList.in_check_range.
  rewrite andb_true_iff, !bool_decide_eq_true. split; [done|lia].
Qed.

(** Without a complement on [j] the inner loop leaves [match_order]
    alone. *)
Lemma scan_this_no_complement tol j i this_junctions has_match match_order :
  Junction.complement j = None →
  SpliceList.scan_this tol j i this_junctions has_match match_order
    = (has_match || existsb (SpliceList.in_check_range tol j) this_junctions,
       match_order).
Proof.
  intros Hj. revert i has_match.
  induction this_junctions as [|this_j rest IH]; intros i has_match; simpl.
  - by rewrite orb_false_r.
  - rewrite Hj. destruct (SpliceList.in_check_range tol j this_j); simpl.
    + rewrite IH. by rewrite orb_true_r.
    + apply IH.
Qed.

Lemma scan_other_no_complement tol this_junctions other_junctions match_order :
  no_complement other_junctions →
  SpliceList.scan_other tol this_junctions other_junctions match_order
    = if all_matched tol this_junctions other_junctions
      then Some match_order else None.
Proof.
  induction 1 as [|j rest Hj Hrest IH]; simpl; [done|].
  rewrite (scan_this_no_complement _ _ _ _ _ _ Hj). simpl.
  destruct (existsb _ this_junctions); simpl; [apply IH|done].
Qed.

Lemma all_matched_mono tol this_junctions other_junctions :
  all_matched tol this_junctions other_junctions = true →
  all_matched (tol + 1) this_junctions other_junctions = true.
Proof.
  unfold all_matched. rewrite !forallb_forall. intros Hall j Hj.
  specialize (Hall j Hj). rewrite existsb_exists in Hall |- *.
  destruct Hall as (this_j & ? & ?). exists this_j.
  split; [done|]. by apply in_check_range_mono.
Qed.

Lemma all_matched_refl tol junctions :
  0 ≤ tol → all_matched tol junctions junctions = true.
Proof.
  intros Htol. unfold all_matched. apply forallb_forall. intros j Hj.
  apply existsb_exists. exists j. split; [done|]. by apply in_check_range_refl.
Qed.

(** [contains] when the queried list has no complemented junction. *)
Lemma contains_no_complement self other_sl tol :
  no_complement (SpliceList.junctions other_sl) →
  SpliceList.contains set_iter self other_sl tol =
    other_regions ← SpliceList.positions (SpliceList.regions other_sl);
    this_regions ← SpliceList.positions (SpliceList.regions self);
    Ok (SpliceList.overhangs_within tol
          (set_iter (other_regions ∖ this_regions)) 0 (-1)
        && all_matched tol (SpliceList.junctions self)
             (SpliceList.junctions other_sl)).
Proof.
  intros Hno. unfold SpliceList.contains.
  destruct (SpliceList.positions (SpliceList.regions other_sl)) as [X|]; [|done].
  destruct (SpliceList.positions (SpliceList.regions self)) as [Y|]; [|done].
  cbn [mbind result_bind]. rewrite (scan_other_no_complement _ _ _ _ Hno).
  destruct (SpliceList.overhangs_within tol _ 0 (-1)); [|done].
  by destruct (all_matched tol _ _).
Qed.

Hypothesis set_iter_perm : ∀ X, set_iter X ≡ₚ elements X.

Lemma set_iter_empty : set_iter ∅ = [].
Proof.
  apply Permutation_nil_r. rewrite set_iter_perm. by rewrite elements_empty.
Qed.

(** Nothing of a SpliceList overhangs itself. *)
Lemma contains_self_regions self tol :
  SpliceList.regions self ≠ [] →
  ∃ X, SpliceList.positions (SpliceList.regions self) = Ok X ∧
       SpliceList.overhangs_within tol (set_iter (X ∖ X)) 0 (-1) = true.
Proof.
  intros Hne. unfold SpliceList.positions.
  destruct (SpliceList.regions self) as [|r rs]; [done|].
  eexists. split; [done|].
  by rewrite (difference_diag_L (C:=gset Z)), set_iter_empty.
Qed.

(** Self-containment is decided by the junctions alone. *)
Lemma contains_self self tol :
  SpliceList.regions self ≠ [] →
  SpliceList.contains set_iter self self tol =
    match SpliceList.scan_other tol (SpliceList.junctions self)
            (SpliceList.junctions self) [] with
    | None => Ok false
    | Some match_order => Ok (SpliceList.complements_adjacent match_order)
    end.
Proof.
  intros Hne. unfold SpliceList.contains.
  destruct (contains_self_regions self tol Hne) as (X & -> & Hr).
  cbn [mbind result_bind]. by rewrite Hr.
Qed.
End contains_facts.

(** C2 (amended). When no junction of [o] has a complement, containment is
    monotone in the tolerance. *)
Theorem contains_monotone (set_iter : gset Z → list Z)
    (s o : SpliceList.t) (k : Z) :
  no_complement (SpliceList.junctions o) →
  SpliceList.contains set_iter s o k = Ok true →
  SpliceList.contains set_iter s o (k + 1) = Ok true.
Proof.
  intros Hno. rewrite !contains_no_complement by done.
  destruct (SpliceList.positions (SpliceList.regions o)) as [X|]; [|done].
  destruct (SpliceList.positions (SpliceList.regions s)) as [Y|]; [|done].
  cbn [mbind result_bind]. intros [= [Hr Hj]%andb_true_iff].
  by rewrite (overhangs_within_mono _ _ _ _ Hr), (all_matched_mono _ _ _ Hj).
Qed.

(** C3 (amended). A SpliceList with a region and no complemented junction
    contains itself under every tolerance [tol >= 0]. *)
Theorem contains_reflexive (set_iter : gset Z → list Z)
    (s : SpliceList.t) (tol : Z) :
  (∀ X, set_iter X ≡ₚ elements X) →
  0 ≤ tol →
  SpliceList.regions s ≠ [] →
  no_complement (SpliceList.junctions s) →
  SpliceList.contains set_iter s s tol = Ok true.
Proof.
  intros Hperm Htol Hne Hno. rewrite contains_no_complement by done.
  destruct (contains_self_regions set_iter Hperm s tol Hne) as (X & -> & Hr).
  cbn [mbind result_bind]. by rewrite Hr, all_matched_refl.
Qed.

(** The transcript of the pair [mate1], [mate2] under skip tolerance 2:
    the end of the first mate and the start of the second are wired as
    complements. *)
Lemma pair_transcript :
  second_splice_list <$> Transcript.__init__ [mate1; mate2] 2 0
    = Ok (Some mate2_splice_list).
Proof. by vm_compute. Qed.

(** Whatever the enumeration order of sets, the second mate's splice list
    contains itself under tolerance 19 and not under tolerance 20: with
    tolerance 20 its complemented start junction at 21 also matches the
    start junction at 41, two places further in the junction list. *)
Lemma mate2_contains_itself (set_iter : gset Z → list Z) :
  (∀ X, set_iter X ≡ₚ elements X) →
  SpliceList.contains set_iter mate2_splice_list mate2_splice_list 19 = Ok true ∧
  SpliceList.contains set_iter mate2_splice_list mate2_splice_list 20 = Ok false.
Proof.
  intros Hperm. rewrite !(contains_self set_iter Hperm) by done.
  by vm_compute.
Qed.

(** C2, counterexample: the transcript of the read pair gives the second
    mate a splice list that contains itself under tolerance 19 and no
    longer under tolerance 20. *)
Lemma contains_not_monotone :
  second_splice_list <$> Transcript.__init__ [mate1; mate2] 2 0
    = Ok (Some mate2_splice_list) ∧
  SpliceList.contains elements mate2_splice_list mate2_splice_list 19 = Ok true ∧
  SpliceList.contains elements mate2_splice_list mate2_splice_list (19 + 1) = Ok false.
Proof. by vm_compute. Qed.

Lemma contains_monotone_witness :
  SpliceList.contains elements
    (test_splice_list [(1, 10); (11, 20); (31, 40)])
    (test_splice_list [(2, 9); (10, 21); (30, 39)]) (1 + 1) = Ok true.
Proof.
  apply contains_monotone.
  - vm_compute. repeat constructor.
  - by vm_compute.
Defined.

(** C3, counterexample: the same splice list does not contain itself under
    tolerance 20. *)
Lemma contains_not_reflexive :
  second_splice_list <$> Transcript.__init__ [mate1; mate2] 2 0
    = Ok (Some mate2_splice_list) ∧
  SpliceList.contains elements mate2_splice_list mate2_splice_list 20 = Ok false.
Proof. by vm_compute. Qed.

(** A SpliceList without regions, as [SpliceList('', [])] builds it,
    cannot be compared at all. *)
Lemma contains_no_region (set_iter : gset Z → list Z) tol :
  ∃ sl, SpliceList.__init__ "" [] false false = Ok sl ∧
        SpliceList.contains set_iter sl sl tol = Raise TypeError.
Proof. by eexists. Qed.

Lemma contains_reflexive_witness :
  SpliceList.contains elements
    (test_splice_list [(1, 10); (11, 20); (31, 40)])
    (test_splice_list [(1, 10); (11, 20); (31, 40)]) 5 = Ok true.
Proof.
  apply contains_reflexive.
  - done.
  - lia.
  - by vm_compute.
  - vm_compute. repeat constructor.
Defined.

(** ** [Annotations] *)

Lemma triple_step_Raise e rows :
  foldl Annotations.triple_step (Raise e) rows = Raise e.
Proof. induction rows as [|t rows IH]; [done|]. apply IH. Qed.

Lemma close_variant_spec st st' :
  Annotations.close_variant st = Ok st' →
  ∃ v, variant_of (Annotations.st_current_variant st, Annotations.st_exons st) v ∧
       Annotations.st_variants st' = Annotations.st_variants st ++ [v] ∧
       Annotations.st_precursor_start st' =
         Some (match Annotations.st_precursor_start st with
               | None => first_start (normalised (Annotations.st_exons st))
               | Some p => Z.min p (first_start (normalised (Annotations.st_exons st)))
               end) ∧
       Annotations.st_precursor_end st' =
         Some (match Annotations.st_precursor_end st with
               | None => last_stop (normalised (Annotations.st_exons st))
               | Some p => Z.max p (last_stop (normalised (Annotations.st_exons st)))
               end).
Proof.
  unfold Annotations.close_variant, variant_of, normalised, first_reversed, index.
  destruct st as [ps pe vs exons current].
  cbn [Annotations.st_exons Annotations.st_current_variant Annotations.st_variants
       Annotations.st_precursor_start Annotations.st_precursor_end fst snd].
  destruct exons as [|first_exon exons]; [done|].
  cbn [lookup list_lookup mbind result_bind].
  set (exons' := if bool_decide (first_exon.1 > first_exon.2)
                 then sorted fst (Annotations.sorted_pair <$> first_exon :: exons)
                 else first_exon :: exons).
  destruct (SpliceList.__init__ current exons' true true) as [v|]; [|done].
  cbn [mbind result_bind].
  destruct exons' as [|e es] eqn:He; [done|].
  cbn [lookup list_lookup mbind result_bind].
  unfold index_last, first_start, last_stop.
  destruct (last (e :: es)) as [last_exon|]; [|done]. cbn [mbind result_bind].
  intros [= <-]. exists v.
  cbn [Annotations.st_exons Annotations.st_current_variant Annotations.st_variants
       Annotations.st_precursor_start Annotations.st_precursor_end].
  done.
Qed.

(** The loop over the exon triples followed by the closing of the last
    group builds one SpliceList per group. *)
Lemma triples_loop rows st st' :
  foldl Annotations.triple_step (Ok st) rows ≫= Annotations.close_variant = Ok st' →
  ∃ vs,
    Forall2 variant_of
      (groups_from (Annotations.st_current_variant st) (Annotations.st_exons st) rows)
      vs ∧
    Annotations.st_variants st' = Annotations.st_variants st ++ vs.
Proof.
  revert st. induction rows as [|triple rows IH]; intros st; simpl.
  - intros (v & Hv & Hvs & _)%close_variant_spec.
    exists [v]. split; [|done]. constructor; [exact Hv|constructor].
  - case_bool_decide as Hid.
    + intros (vs & Hvs & Heq)%IH. by exists vs.
    + destruct (Annotations.close_variant st) as [st1|] eqn:Hclose; simpl.
      * apply close_variant_spec in Hclose as (v & Hv & Hvs1 & _).
        intros (vs & Hvs & Heq)%IH. simpl in *.
        exists (v :: vs). split; [constructor; [exact Hv|exact Hvs]|].
        by rewrite Heq, Hvs1, <-app_assoc.
      * by rewrite triple_step_Raise.
Qed.

Lemma from_triples_variants rows ann :
  Annotations.from_triples rows = Ok ann →
  ∃ vs pre_mRNA,
    Annotations.variants ann = vs ++ [pre_mRNA] ∧
    Forall2 variant_of (groups_of rows) vs.
Proof.
  unfold Annotations.from_triples, groups_of, index. intros Hann.
  destruct rows as [|first_triple rows]; [done|].
  cbn [lookup list_lookup mbind result_bind] in Hann.
  set (st0 := Annotations.State None None [] [] first_triple.2) in *.
  destruct (foldl Annotations.triple_step (Ok st0) (first_triple :: rows))
    as [st1|] eqn:Hfold; [|done].
  cbn [mbind result_bind] in Hann.
  destruct (Annotations.close_variant st1) as [st'|] eqn:Hclose; [|done].
  cbn [mbind result_bind] in Hann.
  assert (foldl Annotations.triple_step (Ok st0) (first_triple :: rows)
            ≫= Annotations.close_variant = Ok st') as Hloop
    by (by rewrite Hfold).
  destruct (triples_loop _ _ _ Hloop) as (vs & Hvs & Heq).
  destruct (Annotations.st_precursor_start st') as [lo|]; [|done].
  destruct (Annotations.st_precursor_end st') as [hi|]; [|done].
  destruct (SpliceList.__init__ "pre-mRNA" [(lo, hi)] true true) as [pre|]; [|done].
  cbn [mbind result_bind] in Hann. injection Hann as <-.
  exists vs, pre. split; [|exact Hvs].
  cbn [Annotations.variants]. by rewrite Heq.
Qed.

(** The identifier and the regions of a constructed SpliceList. *)
Lemma init_regions id exons l r sl :
  SpliceList.__init__ id exons l r = Ok sl →
  SpliceList.identifier sl = id ∧
  SpliceList.regions sl = exon_region <$> sorted fst exons.
Proof.
  intros Hinit.
  destruct (check_overlap_spec (sorted fst exons)) as [[_ Hno]|[Hov _]];
    [|unfold SpliceList.__init__ in Hinit; by rewrite Hov in Hinit].
  destruct (decide (sorted fst exons = [])) as [Hnil|Hne].
  - unfold SpliceList.__init__ in Hinit. rewrite Hnil in Hinit |- *.
    destruct l, r; by simplify_eq/=.
  - destruct (components_shape _ Hne) as (e1 & en & M & _ & _ & Hc & _).
    rewrite (init_shape _ _ _ _ _ _ _ Hno Hc) in Hinit. injection Hinit as <-.
    split; [done|]. unfold SpliceList.regions. cbn [SpliceList.components].
    rewrite <-regions_exon_components, Hc. rewrite !omap_app.
    cbn [omap list_omap as_region left_end].
    rewrite omap_app. by destruct l, r.
Qed.

Lemma sorted_idemp {A} (key : A → Z) l : sorted key (sorted key l) = sorted key l.
Proof. apply sorted_id, sorted_Sorted. Qed.

(** C5 (amended). The SpliceList of a group of exon rows is built from the
    pairs sorted ascending when the first row of the group has its start
    after its stop, and from the rows as they are otherwise. *)
Theorem exon_normalisation (lines2 : list (Z * Z * string)) (ann : Annotations.t) :
  Annotations.from_triples lines2 = Ok ann →
  ∃ vs pre_mRNA,
    Annotations.variants ann = vs ++ [pre_mRNA] ∧
    Forall2 (λ g v,
      SpliceList.identifier v = g.1 ∧
      if first_reversed g.2
      then SpliceList.regions v
             = exon_region <$> sorted fst (Annotations.sorted_pair <$> g.2) ∧
           Forall (λ r, Region.start r ≤ Region.stop r) (SpliceList.regions v)
      else SpliceList.regions v = exon_region <$> sorted fst g.2)
      (groups_of lines2) vs.
Proof.
  intros (vs & pre & Hvs & Hall)%from_triples_variants.
  exists vs, pre. split; [done|].
  eapply Forall2_impl; [done|]. intros [id exons] v [_ Hinit].
  apply init_regions in Hinit as [Hid Hregions]. split; [done|].
  unfold normalised in Hregions. cbn [fst snd] in *.
  destruct (first_reversed exons); [|done].
  rewrite sorted_idemp in Hregions. split; [done|].
  rewrite Hregions, Forall_fmap, sorted_perm, Forall_fmap.
  apply Forall_true. intros [start stop]. simpl. lia.
Qed.

Lemma exon_normalisation_witness :
  ∃ vs pre_mRNA v,
    Annotations.from_triples [(10, 1, "T"); (30, 20, "T"); (40, 50, "U")]%string
      = Ok (Annotations.Build (vs ++ [pre_mRNA])) ∧
    vs !! 0%nat = Some v ∧
    SpliceList.regions v = [Region.__init__ 1 10; Region.__init__ 20 30].
Proof.
  destruct (Annotations.from_triples
              [(10, 1, "T"); (30, 20, "T"); (40, 50, "U")]%string)
    as [ann|] eqn:Hann; [|by vm_compute in Hann].
  destruct (exon_normalisation _ ann Hann) as (vs & pre & Hvs & Hall).
  destruct ann as [variants]. simpl in Hvs. subst variants.
  change (groups_of _)
    with [("T", [(10, 1); (30, 20)]); ("U", [(40, 50)])]%string in Hall.
  destruct vs as [|v vs]; [by inversion Hall|].
  apply Forall2_cons in Hall as [[_ [Hv _]] _].
  by exists (v :: vs), pre, v.
Defined.

(** C5, counterexample: the second exon row of the transcript has start 30
    and stop 20, the first row is in order, and the transcript's SpliceList
    has the region from 30 to 20. *)
Lemma reversed_exon_kept :
  ∃ ann v,
    Annotations.__init__ [gtf_exon_line "1" "10" "T"; gtf_exon_line "30" "20" "T"]
      = Ok ann ∧
    Annotations.variants ann !! 0%nat = Some v ∧
    SpliceList.regions v = [Region.__init__ 1 10; Region.__init__ 30 20].
Proof. vm_compute. by eexists _, _. Qed.

(** C4, the failing input: the two exon rows of one transcript in
    descending order.  The synthesized pre-mRNA spans from 100 to 50; the
    minimum start of the rows is 10 and the maximum stop is 200. *)
Theorem pre_mRNA_of_descending_rows :
  Annotations.__init__ [gtf_exon_line "100" "200" "T"; gtf_exon_line "10" "50" "T"]
    = Annotations.from_triples descending_rows ∧
  ∃ ann transcript pre_mRNA,
    Annotations.from_triples descending_rows = Ok ann ∧
    Annotations.variants ann = [transcript; pre_mRNA] ∧
    SpliceList.regions transcript = [Region.__init__ 10 50; Region.__init__ 100 200] ∧
    SpliceList.identifier pre_mRNA = "pre-mRNA"%string ∧
    SpliceList.regions pre_mRNA = [Region.__init__ 100 50].
Proof. split; [by vm_compute|]. vm_compute. by eexists _, _, _. Qed.

(** *** The span of the pre-mRNA *)


Lemma minimum_singleton x : is_minimum x [x].
Proof. split; [by apply list_elem_of_singleton|]. by intros y ->%list_elem_of_singleton. Qed.

Lemma maximum_singleton x : is_maximum x [x].
Proof. split; [by apply list_elem_of_singleton|]. by intros y ->%list_elem_of_singleton. Qed.

Lemma minimum_cons p x l m :
  is_minimum m (Z.min p x :: l) → is_minimum m (p :: x :: l).
Proof.
  intros [Hin Hle]. split.
  - apply elem_of_cons in Hin as [->|Hin].
    + destruct (Z.min_spec p x) as [[_ ->]|[_ ->]];
        [apply list_elem_of_here|apply list_elem_of_further, list_elem_of_here].
    + by do 2 apply list_elem_of_further.
  - intros y Hy. pose proof (Hle (Z.min p x) (list_elem_of_here _ _)).
    apply elem_of_cons in Hy as [->|Hy]; [lia|].
    apply elem_of_cons in Hy as [->|Hy]; [lia|].
    by apply Hle, list_elem_of_further.
Qed.

Lemma maximum_cons p x l m :
  is_maximum m (Z.max p x :: l) → is_maximum m (p :: x :: l).
Proof.
  intros [Hin Hle]. split.
  - apply elem_of_cons in Hin as [->|Hin].
    + destruct (Z.max_spec p x) as [[_ ->]|[_ ->]];
        [apply list_elem_of_further, list_elem_of_here|apply list_elem_of_here].
    + by do 2 apply list_elem_of_further.
  - intros y Hy. pose proof (Hle (Z.max p x) (list_elem_of_here _ _)).
    apply elem_of_cons in Hy as [->|Hy]; [lia|].
    apply elem_of_cons in Hy as [->|Hy]; [lia|].
    by apply Hle, list_elem_of_further.
Qed.

(** The bounds that the loop keeps are the least first start and the
    greatest last stop of the groups. *)
Lemma triples_loop_bounds rows st st' :
  foldl Annotations.triple_step (Ok st) rows ≫= Annotations.close_variant = Ok st' →
  ∃ lo hi,
    Annotations.st_precursor_start st' = Some lo ∧
    Annotations.st_precursor_end st' = Some hi ∧
    is_minimum lo
      (option_list (Annotations.st_precursor_start st) ++
       group_starts (groups_from (Annotations.st_current_variant st)
                       (Annotations.st_exons st) rows)) ∧
    is_maximum hi
      (option_list (Annotations.st_precursor_end st) ++
       group_stops (groups_from (Annotations.st_current_variant st)
                      (Annotations.st_exons st) rows)).
Proof.
  revert st. induction rows as [|triple rows IH]; intros st; cbn [foldl groups_from].
  - cbn [mbind result_bind].
    intros (v & _ & _ & Hlo & Hhi)%close_variant_spec.
    eexists _, _. split; [done|]. split; [done|].
    unfold group_starts, group_stops. cbn [fmap list_fmap fst snd].
    destruct (Annotations.st_precursor_start st), (Annotations.st_precursor_end st);
      cbn [option_list app]; split;
      try apply minimum_cons; try apply maximum_cons;
      auto using minimum_singleton, maximum_singleton.
  - unfold Annotations.triple_step at 2. cbn [mbind result_bind].
    case_bool_decide as Hid.
    + intros (lo & hi & ? & ? & ? & ?)%IH. by exists lo, hi.
    + destruct (Annotations.close_variant st) as [st1|] eqn:Hclose;
        cbn [mbind result_bind]; [|by rewrite triple_step_Raise].
      apply close_variant_spec in Hclose as (v & _ & _ & Hlo1 & Hhi1).
      intros (lo & hi & Hlo & Hhi & Hmin & Hmax)%IH.
      cbn [Annotations.st_precursor_start Annotations.st_precursor_end
           Annotations.st_current_variant Annotations.st_exons] in *.
      exists lo, hi. split; [done|]. split; [done|].
      rewrite Hlo1 in Hmin. rewrite Hhi1 in Hmax.
      unfold group_starts, group_stops in *. cbn [fmap list_fmap fst snd].
      cbn [option_list app] in Hmin, Hmax.
      destruct (Annotations.st_precursor_start st), (Annotations.st_precursor_end st);
        cbn [option_list app]; split;
        try apply minimum_cons; try apply maximum_cons; done.
Qed.

(** The pre-mRNA that the constructor appends: one region, from the least
    first start to the greatest last stop of the groups. *)
Lemma from_triples_pre_mRNA rows ann :
  Annotations.from_triples rows = Ok ann →
  ∃ vs pre_mRNA lo hi,
    Annotations.variants ann = vs ++ [pre_mRNA] ∧
    SpliceList.identifier pre_mRNA = "pre-mRNA"%string ∧
    SpliceList.regions pre_mRNA = [Region.__init__ lo hi] ∧
    is_minimum lo (group_starts (groups_of rows)) ∧
    is_maximum hi (group_stops (groups_of rows)).
Proof.
  unfold Annotations.from_triples, groups_of, index. intros Hann.
  destruct rows as [|first_triple rows]; [done|].
  cbn [lookup list_lookup mbind result_bind] in Hann.
  set (st0 := Annotations.State None None [] [] first_triple.2) in *.
  destruct (foldl Annotations.triple_step (Ok st0) (first_triple :: rows))
    as [st1|] eqn:Hfold; [|done].
  cbn [mbind result_bind] in Hann.
  destruct (Annotations.close_variant st1) as [st'|] eqn:Hclose; [|done].
  cbn [mbind result_bind] in Hann.
  assert (foldl Annotations.triple_step (Ok st0) (first_triple :: rows)
            ≫= Annotations.close_variant = Ok st') as Hloop
    by (by rewrite Hfold).
  destruct (triples_loop_bounds _ _ _ Hloop) as (lo & hi & Hlo & Hhi & Hmin & Hmax).
  rewrite Hlo, Hhi in Hann.
  destruct (SpliceList.__init__ "pre-mRNA" [(lo, hi)] true true) as [pre|] eqn:Hpre;
    [|done].
  cbn [mbind result_bind] in Hann. injection Hann as <-.
  apply init_regions in Hpre as [Hid Hregions].
  by exists (Annotations.st_variants st'), pre, lo, hi.
Qed.

Lemma elem_of_concat {A} (x : A) (ls : list (list A)) :
  x ∈ concat ls ↔ ∃ l, x ∈ l ∧ l ∈ ls.
Proof.
  induction ls as [|l ls IH]; simpl.
  - split; [by intros ?%elem_of_nil|]. by intros (l & _ & ?%elem_of_nil).
  - rewrite elem_of_app, IH. split.
    + intros [Hx|(l' & Hx & Hl')].
      * exists l. split; [done|apply list_elem_of_here].
      * exists l'. split; [done|by apply list_elem_of_further].
    + intros (l' & Hx & [->|Hl']%elem_of_cons); [by left|].
      right. by exists l'.
Qed.

Lemma groups_from_exons current exons rows :
  concat (snd <$> groups_from current exons rows) = exons ++ (fst <$> rows).
Proof.
  revert current exons. induction rows as [|triple rows IH]; intros current exons;
    cbn [groups_from].
  - simpl. by rewrite !app_nil_r.
  - case_bool_decide.
    + rewrite IH, fmap_cons, <-app_assoc. done.
    + rewrite fmap_cons. cbn [concat snd]. rewrite IH, fmap_cons. done.
Qed.

Lemma groups_of_exons rows : concat (snd <$> groups_of rows) = fst <$> rows.
Proof.
  unfold groups_of. destruct rows as [|triple rows]; [done|].
  by rewrite groups_from_exons.
Qed.

(** In an ascending group the first exon has the least start and the last
    exon the greatest stop. *)
Lemma ascending_ends exons exon :
  ascending exons → exon ∈ exons →
  first_start exons ≤ exon.1 ∧ exon.2 ≤ last_stop exons.
Proof.
  unfold ascending. intros Hs%Sorted_StronglySorted; [|intros a b c; lia].
  induction Hs as [|e es Hs IH Hall]; [by intros ?%elem_of_nil|].
  unfold first_start, last_stop in *. rewrite last_cons.
  rewrite Forall_forall in Hall.
  intros [->|Hin]%elem_of_cons.
  - split; [done|]. destruct (last es) as [l|] eqn:Hl; [|done].
    apply last_Some in Hl as [es' ->].
    apply (Hall l), elem_of_app. right. apply list_elem_of_here.
  - specialize (IH Hin). pose proof (Hall _ Hin).
    destruct es as [|e' es]; [by apply elem_of_nil in Hin|].
    cbn [fst] in *. pose proof (Hall e' (list_elem_of_here _ _)).
    destruct (last (e' :: es)) eqn:Hl; [lia|by apply last_None in Hl].
Qed.

Lemma first_start_elem exons : exons ≠ [] → ∃ exon, exon ∈ exons ∧ first_start exons = exon.1.
Proof.
  destruct exons as [|e es]; [done|]. intros _. exists e.
  split; [apply list_elem_of_here|done].
Qed.

Lemma last_stop_elem exons : exons ≠ [] → ∃ exon, exon ∈ exons ∧ last_stop exons = exon.2.
Proof.
  intros Hne. unfold last_stop.
  destruct (last exons) as [e|] eqn:Hl; [|by apply last_None in Hl].
  exists e. split; [|done]. apply last_Some in Hl as [es ->].
  apply elem_of_app. right. apply list_elem_of_here.
Qed.

(** X28. When the exon rows of every group are in ascending order, the
    pre-mRNA spans from the least start to the greatest stop of all exon
    rows. *)
Lemma pre_mRNA_of_ascending_rows rows ann :
  Forall (λ g, first_reversed g.2 = false ∧ ascending g.2) (groups_of rows) →
  Annotations.from_triples rows = Ok ann →
  ∃ vs pre_mRNA lo hi,
    Annotations.variants ann = vs ++ [pre_mRNA] ∧
    SpliceList.regions pre_mRNA = [Region.__init__ lo hi] ∧
    is_minimum lo ((λ triple, triple.1.1) <$> rows) ∧
    is_maximum hi ((λ triple, triple.1.2) <$> rows).
Proof.
  intros Hasc Hann.
  destruct (from_triples_variants _ _ Hann) as (vs0 & _ & _ & Hvs).
  destruct (from_triples_pre_mRNA _ _ Hann)
    as (vs & pre & lo & hi & Heq & _ & Hregions & [Hlo Hmin] & [Hhi Hmax]).
  exists vs, pre, lo, hi. split; [done|]. split; [done|].
  assert (∀ g, g ∈ groups_of rows →
            g.2 ≠ [] ∧ normalised g.2 = g.2 ∧ ascending g.2 ∧
            ∀ exon, exon ∈ g.2 → exon ∈ fst <$> rows) as Hgroup.
  { intros g Hg. split; [|split; [|split]].
    - apply list_elem_of_lookup in Hg as [i Hi].
      destruct (Forall2_lookup_l _ _ _ _ _ Hvs Hi) as (v & _ & Hne & _). done.
    - rewrite Forall_forall in Hasc. destruct (Hasc g Hg) as [Hrev _].
      unfold normalised. by rewrite Hrev.
    - rewrite Forall_forall in Hasc. by destruct (Hasc g Hg).
    - intros exon Hexon. rewrite <-groups_of_exons.
      apply elem_of_concat. exists g.2. split; [done|].
      apply list_elem_of_fmap. by exists g. }
  assert (∀ triple, triple ∈ rows → ∃ g, g ∈ groups_of rows ∧ triple.1 ∈ g.2) as Hrow.
  { intros triple Htriple.
    assert (triple.1 ∈ concat (snd <$> groups_of rows)) as Hin.
    { rewrite groups_of_exons. apply list_elem_of_fmap. by exists triple. }
    apply elem_of_concat in Hin as (exons & Hin & Hexons).
    apply list_elem_of_fmap in Hexons as (g & -> & Hg). by exists g. }
  unfold group_starts, group_stops in *. split; split.
  - apply list_elem_of_fmap in Hlo as (g & -> & Hg).
    destruct (Hgroup g Hg) as (Hne & -> & _ & Hsub).
    destruct (first_start_elem _ Hne) as (exon & Hexon & ->).
    apply Hsub, list_elem_of_fmap in Hexon as (triple & -> & Htriple).
    apply list_elem_of_fmap. by exists triple.
  - intros y (triple & -> & Htriple)%list_elem_of_fmap.
    destruct (Hrow _ Htriple) as (g & Hg & Hin).
    destruct (Hgroup g Hg) as (_ & Hnorm & Hascg & _).
    pose proof (Hmin (first_start (normalised g.2))) as Hle.
    rewrite Hnorm in Hle.
    destruct (ascending_ends _ _ Hascg Hin) as [? _].
    etrans; [apply Hle|done]. apply list_elem_of_fmap. exists g. by rewrite Hnorm.
  - apply list_elem_of_fmap in Hhi as (g & -> & Hg).
    destruct (Hgroup g Hg) as (Hne & -> & _ & Hsub).
    destruct (last_stop_elem _ Hne) as (exon & Hexon & ->).
    apply Hsub, list_elem_of_fmap in Hexon as (triple & -> & Htriple).
    apply list_elem_of_fmap. by exists triple.
  - intros y (triple & -> & Htriple)%list_elem_of_fmap.
    destruct (Hrow _ Htriple) as (g & Hg & Hin).
    destruct (Hgroup g Hg) as (_ & Hnorm & Hascg & _).
    pose proof (Hmax (last_stop (normalised g.2))) as Hle.
    rewrite Hnorm in Hle.
    destruct (ascending_ends _ _ Hascg Hin) as [_ ?].
    etrans; [done|apply Hle]. apply list_elem_of_fmap. exists g. by rewrite Hnorm.
Qed.

(** ** Read grouping *)

(** C1, the failing input: one line with the flags 0x1, 0x40 and 0x80.  It
    is both in [grouped_first] and in [grouped_last], its RNEXT names its
    own QNAME, and the one group returned holds the line twice. *)
Theorem grouping_duplicates_line :
  Grouping._get_read_groups [both_ends_line] = Ok [[both_ends_line; both_ends_line]].
Proof. by vm_compute. Qed.

(** With RNEXT [*] the line is an orphan twice. *)
Lemma grouping_duplicates_orphan :
  Grouping._get_read_groups [both_ends_orphan] = Ok [[both_ends_orphan]; [both_ends_orphan]].
Proof. by vm_compute. Qed.

(** *** Conservation apart from lines marked first and last *)

Lemma count_occ_head (a : string) l x :
  count_occ String.eq_dec (a :: l) x
    = (count_occ String.eq_dec [a] x + count_occ String.eq_dec l x)%nat.
Proof. simpl. by destruct (String.eq_dec a x). Qed.

(** Permutations of lists of lines, by counting occurrences. *)
Ltac count_step :=
  match goal with
  | |- context [concat (_ ++ _)] => rewrite concat_app
  | |- context [concat (_ :: _)] => rewrite concat_cons
  | |- context [concat []] => change (@concat string []) with (@nil string)
  | |- context [count_occ ?d [] ?x] => change (count_occ d [] x) with 0%nat
  | |- context [count_occ _ (_ ++ _) _] => rewrite count_occ_app
  | |- context [count_occ _ (?a :: ?l) _] =>
      lazymatch l with
      | [] => fail
      | _ => rewrite (count_occ_head a l)
      end
  end.

Ltac count_lines :=
  let x := fresh "line" in
  apply (Permutation_count_occ String.eq_dec); intros x;
  repeat match goal with
         | H : _ ≡ₚ _ |- _ =>
             generalize (proj1 (Permutation_count_occ String.eq_dec _ _) H x);
             clear H
         end;
  repeat count_step; intros; lia.

Lemma concat_singletons (l : list string) : concat ((λ a, [a]) <$> l) = l.
Proof. induction l as [|a l IH]; [done|]. rewrite fmap_cons. simpl. by rewrite IH. Qed.

Lemma consider_middles_perm grouped_middle rnext taken kept rnext' :
  Grouping.consider_middles grouped_middle rnext = Ok (taken, kept, rnext') →
  taken ++ kept ≡ₚ grouped_middle.
Proof.
  revert rnext taken kept rnext'.
  induction grouped_middle as [|consider rest IH]; intros rnext taken kept rnext'.
  { destruct rnext; simpl; by intros [= <- <- _]. }
  destruct rnext as [name|]; simpl; [|by intros [= <- <- _]].
  case_bool_decide.
  - destruct (Grouping.next_name consider) as [rnext1|]; [|done].
    cbn [mbind result_bind].
    destruct (Grouping.consider_middles rest rnext1) as [[[t k] r]|] eqn:Hrest; [|done].
    cbn [mbind result_bind]. intros [= <- <- _].
    apply IH in Hrest. simpl. by rewrite Hrest.
  - destruct (Grouping.consider_middles rest (Some name)) as [[[t k] r]|] eqn:Hrest;
      [|done].
    cbn [mbind result_bind]. intros [= <- <- _].
    apply IH in Hrest. by rewrite <-Permutation_middle, Hrest.
Qed.

Lemma consider_lasts_perm grouped_last rnext taken kept :
  Grouping.consider_lasts grouped_last rnext = (taken, kept) →
  taken ++ kept ≡ₚ grouped_last.
Proof.
  revert taken kept. induction grouped_last as [|consider rest IH]; intros taken kept; simpl.
  { by intros [= <- <-]. }
  case_bool_decide.
  - by intros [= <- <-].
  - destruct (Grouping.consider_lasts rest rnext) as [t k] eqn:Hrest.
    intros [= <- <-]. by rewrite <-Permutation_middle, (IH _ _ eq_refl).
Qed.


Lemma first_step_Raise e firsts :
  foldl Grouping.first_step (Raise e) firsts = Raise e.
Proof. induction firsts as [|a firsts IH]; [done|]. apply IH. Qed.

Lemma first_step_perm st alignment st' :
  Grouping.first_step (Ok st) alignment = Ok st' →
  held st' ≡ₚ alignment :: held st.
Proof.
  unfold Grouping.first_step, held. cbn [mbind result_bind].
  destruct (Grouping.next_name alignment) as [rnext|]; [|done].
  cbn [mbind result_bind].
  destruct (Grouping.consider_middles (Grouping.st_grouped_middle st) rnext)
    as [[[middles kept_middle] rnext']|] eqn:Hm; [|done].
  cbn [mbind result_bind].
  destruct (Grouping.consider_lasts (Grouping.st_grouped_last st) rnext')
    as [lasts kept_last] eqn:Hl.
  apply consider_middles_perm in Hm. apply consider_lasts_perm in Hl.
  case_bool_decide; intros [= <-]; cbn [Grouping.st_read_groups
    Grouping.st_grouped_orphans Grouping.st_grouped_middle Grouping.st_grouped_last].
  - destruct middles, lasts; simplify_eq/=. count_lines.
  - count_lines.
Qed.

Lemma first_loop_perm firsts st st' :
  foldl Grouping.first_step (Ok st) firsts = Ok st' →
  held st' ≡ₚ firsts ++ held st.
Proof.
  revert st. induction firsts as [|a firsts IH]; intros st; cbn [foldl].
  - by intros [= ->].
  - destruct (Grouping.first_step (Ok st) a) as [st1|] eqn:Hstep.
    + intros Hloop%IH. apply first_step_perm in Hstep.
      rewrite Hloop, Hstep. symmetry. apply Permutation_middle.
    + by rewrite first_step_Raise.
Qed.

(** The two filters on FLAG bit 0x1 split the lines. *)
Lemma grouped_partition alignments ungrouped grouped :
  Grouping.filter_list Grouping.is_ungrouped alignments = Ok ungrouped →
  Grouping.filter_list Grouping.is_grouped alignments = Ok grouped →
  ungrouped ++ grouped ≡ₚ alignments.
Proof.
  revert ungrouped grouped.
  induction alignments as [|a alignments IH]; intros ungrouped grouped;
    cbn [Grouping.filter_list].
  { by intros [= <-] [= <-]. }
  change (Grouping.is_ungrouped a) with (negb <$> Grouping.is_grouped a).
  destruct (Grouping.is_grouped a) as [b|];
    cbn [fmap result_fmap mbind result_bind]; [|done].
  destruct (Grouping.filter_list Grouping.is_ungrouped alignments) as [u|];
    cbn [mbind result_bind]; [|done].
  destruct (Grouping.filter_list Grouping.is_grouped alignments) as [g|];
    cbn [mbind result_bind]; [|done].
  intros [= <-] [= <-].
  specialize (IH u g eq_refl eq_refl).
  destruct b; simpl; [by rewrite <-Permutation_middle, IH|by rewrite IH].
Qed.


(** The three filters on the bits 0x40 and 0x80 split the grouped lines
    when none is marked both first and last. *)
Lemma segment_partition grouped firsts lasts middles :
  Forall (λ line, ¬ first_and_last line) grouped →
  Grouping.filter_list Grouping.is_first_segment grouped = Ok firsts →
  Grouping.filter_list Grouping.is_last_segment grouped = Ok lasts →
  Grouping.filter_list Grouping.is_middle_segment grouped = Ok middles →
  firsts ++ middles ++ lasts ≡ₚ grouped.
Proof.
  intros Hnot. revert firsts lasts middles.
  induction Hnot as [|a grouped Ha Hnot IH]; intros firsts lasts middles;
    cbn [Grouping.filter_list].
  { by intros [= <-] [= <-] [= <-]. }
  change (Grouping.is_middle_segment a)
    with (first ← Grouping.is_first_segment a;
          if negb first then negb <$> Grouping.is_last_segment a else Ok false).
  unfold first_and_last in Ha.
  destruct (Grouping.is_first_segment a) as [b1|]; cbn [mbind result_bind]; [|done].
  destruct (Grouping.filter_list Grouping.is_first_segment grouped) as [f|];
    cbn [mbind result_bind]; [|done].
  intros [= <-].
  destruct (Grouping.is_last_segment a) as [b2|]; cbn [mbind result_bind]; [|done].
  destruct (Grouping.filter_list Grouping.is_last_segment grouped) as [l|];
    cbn [mbind result_bind]; [|done].
  intros [= <-].
  destruct (Grouping.filter_list Grouping.is_middle_segment grouped) as [m|];
    [|by destruct b1, b2].
  specialize (IH f l m eq_refl eq_refl eq_refl).
  destruct b1, b2; cbn [negb fmap result_fmap mbind result_bind]; intros [= <-].
  - by destruct Ha.
  - count_lines.
  - count_lines.
  - count_lines.
Qed.

Lemma filter_list_sub p alignments kept :
  Grouping.filter_list p alignments = Ok kept → kept ⊆ alignments.
Proof.
  revert kept. induction alignments as [|a alignments IH]; intros kept;
    cbn [Grouping.filter_list].
  { by intros [= <-]. }
  destruct (p a) as [b|]; [|done]. cbn [mbind result_bind].
  destruct (Grouping.filter_list p alignments) as [k|]; [|done].
  cbn [mbind result_bind]. intros [= <-]. specialize (IH k eq_refl).
  destruct b; [by apply list_subseteq_skip|by apply list_subseteq_cons].
Qed.

(** X27. Apart from lines marked both first and last, grouping neither
    loses nor duplicates a line. *)
Lemma grouping_conservation alignments groups :
  Forall (λ line, ¬ first_and_last line) (strip <$> alignments) →
  Grouping._get_read_groups alignments = Ok groups →
  concat groups ≡ₚ strip <$> alignments.
Proof.
  intros Hnot. unfold Grouping._get_read_groups.
  destruct (Grouping.filter_list Grouping.is_ungrouped (strip <$> alignments))
    as [ungrouped|] eqn:Hu; [|done].
  cbn [mbind result_bind].
  destruct (Grouping.filter_list Grouping.is_grouped (strip <$> alignments))
    as [grouped|] eqn:Hg; [|done].
  cbn [mbind result_bind].
  destruct (Grouping.filter_list Grouping.is_first_segment grouped)
    as [firsts|] eqn:Hf; [|done].
  cbn [mbind result_bind].
  destruct (Grouping.filter_list Grouping.is_last_segment grouped)
    as [lasts|] eqn:Hl; [|done].
  cbn [mbind result_bind].
  destruct (Grouping.filter_list Grouping.is_middle_segment grouped)
    as [middles|] eqn:Hmid; [|done].
  cbn [mbind result_bind].
  destruct (foldl Grouping.first_step _ firsts) as [st|] eqn:Hloop; [|done].
  cbn [mbind result_bind]. intros [= <-].
  apply first_loop_perm in Hloop. unfold held in Hloop.
  cbn [Grouping.st_read_groups Grouping.st_grouped_orphans
       Grouping.st_grouped_middle Grouping.st_grouped_last] in Hloop.
  pose proof (grouped_partition _ _ _ Hu Hg) as Hpart.
  assert (Forall (λ line, ¬ first_and_last line) grouped) as Hnot'.
  { rewrite Forall_forall in Hnot |- *. intros line Hline.
    apply Hnot. by eapply filter_list_sub. }
  pose proof (segment_partition _ _ _ _ Hnot' Hf Hl Hmid) as Hseg.
  rewrite !concat_app, !concat_singletons.
  rewrite <-Hpart, <-Hseg. count_lines.
Qed.

(** ** The test cases of test_splice_list_cases.py *)

(** [matching_exons]: the four cases expected to hold.  None of them
    depends on the enumeration order of the overhang. *)
Example test_contains_matching :
  SpliceList.contains elements
    (test_splice_list [(1, 10); (11, 20); (31, 40)])
    (test_splice_list [(1, 10); (11, 20); (31, 40)]) 0 = Ok true ∧
  SpliceList.contains elements
    (test_splice_list [(1, 10); (11, 20); (31, 40)])
    (test_splice_list [(2, 9); (10, 21); (30, 39)]) 1 = Ok true ∧
  SpliceList.contains elements
    (test_splice_list [(1, 10); (11, 20); (31, 40)])
    (test_splice_list [(6, 15); (16, 20); (33, 44)]) 5 = Ok true ∧
  SpliceList.contains elements
    (test_splice_list [(1, 10); (11, 20); (31, 40)])
    (test_splice_list [(11, 20)]) 0 = Ok true.
Proof. by vm_compute. Qed.

(** [non_matching_exons]: the four cases expected to fail. *)
Example test_contains_non_matching :
  SpliceList.contains elements
    (test_splice_list [(1, 10); (31, 40)])
    (test_splice_list [(1, 10); (11, 20); (31, 40)]) 0 = Ok false ∧
  SpliceList.contains elements
    (test_splice_list [(1, 10); (11, 20); (31, 40)])
    (test_splice_list [(1, 10); (11, 21); (31, 40)]) 0 = Ok false ∧
  SpliceList.contains elements
    (test_splice_list [(1, 10); (11, 20); (31, 40)])
    (test_splice_list [(1, 5); (11, 21); (31, 40)]) 0 = Ok false ∧
  SpliceList.contains elements
    (test_splice_list [(1, 10); (13, 20); (31, 40)])
    (test_splice_list [(2, 12); (13, 21); (31, 40)]) 1 = Ok false.
Proof. by vm_compute. Qed.

(** [overlapping_exons_list] *)
Example test_overlapping_exons :
  SpliceList.__init__ "TEST_SPLICE_VARIANT" [(1, 2); (2, 3)] false false
    = Raise OverlappingExonsError ∧
  SpliceList.__init__ "TEST_SPLICE_VARIANT" [(2, 3); (1, 2)] false false
    = Raise OverlappingExonsError ∧
  SpliceList.__init__ "TEST_SPLICE_VARIANT" [(200, 300); (100, 250)] false false
    = Raise OverlappingExonsError.
Proof. by vm_compute. Qed.

(** * Further properties *)

(** ** [SpliceList.__init__] and [SpliceList.contains] *)

Lemma elem_of_region_positions r z :
  z ∈ SpliceList.region_positions r ↔ Region.start r ≤ z ≤ Region.stop r.
Proof.
  unfold SpliceList.region_positions. rewrite elem_of_list_to_set, elem_of_seqZ. lia.
Qed.

Lemma elem_of_union_positions regions z :
  z ∈ ⋃ (SpliceList.region_positions <$> regions) ↔ covered regions z.
Proof.
  unfold covered. rewrite elem_of_union_list. split.
  - intros (Y & HY & Hz). apply list_elem_of_fmap in HY as (r & -> & Hr).
    exists r. split; [done|]. by apply elem_of_region_positions.
  - intros (r & Hr & Hz). exists (SpliceList.region_positions r). split.
    + apply list_elem_of_fmap. by exists r.
    + by apply elem_of_region_positions.
Qed.

Lemma elem_of_positions regions X z :
  SpliceList.positions regions = Ok X → z ∈ X ↔ covered regions z.
Proof.
  unfold SpliceList.positions. destruct regions as [|r0 rs]; [done|].
  intros [= <-]. apply (elem_of_union_positions (r0 :: rs)).
Qed.

Lemma positions_Raise regions e :
  SpliceList.positions regions = Raise e → regions = [] ∧ e = TypeError.
Proof. destruct regions; [by intros [= <-]|done]. Qed.

(** The junctions of a freshly constructed SpliceList have no
    complement. *)
Lemma init_no_complement id exons l r sl :
  SpliceList.__init__ id exons l r = Ok sl → no_complement (SpliceList.junctions sl).
Proof.
  intros Hinit. unfold no_complement.
  assert (∀ cs, Forall (λ j, Junction.complement j = None)
            (omap as_junction (cs ≫= SpliceList.exon_components))) as Hfresh.
  { induction cs as [|e cs IH]; [constructor|].
    rewrite bind_cons, omap_app. apply Forall_app. split; [|done].
    by repeat constructor. }
  destruct (check_overlap_spec (sorted fst exons)) as [[_ Hno]|[Hov _]];
    [|unfold SpliceList.__init__ in Hinit; by rewrite Hov in Hinit].
  destruct (decide (sorted fst exons = [])) as [Hnil|Hne].
  - unfold SpliceList.__init__ in Hinit. rewrite Hnil in Hinit.
    destruct l, r; simplify_eq/=; constructor.
  - destruct (components_shape _ Hne) as (e1 & en & M & _ & _ & Hc & _).
    rewrite (init_shape _ _ _ _ _ _ _ Hno Hc) in Hinit. injection Hinit as <-.
    specialize (Hfresh (sorted fst exons)). rewrite Hc in Hfresh.
    unfold SpliceList.junctions. cbn [SpliceList.components].
    simpl in Hfresh. rewrite omap_app in Hfresh.
    apply Forall_cons in Hfresh as [_ Hfresh].
    apply Forall_app in Hfresh as [HM _].
    rewrite !omap_app. apply Forall_app. split; [by destruct l; repeat constructor|].
    apply Forall_app. split; [done|]. by destruct r; repeat constructor.
Qed.

(** The components do not depend on the identifier. *)
Lemma init_components id1 id2 exons l r s1 s2 :
  SpliceList.__init__ id1 exons l r = Ok s1 →
  SpliceList.__init__ id2 exons l r = Ok s2 →
  SpliceList.components s1 = SpliceList.components s2.
Proof.
  unfold SpliceList.__init__.
  destruct (SpliceList.check_overlap (sorted fst exons)); [|done].
  cbn [mbind result_bind].
  destruct (if l then _ else _) as [cs|]; [|done]. cbn [mbind result_bind].
  destruct (if r then _ else _) as [cs'|]; [|done]. cbn [mbind result_bind].
  by intros [= <-] [= <-].
Qed.

(** X1. Two SpliceLists built by the constructor from the same non-empty
    exon list with the same endpoint flags contain each other under every
    tolerance [tol >= 0], whatever their identifiers. *)
Theorem contains_same_exons (set_iter : gset Z → list Z)
    (id1 id2 : string) (exons : list (Z * Z)) (l r : bool)
    (s1 s2 : SpliceList.t) (tol : Z) :
  (∀ X, set_iter X ≡ₚ elements X) →
  0 ≤ tol →
  exons ≠ [] →
  SpliceList.__init__ id1 exons l r = Ok s1 →
  SpliceList.__init__ id2 exons l r = Ok s2 →
  SpliceList.contains set_iter s1 s2 tol = Ok true.
Proof.
  intros Hperm Htol Hne H1 H2.
  pose proof (init_components _ _ _ _ _ _ _ H1 H2) as Hc.
  pose proof (init_no_complement _ _ _ _ _ H2) as Hno.
  destruct (init_regions _ _ _ _ _ H2) as [_ Hregions].
  assert (SpliceList.regions s2 ≠ []) as Hne2.
  { rewrite Hregions. intros Hnil%fmap_nil_inv. by apply sorted_nil_inv in Hnil. }
  rewrite contains_no_complement by done.
  unfold SpliceList.regions, SpliceList.junctions in *. rewrite Hc.
  destruct (contains_self_regions set_iter Hperm s2 tol Hne2) as (X & HX & Hr).
  unfold SpliceList.regions in HX. rewrite HX. cbn [mbind result_bind].
  by rewrite Hr, all_matched_refl.
Qed.

Lemma contains_same_exons_witness :
  SpliceList.contains elements
    (test_splice_list [(11, 20); (1, 10); (31, 40)])
    (test_splice_list [(11, 20); (1, 10); (31, 40)]) 0 = Ok true.
Proof.
  apply (contains_same_exons elements "test" "test"
           [(11, 20); (1, 10); (31, 40)] false false).
  - done.
  - lia.
  - done.
  - by vm_compute.
  - by vm_compute.
Defined.

(** With a region on both sides [contains] returns. *)
Lemma contains_returns set_iter self other_sl tol :
  SpliceList.regions other_sl ≠ [] → SpliceList.regions self ≠ [] →
  ∃ b, SpliceList.contains set_iter self other_sl tol = Ok b.
Proof.
  unfold SpliceList.contains, SpliceList.positions. intros Ho Hs.
  destruct (SpliceList.regions other_sl); [done|].
  destruct (SpliceList.regions self); [done|].
  cbn [mbind result_bind].
  destruct (negb _); [by eexists|]. destruct (SpliceList.scan_other _ _ _ _); by eexists.
Qed.

(** X2. [contains] raises exactly when one of the two SpliceLists has no
    region, and then it raises [TypeError]; with a region on both sides
    it returns a truth value. *)
Theorem contains_raises (set_iter : gset Z → list Z)
    (self other_sl : SpliceList.t) (tol : Z) :
  (SpliceList.regions other_sl = [] ∨ SpliceList.regions self = [] →
   SpliceList.contains set_iter self other_sl tol = Raise TypeError) ∧
  (SpliceList.regions other_sl ≠ [] → SpliceList.regions self ≠ [] →
   ∃ b, SpliceList.contains set_iter self other_sl tol = Ok b).
Proof.
  split; [|apply contains_returns].
  unfold SpliceList.contains, SpliceList.positions.
  intros [Ho|Hs].
  - by rewrite Ho.
  - rewrite Hs. by destruct (SpliceList.regions other_sl).
Qed.

Lemma contains_raises_witness :
  SpliceList.contains elements (test_splice_list [(1, 10)]) (test_splice_list []) 0
    = Raise TypeError ∧
  ∃ b, SpliceList.contains elements
         (test_splice_list [(1, 10)]) (test_splice_list [(2, 30)]) 0 = Ok b.
Proof.
  split.
  - apply (contains_raises elements). by left.
  - apply (contains_raises elements); by vm_compute.
Defined.

Lemma scan_this_has_match tol j i this_junctions has_match match_order :
  (SpliceList.scan_this tol j i this_junctions has_match match_order).1
    = has_match || existsb (SpliceList.in_check_range tol j) this_junctions.
Proof.
  revert i has_match match_order.
  induction this_junctions as [|this_j rest IH]; intros i has_match match_order; simpl.
  - by rewrite orb_false_r.
  - destruct (SpliceList.in_check_range tol j this_j); simpl.
    + rewrite IH. by rewrite orb_true_r.
    + apply IH.
Qed.

Lemma scan_other_matched tol this_junctions other_junctions match_order mo :
  SpliceList.scan_other tol this_junctions other_junctions match_order = Some mo →
  all_matched tol this_junctions other_junctions = true.
Proof.
  revert match_order.
  induction other_junctions as [|j rest IH]; intros match_order; simpl; [done|].
  pose proof (scan_this_has_match tol j 0 this_junctions false match_order) as Hm.
  destruct (SpliceList.scan_this tol j 0 this_junctions false match_order)
    as [has_match mo'].
  simpl in Hm. subst has_match.
  destruct (existsb _ this_junctions); [|done]. simpl. apply IH.
Qed.

(** X3. When [contains] returns true, every junction of the other
    SpliceList has a junction of the same type in this one whose position
    differs by at most the tolerance. *)
Theorem contains_junctions_matched (set_iter : gset Z → list Z)
    (self other_sl : SpliceList.t) (tol : Z) (j : Junction.t) :
  SpliceList.contains set_iter self other_sl tol = Ok true →
  j ∈ SpliceList.junctions other_sl →
  ∃ this_j, this_j ∈ SpliceList.junctions self ∧
            Junction.type this_j = Junction.type j ∧
            Z.abs (Junction.position this_j - Junction.position j) ≤ tol.
Proof.
  unfold SpliceList.contains. intros Hc Hj.
  destruct (SpliceList.positions (SpliceList.regions other_sl)); [|done].
  destruct (SpliceList.positions (SpliceList.regions self)); [|done].
  cbn [mbind result_bind] in Hc.
  destruct (negb _); [done|].
  destruct (SpliceList.scan_other _ _ _ _) as [mo|] eqn:Hscan; [|done].
  apply scan_other_matched in Hscan. unfold all_matched in Hscan.
  rewrite forallb_forall in Hscan. apply list_elem_of_In in Hj.
  specialize (Hscan j Hj). apply existsb_exists in Hscan as (this_j & Hin & Hrange).
  exists this_j. split; [by apply list_elem_of_In|].
  unfold SpliceList.in_check_range in Hrange.
  apply andb_true_iff in Hrange as [Htype%bool_decide_eq_true Hpos%bool_decide_eq_true].
  split; [done|lia].
Qed.

Lemma contains_junctions_matched_witness :
  ∃ this_j,
    this_j ∈ SpliceList.junctions (test_splice_list [(1, 10); (11, 20); (31, 40)]) ∧
    Junction.type this_j = TYPE_END ∧
    Z.abs (Junction.position this_j - 9) ≤ 1.
Proof.
  apply (contains_junctions_matched elements
           (test_splice_list [(1, 10); (11, 20); (31, 40)])
           (test_splice_list [(2, 9); (10, 21); (30, 39)]) 1
           (Junction.Build 9 TYPE_END None false)).
  - by vm_compute.
  - vm_compute. apply list_elem_of_here.
Defined.

Lemma overhangs_within_nil tol overhangs distance last_position :
  tol ≤ 0 → 0 ≤ distance →
  SpliceList.overhangs_within tol overhangs distance last_position = true →
  overhangs = [].
Proof.
  intros Htol Hd. destruct overhangs as [|pos rest]; [done|]. simpl.
  repeat case_bool_decide; try done; lia.
Qed.

(** X4. When [contains] returns true under tolerance 0 (or less), every
    position of the other SpliceList's regions lies in a region of this
    one. *)
Theorem contains_zero_tolerance (set_iter : gset Z → list Z)
    (self other_sl : SpliceList.t) (tol z : Z) :
  (∀ X, set_iter X ≡ₚ elements X) →
  tol ≤ 0 →
  SpliceList.contains set_iter self other_sl tol = Ok true →
  covered (SpliceList.regions other_sl) z →
  covered (SpliceList.regions self) z.
Proof.
  unfold SpliceList.contains. intros Hperm Htol Hc Hz.
  destruct (SpliceList.positions (SpliceList.regions other_sl)) as [X|] eqn:HX; [|done].
  destruct (SpliceList.positions (SpliceList.regions self)) as [Y|] eqn:HY; [|done].
  cbn [mbind result_bind] in Hc.
  destruct (SpliceList.overhangs_within tol (set_iter (X ∖ Y)) 0 (-1)) eqn:Hover;
    [|done].
  apply overhangs_within_nil in Hover; [|done..].
  apply (elem_of_positions _ _ _ HY).
  apply (elem_of_positions _ _ _ HX) in Hz.
  destruct (decide (z ∈ Y)) as [|Hnot]; [done|].
  assert (z ∈ set_iter (X ∖ Y)) as Hin.
  { rewrite Hperm. apply elem_of_elements. set_solver. }
  rewrite Hover in Hin. by apply elem_of_nil in Hin.
Qed.

Lemma contains_zero_tolerance_witness :
  covered (SpliceList.regions (test_splice_list [(1, 10); (11, 20); (31, 40)])) 15.
Proof.
  apply (contains_zero_tolerance elements
           (test_splice_list [(1, 10); (11, 20); (31, 40)])
           (test_splice_list [(11, 20)]) 0 15).
  - done.
  - lia.
  - by vm_compute.
  - exists (Region.__init__ 11 20). split; [vm_compute; apply list_elem_of_here|].
    simpl. lia.
Defined.

(** ** [Transcript.__init__] *)

Lemma wire_step_wirable cs i :
  Transcript.wire_step cs i =
    if wirable cs i
    then Transcript.set_complement_at (S i) i (Transcript.set_complement_at i (S i) cs)
    else cs.
Proof.
  unfold Transcript.wire_step, wirable.
  destruct (cs !! i) as [[|a]|]; try done.
  destruct (cs !! S i) as [[|b]|]; done.
Qed.

Lemma set_complement_at_length i k cs :
  length (Transcript.set_complement_at i k cs) = length cs.
Proof.
  unfold Transcript.set_complement_at.
  destruct (cs !! i) as [[|j]|]; try done. by rewrite length_insert.
Qed.

Lemma set_complement_at_lookup i k cs n :
  Transcript.set_complement_at i k cs !! n =
    if bool_decide (n = i)
    then match cs !! n with
         | Some (CJunction j) => Some (CJunction (Junction.set_complement (Some k) j))
         | c => c
         end
    else cs !! n.
Proof.
  unfold Transcript.set_complement_at. case_bool_decide as Hn.
  - subst n. destruct (cs !! i) as [[|j]|] eqn:Hi; try done.
    rewrite list_lookup_insert_eq; [done|]. by eapply lookup_lt_Some.
  - destruct (cs !! i) as [[|j]|]; try done. by rewrite list_lookup_insert_ne.
Qed.

Lemma set_complement_at_forget i k cs :
  forget_complement <$> Transcript.set_complement_at i k cs = forget_complement <$> cs.
Proof.
  apply list_eq. intros n. rewrite !list_lookup_fmap, set_complement_at_lookup.
  case_bool_decide; [|done]. by destruct (cs !! n) as [[|j]|].
Qed.

Lemma wire_step_forget cs i :
  forget_complement <$> Transcript.wire_step cs i = forget_complement <$> cs.
Proof.
  rewrite wire_step_wirable. destruct (wirable cs i); [|done].
  by rewrite !set_complement_at_forget.
Qed.

Lemma wirable_forget cs1 cs2 i :
  forget_complement <$> cs1 = forget_complement <$> cs2 →
  wirable cs1 i = wirable cs2 i.
Proof.
  intros Heq. unfold wirable.
  pose proof (f_equal (.!! i) Heq) as Hi. pose proof (f_equal (.!! S i) Heq) as HS.
  rewrite !list_lookup_fmap in Hi, HS.
  destruct (cs1 !! i) as [[|a]|], (cs2 !! i) as [[|a']|]; try done;
    destruct (cs1 !! S i) as [[|b]|], (cs2 !! S i) as [[|b']|]; try done.
  destruct a, a', b, b'. simpl in *. by simplify_eq.
Qed.

(** The loop after its first [m] rounds. *)
Lemma wire_prefix cs m i :
  foldl Transcript.wire_step cs (seq 0 m) !! i =
    match cs !! i with
    | Some (CJunction j) =>
        Some (CJunction (Junction.set_complement
                           (complement_after cs m i (Junction.complement j)) j))
    | c => c
    end.
Proof.
  induction m as [|m IH].
  - simpl. unfold complement_after.
    rewrite bool_decide_eq_false_2 by lia. simpl.
    rewrite (bool_decide_eq_false_2 (0 < i ≤ 0)%nat) by lia. simpl.
    by destruct (cs !! i) as [[|[]]|].
  - rewrite seq_S, foldl_app. simpl.
    set (cs' := foldl Transcript.wire_step cs (seq 0 m)) in *.
    assert (forget_complement <$> cs' = forget_complement <$> cs) as Hforget.
    { unfold cs'. clear. induction m as [|m IH]; [done|].
      rewrite seq_S, foldl_app. simpl. by rewrite wire_step_forget. }
    rewrite wire_step_wirable, (wirable_forget _ _ _ Hforget).
    unfold complement_after in *.
    destruct (wirable cs m) eqn:Hm.
    + rewrite !set_complement_at_lookup, IH.
      destruct (decide (i = S m)) as [->|HiS]; [|destruct (decide (i = m)) as [->|Him]].
      * rewrite bool_decide_eq_true_2 by done.
        rewrite (bool_decide_eq_false_2 (S m = m)) by lia.
        rewrite (bool_decide_eq_false_2 (S m < S m)%nat) by lia.
        rewrite (bool_decide_eq_true_2 (0 < S m ≤ S m)%nat) by lia. simpl.
        replace (m - 0)%nat with m by lia. rewrite Hm.
        by destruct (cs !! S m) as [[|[]]|].
      * rewrite (bool_decide_eq_false_2 (m = S m)) by lia.
        rewrite (bool_decide_eq_true_2 (m = m)) by done.
        rewrite (bool_decide_eq_true_2 (m < S m)%nat) by lia. rewrite Hm. simpl.
        by destruct (cs !! m) as [[|[]]|].
      * rewrite !bool_decide_eq_false_2 by done.
        rewrite (bool_decide_ext (i < S m)%nat (i < m)%nat) by lia.
        rewrite (bool_decide_ext (0 < i ≤ S m)%nat (0 < i ≤ m)%nat) by lia.
        done.
    + rewrite IH.
      destruct (decide (i = S m)) as [->|HiS]; [|destruct (decide (i = m)) as [->|Him]].
      * rewrite (bool_decide_eq_false_2 (S m < m)%nat) by lia.
        rewrite (bool_decide_eq_false_2 (S m < S m)%nat) by lia.
        rewrite (bool_decide_eq_false_2 (0 < S m ≤ m)%nat) by lia. simpl.
        replace (m - 0)%nat with m by lia. rewrite Hm.
        by rewrite andb_false_r.
      * rewrite (bool_decide_eq_false_2 (m < m)%nat) by lia.
        rewrite ?Hm, ?andb_false_r. simpl.
        by rewrite (bool_decide_ext (0 < m ≤ S m)%nat (0 < m ≤ m)%nat) by lia.
      * rewrite (bool_decide_ext (i < S m)%nat (i < m)%nat) by lia.
        rewrite (bool_decide_ext (0 < i ≤ S m)%nat (0 < i ≤ m)%nat) by lia.
        done.
Qed.

Lemma wire_forget cs :
  forget_complement <$> Transcript.wire cs = forget_complement <$> cs.
Proof.
  unfold Transcript.wire. generalize (length cs - 1)%nat. intros m.
  induction m as [|m IH]; [done|].
  rewrite seq_S, foldl_app. simpl. by rewrite wire_step_forget.
Qed.

Lemma wire_length cs : length (Transcript.wire cs) = length cs.
Proof.
  rewrite <- (length_fmap forget_complement), wire_forget. apply length_fmap.
Qed.

Lemma wirable_lt cs i : wirable cs i = true → (S i < length cs)%nat.
Proof.
  unfold wirable. destruct (cs !! i) as [[|a]|]; try done.
  destruct (cs !! S i) as [[|b]|] eqn:HS; try done. intros _.
  by eapply lookup_lt_Some.
Qed.

Lemma wirable_partners cs i : wirable cs i = true ↔ partners cs i (S i).
Proof.
  unfold wirable, partners. split.
  - destruct (cs !! i) as [[|a]|]; try done.
    destruct (cs !! S i) as [[|b]|]; try done.
    intros [[Ht%bool_decide_eq_true Ha]%andb_true_iff Hb]%andb_true_iff.
    split; [by left|]. by exists a, b.
  - intros [_ (a & b & -> & -> & Ht & -> & ->)]. by rewrite bool_decide_eq_true_2.
Qed.

Lemma partners_sym cs i k : partners cs i k → partners cs k i.
Proof.
  intros [Hik (a & b & Ha & Hb & Ht & Hca & Hcb)]. split; [tauto|].
  by exists b, a.
Qed.

Lemma partners_forget cs1 cs2 i k :
  forget_complement <$> cs1 = forget_complement <$> cs2 →
  partners cs1 i k → partners cs2 i k.
Proof.
  intros Heq [Hik (a & b & Ha & Hb & Ht & Hca & Hcb)]. split; [done|].
  pose proof (f_equal (.!! i) Heq) as Hi. pose proof (f_equal (.!! k) Heq) as Hk.
  rewrite !list_lookup_fmap in Hi, Hk. rewrite Ha in Hi. rewrite Hb in Hk.
  destruct (cs2 !! i) as [[|a']|]; try done.
  destruct (cs2 !! k) as [[|b']|]; try done.
  exists a', b'. destruct a, a', b, b'. simpl in *. by simplify_eq.
Qed.

(** The complements that the loop leaves. *)
Lemma wire_complement cs i j :
  Forall (λ c, forget_complement c = c) cs →
  Transcript.wire cs !! i = Some (CJunction j) →
  (∀ k, Junction.complement j = Some k → partners cs i k) ∧
  ((∃ k, partners cs i k) → Junction.complement j ≠ None).
Proof.
  intros Hfresh. unfold Transcript.wire. rewrite wire_prefix.
  destruct (cs !! i) as [[|j0]|] eqn:Hi; try done. intros [= <-].
  assert (Junction.complement j0 = None) as Hnone.
  { rewrite Forall_forall in Hfresh.
    specialize (Hfresh _ (list_elem_of_lookup_2 _ _ _ Hi)).
    simpl in Hfresh. injection Hfresh as Heq.
    by rewrite <- Heq. }
  cbn [Junction.complement Junction.set_complement]. unfold complement_after.
  rewrite Hnone. split.
  - intros k.
    destruct (bool_decide (i < length cs - 1)%nat && wirable cs i) eqn:H1.
    + apply andb_true_iff in H1 as [_ Hw]. intros [= <-]. by apply wirable_partners.
    + destruct (bool_decide (0 < i ≤ length cs - 1)%nat && wirable cs (i - 1)) eqn:H2;
        [|done].
      apply andb_true_iff in H2 as [Hpos%bool_decide_eq_true Hw]. intros [= <-].
      apply partners_sym. apply wirable_partners in Hw.
      by replace (S (i - 1)) with i in Hw by lia.
  - intros [k Hp]. pose proof Hp as [[-> | ->] _].
    + assert (wirable cs i = true) as Hw by (by apply wirable_partners).
      pose proof (wirable_lt _ _ Hw).
      rewrite bool_decide_eq_true_2 by lia. by rewrite Hw.
    + assert (wirable cs k = true) as Hw
        by (by apply wirable_partners, partners_sym).
      pose proof (wirable_lt _ _ Hw).
      destruct (bool_decide (S k < length cs - 1)%nat && wirable cs (S k)); [done|].
      rewrite bool_decide_eq_true_2 by lia.
      replace (S k - 1)%nat with k by lia. by rewrite Hw.
Qed.

Lemma build_segments_filter lines st mt segs :
  Transcript.build_segments lines st mt = Ok segs →
  Forall2 (λ line seg, Segment.__init__ line st mt = Ok seg)
    (filter (λ line, succeeds (Segment.__init__ line st mt) = true) lines) segs.
Proof.
  revert segs. induction lines as [|line lines IH]; intros segs; simpl.
  - intros [= <-]. constructor.
  - destruct (Segment.__init__ line st mt) as [seg|e] eqn:Hseg.
    + destruct (Transcript.build_segments lines st mt) as [segs'|]; [|done].
      cbn [mbind result_bind]. intros [= <-].
      rewrite filter_cons_True by (by rewrite Hseg). constructor; [done|by apply IH].
    + rewrite filter_cons_False by (by rewrite Hseg).
      destruct (is_NoMappingError e); [apply IH|done].
Qed.

Lemma redistribute_components segs cs :
  length cs = length (concat ((λ segment,
      SpliceList.components (Segment.splice_list segment)) <$> segs)) →
  concat ((λ segment, SpliceList.components (Segment.splice_list segment))
            <$> Transcript.redistribute segs cs) = cs.
Proof.
  revert cs. induction segs as [|seg segs IH]; intros cs; simpl.
  - by destruct cs.
  - rewrite length_app. intros Hlen. rewrite IH, take_drop; [done|].
    rewrite length_drop, Hlen. unfold fmap. lia.
Qed.

Lemma redistribute_Forall2 segs cs :
  forget_complement <$> cs = forget_complement <$> concat ((λ segment,
      SpliceList.components (Segment.splice_list segment)) <$> segs) →
  Forall2 (λ fresh segment,
      Segment.sam segment = Segment.sam fresh ∧
      SpliceList.identifier (Segment.splice_list segment)
        = SpliceList.identifier (Segment.splice_list fresh) ∧
      forget_complement <$> SpliceList.components (Segment.splice_list segment)
        = forget_complement <$> SpliceList.components (Segment.splice_list fresh))
    segs (Transcript.redistribute segs cs).
Proof.
  revert cs. induction segs as [|seg segs IH]; intros cs; simpl; [constructor|].
  rewrite fmap_app. intros Heq.
  assert (length (forget_complement <$>
            SpliceList.components (Segment.splice_list seg))
          = length (SpliceList.components (Segment.splice_list seg))) as Hlen
    by apply length_fmap.
  constructor.
  - repeat split. simpl. rewrite fmap_take, Heq, <- Hlen. by rewrite take_app_length.
  - apply IH. rewrite fmap_drop, Heq, <- Hlen. by rewrite drop_app_length.
Qed.

Lemma segment_init_fresh sam st mt seg :
  Segment.__init__ sam st mt = Ok seg →
  Segment.sam seg = sam ∧
  SpliceList.regions (Segment.splice_list seg) ≠ [] ∧
  Forall (λ c, forget_complement c = c)
         (SpliceList.components (Segment.splice_list seg)).
Proof.
  unfold Segment.__init__.
  destruct (Segment._get_region_list sam st mt) as [[region_list flags]|]; [|done].
  cbn [mbind result_bind]. case_bool_decide as Hne; [done|].
  destruct (index (split tab sam) 0) as [qname|]; [|done].
  cbn [mbind result_bind].
  destruct (SpliceList.__init__ qname region_list flags.1 flags.2) as [sl|] eqn:Hsl;
    [|done].
  cbn [mbind result_bind]. intros [= <-]. simpl. split; [done|]. split.
  - destruct (init_regions _ _ _ _ _ Hsl) as [_ ->].
    intros Hnil%fmap_nil_inv. by apply sorted_nil_inv in Hnil.
  - pose proof (init_no_complement _ _ _ _ _ Hsl) as Hno.
    unfold no_complement, SpliceList.junctions in Hno.
    induction (SpliceList.components sl) as [|[r|j] cs IH]; [constructor|..].
    + constructor; [done|]. by apply IH.
    + simpl in Hno. apply Forall_cons in Hno as [Hj Hno].
      constructor; [|by apply IH]. destruct j. simpl in *. by subst.
Qed.

Lemma transcript_init_inv lines st mt t :
  Transcript.__init__ lines st mt = Ok t →
  ∃ segs, Transcript.build_segments lines st mt = Ok segs ∧ segs ≠ [] ∧
    Transcript.segments t = Transcript.redistribute segs (Transcript.wire
      (concat ((λ segment, SpliceList.components (Segment.splice_list segment))
                 <$> segs))).
Proof.
  unfold Transcript.__init__.
  destruct (Transcript.build_segments lines st mt) as [segs|]; [|done].
  cbn [mbind result_bind]. destruct segs as [|seg segs]; [done|].
  intros [= <-]. by eexists.
Qed.

Lemma redistribute_length segs cs :
  length (Transcript.redistribute segs cs) = length segs.
Proof. revert cs. induction segs; intros cs; simpl; [done|]. by rewrite IHsegs. Qed.

Lemma redistribute_sams segs cs :
  Segment.sam <$> Transcript.redistribute segs cs = Segment.sam <$> segs.
Proof.
  revert cs. induction segs as [|seg segs IH]; intros cs; [done|].
  cbn [Transcript.redistribute]. by rewrite !fmap_cons, IH.
Qed.

Lemma build_segments_sams lines st mt segs :
  Transcript.build_segments lines st mt = Ok segs →
  Segment.sam <$> segs
    = filter (λ line, succeeds (Segment.__init__ line st mt) = true) lines.
Proof.
  intros Hbuild%build_segments_filter.
  induction Hbuild as [|line seg kept segs' Hinit _ IH]; [done|].
  rewrite fmap_cons, IH. f_equal.
  by destruct (segment_init_fresh _ _ _ _ Hinit) as [? _].
Qed.

(** The lines of the segments of a transcript. *)
Lemma transcript_sams lines st mt t :
  Transcript.__init__ lines st mt = Ok t →
  Transcript.segments t ≠ [] ∧
  Segment.sam <$> Transcript.segments t
    = filter (λ line, succeeds (Segment.__init__ line st mt) = true) lines.
Proof.
  intros (segs & Hbuild & Hne & ->)%transcript_init_inv. split.
  - intros Hnil. apply (f_equal length) in Hnil.
    rewrite redistribute_length in Hnil. by destruct segs.
  - rewrite redistribute_sams. by apply build_segments_sams.
Qed.

(** X5. The segments of a transcript are the segments of the lines that
    have a mapping, in the order of the lines, and there is at least one:
    each keeps its line, its identifier and its components, up to the
    complements of its junctions. *)
Theorem transcript_segments (lines : list string) (st mt : Z) (t : Transcript.t) :
  Transcript.__init__ lines st mt = Ok t →
  Transcript.segments t ≠ [] ∧
  Forall2 (λ line segment,
      ∃ fresh, Segment.__init__ line st mt = Ok fresh ∧
        Segment.sam segment = line ∧
        SpliceList.identifier (Segment.splice_list segment)
          = SpliceList.identifier (Segment.splice_list fresh) ∧
        forget_complement <$> SpliceList.components (Segment.splice_list segment)
          = SpliceList.components (Segment.splice_list fresh))
    (filter (λ line, succeeds (Segment.__init__ line st mt) = true) lines)
    (Transcript.segments t).
Proof.
  intros (segs & Hbuild & Hne & ->)%transcript_init_inv. split.
  - intros Hnil. apply (f_equal length) in Hnil.
    rewrite redistribute_length in Hnil. by destruct segs.
  - pose proof (build_segments_filter _ _ _ _ Hbuild) as Hfilter.
    pose proof (redistribute_Forall2 segs _ (wire_forget _)) as Hred.
    revert Hfilter Hred. generalize (Transcript.redistribute segs (Transcript.wire
      (concat ((λ segment, SpliceList.components (Segment.splice_list segment))
                 <$> segs)))).
    generalize (filter (λ line, succeeds (Segment.__init__ line st mt) = true) lines).
    clear. intros kept segs' Hfilter. revert segs'.
    induction Hfilter as [|line fresh kept segs Hinit _ IH]; intros segs' Hred.
    + inversion Hred. constructor.
    + inversion Hred as [|? segment ? segs'' (Hsam & Hid & Hcs) Hrest]; subst.
      constructor; [|by apply IH].
      destruct (segment_init_fresh _ _ _ _ Hinit) as (Hline & _ & Hfresh).
      exists fresh. repeat split; [done|congruence|done|].
      rewrite Hcs. clear -Hfresh.
      induction Hfresh as [|c cs Hc _ IH]; [done|]. csimpl. by rewrite Hc, IH.
Qed.

Lemma transcript_segments_witness :
  Segment.sam <$> Transcript.segments pair_of_mates = [mate1; mate2].
Proof.
  destruct (transcript_segments [mate1; mate2] 2 0 pair_of_mates) as [_ Hall];
    [by vm_compute|].
  assert (filter (λ line, succeeds (Segment.__init__ line 2 0) = true) [mate1; mate2]
          = [mate1; mate2]) as Hfilter by (by vm_compute).
  rewrite Hfilter in Hall. clear Hfilter.
  apply Forall2_cons_inv_l in Hall as (s1 & rest & (_ & _ & H1 & _) & Hall & ->).
  apply Forall2_cons_inv_l in Hall as (s2 & rest' & (_ & _ & H2 & _) & Hall & ->).
  apply Forall2_nil_inv_l in Hall as ->. simpl. by rewrite H1, H2.
Defined.

(** X6. After [Transcript.__init__], a junction has a complement exactly
    when a neighbour of it in the list of all components of the
    transcript is a junction of the other type and both have
    [has_complement] set; the complement is such a neighbour. *)
Theorem complement_wiring (lines : list string) (st mt : Z) (t : Transcript.t)
    (i : nat) (j : Junction.t) :
  Transcript.__init__ lines st mt = Ok t →
  all_components t !! i = Some (CJunction j) →
  (∀ k, Junction.complement j = Some k → partners (all_components t) i k) ∧
  ((∃ k, partners (all_components t) i k) → Junction.complement j ≠ None).
Proof.
  intros (segs & Hbuild & Hne & Hsegs)%transcript_init_inv.
  unfold all_components. rewrite Hsegs.
  set (cs := concat ((λ segment, SpliceList.components (Segment.splice_list segment))
                 <$> segs)).
  rewrite redistribute_components by apply wire_length.
  assert (Forall (λ c, forget_complement c = c) cs) as Hfresh.
  { apply build_segments_filter in Hbuild. unfold cs. clear -Hbuild.
    induction Hbuild as [|line seg kept segs Hinit _ IH]; [constructor|].
    simpl. apply Forall_app. split; [|done].
    by destruct (segment_init_fresh _ _ _ _ Hinit) as (_ & _ & ?). }
  intros Hi. destruct (wire_complement cs i j Hfresh Hi) as [Hsome Hex]. split.
  - intros k Hk. eapply partners_forget; [|by apply Hsome]. symmetry. apply wire_forget.
  - intros [k Hp]. apply Hex. exists k. eapply partners_forget; [|done]. apply wire_forget.
Qed.

Lemma complement_wiring_witness : partners (all_components pair_of_mates) 1 2.
Proof.
  destruct (complement_wiring [mate1; mate2] 2 0 pair_of_mates 1
              (Junction.Build 10 TYPE_END (Some 2%nat) true)) as [Hsome _];
    [by vm_compute..|].
  by apply Hsome.
Defined.

(** ** [Segment._get_region_list] and [Segment.__init__] *)

Lemma encode_loop_from acc cur cigar_v :
  foldl Segment.encode_step (acc ++ [cur]) cigar_v = acc ++ encode_from cur cigar_v.
Proof.
  revert acc cur. induction cigar_v as [|o cigar_v IH]; intros acc cur; simpl; [done|].
  unfold Segment.encode_step at 2. rewrite last_snoc. destruct cur as [k o' m].
  simpl. case_bool_decide.
  - rewrite removelast_last. apply IH.
  - rewrite <- (app_assoc acc), (app_assoc acc [_] [_]), IH. by rewrite <- app_assoc.
Qed.

Lemma run_length_encode_from cigar_v :
  Segment.run_length_encode cigar_v =
    match cigar_v with
    | [] => []
    | o :: cigar_v => encode_from (Segment.Run Segment.PyList o 1) cigar_v
    end.
Proof.
  unfold Segment.run_length_encode. destruct cigar_v as [|o cigar_v]; [done|].
  simpl. unfold Segment.encode_step at 2. simpl.
  apply (encode_loop_from [] (Segment.Run Segment.PyList o 1)).
Qed.

Lemma encode_from_head cur cigar_v :
  ∃ first tl, encode_from cur cigar_v = first :: tl ∧
    Segment.op first = Segment.op cur ∧ Segment.kind first = Segment.kind cur ∧
    Segment.occurences cur ≤ Segment.occurences first.
Proof.
  revert cur. induction cigar_v as [|o cigar_v IH]; intros cur; simpl.
  - by eexists _, _.
  - case_bool_decide.
    + destruct (IH (Segment.Run (Segment.kind cur) (Segment.op cur)
                      (Segment.occurences cur + 1)))
        as (first & tl & -> & Hop & Hk & Hocc).
      simpl in *. exists first, tl. repeat split; [done..|lia].
    + by eexists _, _.
Qed.

Lemma encode_from_lists cur cigar_v :
  Segment.kind cur = Segment.PyList → all_lists (encode_from cur cigar_v).
Proof.
  unfold all_lists. revert cur.
  induction cigar_v as [|o cigar_v IH]; intros cur Hk; simpl.
  - by repeat constructor.
  - case_bool_decide; [by apply IH|]. constructor; [done|]. by apply IH.
Qed.

Lemma encode_from_alternating cur cigar_v :
  alternating (encode_from cur cigar_v).
Proof.
  unfold alternating. revert cur.
  induction cigar_v as [|o cigar_v IH]; intros cur; simpl.
  - by repeat constructor.
  - case_bool_decide as Ho; [by apply IH|]. constructor; [by apply IH|].
    destruct (encode_from_head (Segment.Run Segment.PyList o 1) cigar_v)
      as (first & tl & -> & Hop & _).
    constructor. simpl in Hop. congruence.
Qed.

Lemma total_cons p buffer : total (p :: buffer) = Segment.occurences p + total buffer.
Proof. done. Qed.

Lemma encode_from_total cur cigar_v :
  total (encode_from cur cigar_v) = Segment.occurences cur + Z.of_nat (length cigar_v).
Proof.
  revert cur. induction cigar_v as [|o cigar_v IH]; intros cur.
  - cbn [encode_from length]. rewrite total_cons. unfold total. simpl. lia.
  - cbn [encode_from length]. case_bool_decide.
    + rewrite IH. cbn [Segment.occurences]. lia.
    + rewrite total_cons, IH. cbn [Segment.occurences]. lia.
Qed.

Lemma encode_from_replicate k o m (n : nat) rest :
  encode_from (Segment.Run k o m) (replicate n o ++ negb o :: rest) =
    Segment.Run k o (m + Z.of_nat n)
      :: encode_from (Segment.Run Segment.PyList (negb o) 1) rest.
Proof.
  revert m. induction n as [|n IH]; intros m;
    cbn [replicate app encode_from Segment.op Segment.kind Segment.occurences].
  - rewrite bool_decide_eq_false_2 by (by destruct o). by rewrite Z.add_0_r.
  - rewrite bool_decide_eq_true_2 by done. rewrite IH. do 2 f_equal. lia.
Qed.

Lemma run_length_encode_total cigar_v :
  total (Segment.run_length_encode cigar_v) = Z.of_nat (length cigar_v).
Proof.
  rewrite run_length_encode_from. destruct cigar_v as [|o cigar_v]; [done|].
  rewrite encode_from_total. simpl. lia.
Qed.

Lemma absorb_skip_total skip_tolerance buffer :
  total (Segment.absorb_skip skip_tolerance <$> buffer) = total buffer.
Proof.
  induction buffer as [|[k o n] buffer IH]; [done|]. rewrite fmap_cons.
  rewrite !total_cons, IH. unfold Segment.absorb_skip. simpl.
  by destruct (negb o && bool_decide (n ≤ skip_tolerance)).
Qed.

Lemma merge_from_total cur rest buffer2 :
  merge_from cur rest = Ok buffer2 →
  total buffer2 = Segment.occurences cur + total rest.
Proof.
  revert cur buffer2.
  induction rest as [|p rest IH]; intros cur buffer2; cbn [merge_from].
  - intros [= <-]. rewrite total_cons. unfold total. simpl. lia.
  - rewrite total_cons. case_bool_decide.
    + destruct (Segment.kind cur); [|done]. intros Hm%IH. simpl in Hm. lia.
    + destruct (merge_from p rest) as [b|] eqn:E; simpl; [|done].
      intros [= <-]. by rewrite total_cons, (IH _ _ E).
Qed.

Lemma total_nonneg buffer : positive_runs buffer → 0 ≤ total buffer.
Proof.
  induction 1 as [|p buffer Hp _ IH]; [done|]. rewrite total_cons. lia.
Qed.

Lemma to_regions_upper position buffer :
  positive_runs buffer →
  Forall (λ region, region.2 < position + total buffer)
         (Segment.to_regions position buffer).
Proof.
  revert position.
  induction buffer as [|[k o n] buffer IH]; intros position Hpos.
  { constructor. }
  apply Forall_cons in Hpos as [Hn Hpos]. simpl in Hn.
  pose proof (total_nonneg _ Hpos) as Htotal.
  specialize (IH (position + n) Hpos). rewrite total_cons.
  cbn [Segment.to_regions Segment.op Segment.occurences].
  assert (Forall (λ region : Z * Z, region.2 < position + (n + total buffer))
            (Segment.to_regions (position + n) buffer)) as IH'.
  { eapply Forall_impl; [done|]. simpl. lia. }
  destruct o; [|done]. constructor; [simpl; lia|done].
Qed.

Lemma absorb_skip_match skip_tolerance k n :
  Segment.absorb_skip skip_tolerance (Segment.Run k true n) = Segment.Run k true n.
Proof. done. Qed.

Lemma absorb_skip_short skip_tolerance k n :
  n ≤ skip_tolerance →
  Segment.absorb_skip skip_tolerance (Segment.Run k false n)
    = Segment.Run Segment.PyTuple true n.
Proof. intros Hn. unfold Segment.absorb_skip. simpl. by rewrite bool_decide_eq_true_2. Qed.

Lemma absorb_skip_long skip_tolerance k n :
  ¬ n ≤ skip_tolerance →
  Segment.absorb_skip skip_tolerance (Segment.Run k false n) = Segment.Run k false n.
Proof. intros Hn. unfold Segment.absorb_skip. simpl. by rewrite bool_decide_eq_false_2. Qed.

(** The merge of the absorbed runs goes through when the run in hand is a
    [list] and, if it is a skip, a run that is no skip comes next. *)
Lemma merge_from_safe skip_tolerance cur raw :
  Segment.kind cur = Segment.PyList →
  all_lists raw → alternating raw →
  (Segment.op cur = false → ∀ p, head raw = Some p → Segment.op p = true) →
  ∃ buffer2, merge_from cur (Segment.absorb_skip skip_tolerance <$> raw) = Ok buffer2.
Proof.
  revert cur. induction raw as [|p raw IH]; intros cur Hk Hl Halt Hnext.
  { by eexists. }
  rewrite fmap_cons.
  apply Forall_cons in Hl as [Hp Hl]. apply Sorted_inv in Halt as [Halt Hhd].
  assert (Segment.op p = false → ∀ q, head raw = Some q → Segment.op q = true)
    as Hafter.
  { intros Hop q Hq. destruct raw as [|q' raw]; [done|]. simpl in Hq.
    injection Hq as ->. apply HdRel_inv in Hhd. destruct (Segment.op q); [done|].
    congruence. }
  destruct p as [kp op np]. simpl in Hp, Hafter. subst kp.
  destruct cur as [kc oc nc]. simpl in Hk, Hnext. subst kc.
  destruct oc, op.
  - rewrite absorb_skip_match. simpl. apply IH; done.
  - destruct (decide (np ≤ skip_tolerance)) as [Hshort|Hlong].
    + rewrite absorb_skip_short by done. simpl. apply IH; done.
    + rewrite absorb_skip_long by done. simpl.
      destruct (IH (Segment.Run Segment.PyList false np)) as [b2 Hb2]; try done.
      rewrite Hb2. by eexists.
  - rewrite absorb_skip_match. simpl.
    destruct (IH (Segment.Run Segment.PyList true np)) as [b2 Hb2]; try done.
    rewrite Hb2. by eexists.
  - by specialize (Hnext eq_refl _ eq_refl).
Qed.

Lemma replicate_or_break (o : bool) (v : list bool) :
  ∃ n, v = replicate n o ∨ ∃ rest, v = replicate n o ++ negb o :: rest.
Proof.
  induction v as [|x v [n IH]].
  - exists 0%nat. by left.
  - destruct (decide (x = o)) as [->|Hx].
    + exists (S n). destruct IH as [->|[rest ->]]; [by left|right; by exists rest].
    + exists 0%nat. right. exists v. simpl. by destruct x, o.
Qed.

Lemma encode_from_replicate_end k o m (n : nat) :
  encode_from (Segment.Run k o m) (replicate n o) = [Segment.Run k o (m + Z.of_nat n)].
Proof.
  revert m. induction n as [|n IH]; intros m;
    cbn [replicate encode_from Segment.op Segment.kind Segment.occurences].
  - by rewrite Z.add_0_r.
  - rewrite bool_decide_eq_true_2 by done. rewrite IH. do 2 f_equal. lia.
Qed.

(** The merge of the runs of [cigar_v]. *)
Lemma merge_of_ops skip_tolerance cigar_v :
  (leading_short_skip cigar_v skip_tolerance →
   Segment.merge_adjacent (Segment.absorb_skip skip_tolerance
                             <$> Segment.run_length_encode cigar_v)
     = Raise TypeError) ∧
  (leading_short_skip cigar_v skip_tolerance ∨
   ∃ buffer2,
     Segment.merge_adjacent (Segment.absorb_skip skip_tolerance
                               <$> Segment.run_length_encode cigar_v)
       = Ok buffer2).
Proof.
  rewrite merge_adjacent_from, run_length_encode_from. split.
  - intros (n & rest & -> & Hn & Hst). destruct n as [|n]; [lia|].
    cbn [replicate app].
    rewrite (encode_from_replicate _ false), fmap_cons. cbn [negb].
    rewrite absorb_skip_short by lia.
    destruct (encode_from_head (Segment.Run Segment.PyList true 1) rest)
      as (first & tl & -> & Hop & Hk & _).
    destruct first as [k o m]. simpl in Hop, Hk. subst.
    by rewrite fmap_cons, absorb_skip_match.
  - destruct cigar_v as [|o cigar_v]; [right; by eexists|].
    destruct (replicate_or_break o cigar_v) as [n [->|[rest ->]]].
    + right. rewrite encode_from_replicate_end. rewrite fmap_cons, fmap_nil.
      by eexists.
    + rewrite encode_from_replicate, fmap_cons.
      pose proof (encode_from_lists (Segment.Run Segment.PyList (negb o) 1) rest
                    eq_refl) as Hl.
      pose proof (encode_from_alternating
                    (Segment.Run Segment.PyList (negb o) 1) rest) as Halt.
      destruct (encode_from_head (Segment.Run Segment.PyList (negb o) 1) rest)
        as (first & tl & Hraw & Hop & _).
      simpl in Hop.
      destruct o; cbn [negb] in *.
      * right. rewrite absorb_skip_match. by apply merge_from_safe.
      * destruct (decide (1 + Z.of_nat n ≤ skip_tolerance)) as [Hshort|Hlong].
        -- left. exists (S n), rest. split; [done|]. lia.
        -- right. rewrite absorb_skip_long by done.
           apply merge_from_safe; try done.
           intros _ p. rewrite Hraw. simpl. by intros [= <-].
Qed.

(** [_get_region_list] once the two fields it reads are there. *)
Lemma get_region_list_fields sam st mt pos_field position cigar expanded :
  split tab sam !! 3%nat = Some pos_field → int pos_field = Ok position →
  split tab sam !! 5%nat = Some cigar → Segment._expand_cigar cigar = Ok expanded →
  Segment._get_region_list sam st mt =
    buffer2 ← Segment.merge_adjacent
                 (Segment.absorb_skip st
                    <$> Segment.run_length_encode (reference_ops expanded));
    Ok (filter (λ region, ¬ (region.2 - region.1 + 1 < mt))
               (Segment.to_regions position buffer2),
        (left_flag (Segment.restrict_ops expanded) st,
         right_flag (Segment.restrict_ops expanded) st)).
Proof.
  intros Hpos Hint Hcigar Hexp. unfold Segment._get_region_list, index.
  rewrite Hpos, Hcigar. cbn [mbind result_bind]. rewrite Hint.
  cbn [mbind result_bind]. by rewrite Hexp.
Qed.

Lemma get_region_list_inv sam st mt regions flags :
  Segment._get_region_list sam st mt = Ok (regions, flags) →
  ∃ pos_field position cigar expanded,
    split tab sam !! 3%nat = Some pos_field ∧ int pos_field = Ok position ∧
    split tab sam !! 5%nat = Some cigar ∧ Segment._expand_cigar cigar = Ok expanded.
Proof.
  unfold Segment._get_region_list, index. intros Hget.
  destruct (split tab sam !! 3%nat) as [pos_field|]; [|done].
  cbn [mbind result_bind] in Hget.
  destruct (int pos_field) as [position|] eqn:Hint; [|done].
  destruct (split tab sam !! 5%nat) as [cigar|]; [|done].
  cbn [mbind result_bind] in Hget.
  destruct (Segment._expand_cigar cigar) as [expanded|] eqn:Hexp; [|done].
  by exists pos_field, position, cigar, expanded.
Qed.

(** X7. With POS and CIGAR readable, [_get_region_list] raises
    [TypeError] exactly when the reference-consuming ops of the CIGAR begin
    with a run of skips within the skip tolerance that an op that is no
    skip follows; in every other case it returns. *)
Theorem leading_skip_TypeError (sam : string) (st mt : Z)
    (pos_field cigar expanded : string) (position : Z) :
  split tab sam !! 3%nat = Some pos_field → int pos_field = Ok position →
  split tab sam !! 5%nat = Some cigar → Segment._expand_cigar cigar = Ok expanded →
  (leading_short_skip (reference_ops expanded) st ↔
   Segment._get_region_list sam st mt = Raise TypeError) ∧
  (¬ leading_short_skip (reference_ops expanded) st →
   ∃ regions flags, Segment._get_region_list sam st mt = Ok (regions, flags)).
Proof.
  intros Hpos Hint Hcigar Hexp.
  rewrite (get_region_list_fields _ _ _ _ _ _ _ Hpos Hint Hcigar Hexp).
  destruct (merge_of_ops st (reference_ops expanded)) as [Hraise Hor].
  split; [split|].
  - intros Hskip. by rewrite (Hraise Hskip).
  - destruct Hor as [Hskip|[buffer2 Hm]]; [done|]. by rewrite Hm.
  - intros Hno. destruct Hor as [Hskip|[buffer2 Hm]]; [done|].
    rewrite Hm. by eexists _, _.
Qed.

Lemma leading_skip_TypeError_witness :
  Segment._get_region_list (line_with_cigar "2D10M") 2 0 = Raise TypeError.
Proof.
  apply (leading_skip_TypeError (line_with_cigar "2D10M") 2 0 "100" "2D10M"
           "DDMMMMMMMMMM" 100); try by vm_compute.
  exists 2%nat, (replicate 9 true). split; [by vm_compute|]. split; [lia|simpl; lia].
Defined.

(** The runs from which [_get_region_list] reads its regions. *)
Lemma get_region_list_runs sam st mt regions flags :
  Segment._get_region_list sam st mt = Ok (regions, flags) →
  ∃ pos_field position cigar expanded buffer2,
    split tab sam !! 3%nat = Some pos_field ∧ int pos_field = Ok position ∧
    split tab sam !! 5%nat = Some cigar ∧
    Segment._expand_cigar cigar = Ok expanded ∧
    positive_runs buffer2 ∧
    total buffer2 = Z.of_nat (length (reference_ops expanded)) ∧
    regions = filter (λ region, ¬ (region.2 - region.1 + 1 < mt))
                (Segment.to_regions position buffer2).
Proof.
  intros Hget.
  destruct (get_region_list_inv _ _ _ _ _ Hget)
    as (pos_field & position & cigar & expanded & Hpos & Hint & Hcigar & Hexp).
  exists pos_field, position, cigar, expanded.
  rewrite (get_region_list_fields _ _ _ _ _ _ _ Hpos Hint Hcigar Hexp) in Hget.
  rewrite merge_adjacent_from in Hget.
  pose proof (absorb_skip_positive st _
                (run_length_encode_positive (reference_ops expanded))) as Hpositive.
  pose proof (absorb_skip_total st
                (Segment.run_length_encode (reference_ops expanded))) as Htotal.
  rewrite run_length_encode_total in Htotal.
  destruct (Segment.absorb_skip st <$> Segment.run_length_encode (reference_ops expanded))
    as [|p rest].
  { cbn [mbind result_bind] in Hget. injection Hget as <- _.
    exists []. by split_and!. }
  apply Forall_cons in Hpositive as [Hp Hrest].
  destruct (merge_from p rest) as [buffer2|] eqn:Hm; [|done].
  cbn [mbind result_bind] in Hget. injection Hget as <- _.
  destruct (merge_from_spec _ _ _ Hp Hrest Hm) as (Hpos2 & _ & _).
  pose proof (merge_from_total _ _ _ Hm) as Htotal2. rewrite total_cons in Htotal.
  exists buffer2. split_and!; try done. lia.
Qed.

Lemma get_region_list_wf sam st mt regions flags :
  Segment._get_region_list sam st mt = Ok (regions, flags) →
  Forall (λ region, region.1 ≤ region.2) regions.
Proof.
  intros (pos_field & position & cigar & expanded & buffer2 & _ & _ & _ & _
          & Hpositive & _ & ->)%get_region_list_runs.
  apply Forall_forall. intros region [_ Hin]%list_elem_of_filter.
  pose proof (to_regions_lower position buffer2 Hpositive) as Hlower.
  rewrite Forall_forall in Hlower. by destruct (Hlower _ Hin).
Qed.

(** X8. Every region that [_get_region_list] returns starts at POS or
    later, ends before POS plus the number of reference-consuming ops of
    the CIGAR, is not empty and is as long as the map tolerance asks. *)
Theorem region_list_span (sam : string) (st mt : Z)
    (regions : list (Z * Z)) (flags : bool * bool) :
  Segment._get_region_list sam st mt = Ok (regions, flags) →
  ∃ pos_field position cigar expanded,
    split tab sam !! 3%nat = Some pos_field ∧ int pos_field = Ok position ∧
    split tab sam !! 5%nat = Some cigar ∧
    Segment._expand_cigar cigar = Ok expanded ∧
    Forall (λ region,
        position ≤ region.1 ∧ region.1 ≤ region.2 ∧
        region.2 < position + Z.of_nat (length (reference_ops expanded)) ∧
        mt ≤ region.2 - region.1 + 1) regions.
Proof.
  intros (pos_field & position & cigar & expanded & buffer2 & Hpos & Hint & Hcigar
          & Hexp & Hpositive & Htotal & ->)%get_region_list_runs.
  exists pos_field, position, cigar, expanded. repeat (split; [done|]).
  pose proof (to_regions_lower position buffer2 Hpositive) as Hlower.
  pose proof (to_regions_upper position buffer2 Hpositive) as Hupper.
  apply Forall_forall. intros region [Hmt Hin]%list_elem_of_filter.
  rewrite Forall_forall in Hlower, Hupper.
  specialize (Hlower _ Hin). specialize (Hupper _ Hin). lia.
Qed.

Lemma region_list_span_witness :
  ∃ pos_field position cigar expanded,
    split tab mate2 !! 3%nat = Some pos_field ∧ int pos_field = Ok position ∧
    split tab mate2 !! 5%nat = Some cigar ∧
    Segment._expand_cigar cigar = Ok expanded ∧
    Forall (λ region,
        position ≤ region.1 ∧ region.1 ≤ region.2 ∧
        region.2 < position + Z.of_nat (length (reference_ops expanded)) ∧
        0 ≤ region.2 - region.1 + 1) [(21, 30); (41, 50)].
Proof.
  apply (region_list_span mate2 2 0 [(21, 30); (41, 50)] (true, false)).
  by vm_compute.
Defined.

Lemma splice_list_init_Raise id exons l r e :
  SpliceList.__init__ id exons l r = Raise e →
  e = OverlappingExonsError ∨ e = IndexError.
Proof.
  unfold SpliceList.__init__.
  destruct (check_overlap_spec (sorted fst exons)) as [[-> _]|[-> _]];
    [|intros [= <-]; by left].
  cbn [mbind result_bind].
  generalize (sorted fst exons ≫= SpliceList.exon_components). intros cs.
  assert (∀ cs', (if r then SpliceList.mark_last cs' else Ok (removelast cs'))
                   ≫= (λ components, Ok (SpliceList.Build id components)) = Raise e →
                 e = IndexError) as Hright.
  { intros cs'. destruct r; [|done]. unfold SpliceList.mark_last.
    destruct (last cs'); [done|]. by intros [= <-]. }
  destruct l.
  - unfold SpliceList.mark_first. destruct cs as [|c cs]; [intros [= <-]; by right|].
    cbn [mbind result_bind]. intros ?%Hright. by right.
  - cbn [mbind result_bind]. intros ?%Hright. by right.
Qed.

Lemma get_region_list_Raise_kinds sam st mt e :
  Segment._get_region_list sam st mt = Raise e →
  e = IndexError ∨ e = ValueError ∨ e = TypeError ∨
  (e = NoMappingError ∧ ∃ pos_field position,
     split tab sam !! 3%nat = Some pos_field ∧ int pos_field = Ok position ∧
     split tab sam !! 5%nat = Some "*"%string).
Proof.
  unfold Segment._get_region_list, index. intros Hget.
  destruct (split tab sam !! 3%nat) as [pos_field|];
    [|injection Hget as <-; by left].
  cbn [mbind result_bind] in Hget.
  destruct (int pos_field) as [position|] eqn:Hint;
    [|injection Hget as <-; apply int_Raise in Hint as ->; right; by left].
  destruct (split tab sam !! 5%nat) as [cigar|];
    [|injection Hget as <-; by left].
  cbn [mbind result_bind] in Hget.
  destruct (Segment._expand_cigar cigar) as [expanded|] eqn:Hexp.
  - cbn [mbind result_bind] in Hget. rewrite merge_adjacent_from in Hget.
    match type of Hget with
    | context [Segment.absorb_skip st <$> ?b] =>
        destruct (Segment.absorb_skip st <$> b) as [|p rest]
    end; [done|].
    destruct (merge_from p rest) as [buffer2|] eqn:Hm; [done|].
    injection Hget as <-. apply merge_from_Raise in Hm as ->. right. right. by left.
  - injection Hget as <-. unfold Segment._expand_cigar in Hexp.
    case_bool_decide as Hstar.
    + injection Hexp as <-. subst cigar. do 3 right. split; [done|].
      by exists pos_field, position.
    + apply expand_loop_Raise in Hexp as [->| ->]; right; [right|]; by left.
Qed.

Lemma get_region_list_star sam st mt pos_field position :
  split tab sam !! 3%nat = Some pos_field → int pos_field = Ok position →
  split tab sam !! 5%nat = Some "*"%string →
  Segment._get_region_list sam st mt = Raise NoMappingError.
Proof.
  intros Hpos Hint Hcigar. unfold Segment._get_region_list, index.
  rewrite Hpos, Hcigar. cbn [mbind result_bind]. by rewrite Hint.
Qed.

(** The exceptions of [Segment.__init__]. *)
Lemma segment_init_Raise sam st mt e :
  Segment.__init__ sam st mt = Raise e →
  e = IndexError ∨ e = ValueError ∨ e = TypeError ∨ e = NoMappingError.
Proof.
  unfold Segment.__init__.
  destruct (Segment._get_region_list sam st mt) as [[region_list flags]|e'] eqn:Hget.
  - cbn [mbind result_bind]. case_bool_decide; [intros [= <-]; by do 3 right|].
    unfold index. destruct (split tab sam !! 0%nat) as [qname|];
      [|intros [= <-]; by left].
    cbn [mbind result_bind].
    destruct (SpliceList.__init__ qname region_list flags.1 flags.2) as [sl|e'']
      eqn:Hsl; [done|].
    intros [= <-].
    destruct (splice_list_init_Raise _ _ _ _ _ Hsl) as [->| ->]; [|by left].
    exfalso. revert Hsl. apply init_not_overlapping, gaps_no_overlap.
    by eapply get_region_list_gaps.
  - intros [= <-].
    apply get_region_list_Raise_kinds in Hget as [->|[->|[->|[-> _]]]]; tauto.
Qed.

(** X9. [Segment.__init__] raises [NoMappingError] exactly when POS is
    readable and the CIGAR is [*], or when no region of the alignment is
    as long as the map tolerance asks. *)
Theorem segment_no_mapping (sam : string) (st mt : Z) :
  Segment.__init__ sam st mt = Raise NoMappingError ↔
  (∃ pos_field position,
     split tab sam !! 3%nat = Some pos_field ∧ int pos_field = Ok position ∧
     split tab sam !! 5%nat = Some "*"%string) ∨
  (∃ flags, Segment._get_region_list sam st mt = Ok ([], flags)).
Proof.
  unfold Segment.__init__. split.
  - destruct (Segment._get_region_list sam st mt) as [[region_list flags]|e] eqn:Hget.
    + cbn [mbind result_bind]. case_bool_decide as Hnil.
      * intros _. right. exists flags. by subst.
      * unfold index. destruct (split tab sam !! 0%nat) as [qname|]; [|done].
        cbn [mbind result_bind].
        destruct (SpliceList.__init__ qname region_list flags.1 flags.2) as [sl|e]
          eqn:Hsl; [done|].
        intros [= ->]. by apply splice_list_init_Raise in Hsl as [|].
    + intros [= ->]. left.
      by apply get_region_list_Raise_kinds in Hget as [|[|[|[_ ?]]]].
  - intros [(pos_field & position & Hpos & Hint & Hcigar)|[flags Hget]].
    + by rewrite (get_region_list_star _ _ _ _ _ Hpos Hint Hcigar).
    + by rewrite Hget.
Qed.

Lemma segment_no_mapping_witness :
  Segment.__init__ (line_with_cigar "*") 2 0 = Raise NoMappingError ∧
  Segment.__init__ (line_with_cigar "5M") 2 6 = Raise NoMappingError.
Proof.
  split.
  - apply (segment_no_mapping (line_with_cigar "*") 2 0). left.
    exists "100"%string, 100. by vm_compute.
  - apply (segment_no_mapping (line_with_cigar "5M") 2 6). right.
    exists (false, false). by vm_compute.
Defined.

(** What [Segment.__init__] returns, when it returns. *)
Lemma segment_init_inv sam st mt segment :
  Segment.__init__ sam st mt = Ok segment →
  ∃ region_list flags sl,
    Segment._get_region_list sam st mt = Ok (region_list, flags) ∧
    region_list ≠ [] ∧
    SpliceList.__init__ (Grouping._get_qname sam) region_list flags.1 flags.2 = Ok sl ∧
    segment = Segment.Build sam sl.
Proof.
  unfold Segment.__init__.
  destruct (Segment._get_region_list sam st mt) as [[region_list flags]|] eqn:Hget;
    [|done].
  cbn [mbind result_bind]. case_bool_decide as Hne; [done|].
  unfold index, Grouping._get_qname.
  destruct (split tab sam) as [|qname fields]; [done|]. simpl.
  destruct (SpliceList.__init__ qname region_list flags.1 flags.2) as [sl|] eqn:Hsl;
    [|done].
  cbn [mbind result_bind]. intros [= <-]. by exists region_list, flags, sl.
Qed.

(** The regions of a segment cover a position. *)
Lemma segment_covers sam st mt segment :
  Segment.__init__ sam st mt = Ok segment →
  ∃ z, covered (SpliceList.regions (Segment.splice_list segment)) z.
Proof.
  intros (region_list & flags & sl & Hget & Hne & Hsl & ->)%segment_init_inv.
  destruct (init_regions _ _ _ _ _ Hsl) as [_ Hregions]. cbn [Segment.splice_list].
  rewrite Hregions.
  pose proof (get_region_list_wf _ _ _ _ _ Hget) as Hwf.
  rewrite <- (sorted_perm fst region_list) in Hwf.
  destruct (sorted fst region_list) as [|region regions] eqn:Hsorted.
  { by apply sorted_nil_inv in Hsorted. }
  apply Forall_cons in Hwf as [Hregion _].
  exists region.1, (exon_region region). split; [by left|]. simpl. lia.
Qed.

(** X10. The SpliceList of a segment has the QNAME of the line as
    identifier and the regions of [_get_region_list], in their order, at
    least one. *)
Theorem segment_regions (sam : string) (st mt : Z) (segment : Segment.t) :
  Segment.__init__ sam st mt = Ok segment →
  ∃ region_list flags,
    Segment._get_region_list sam st mt = Ok (region_list, flags) ∧
    region_list ≠ [] ∧
    SpliceList.identifier (Segment.splice_list segment) = Grouping._get_qname sam ∧
    SpliceList.regions (Segment.splice_list segment) = exon_region <$> region_list.
Proof.
  intros (region_list & flags & sl & Hget & Hne & Hsl & ->)%segment_init_inv.
  exists region_list, flags.
  destruct (init_regions _ _ _ _ _ Hsl) as [Hid Hregions].
  repeat split; [done..|]. simpl. rewrite Hregions. f_equal. apply sorted_id.
  apply get_region_list_gaps in Hget.
  eapply Sorted_weaken; [|done]. unfold region_gap. intros a b. simpl. lia.
Qed.

Lemma segment_regions_witness :
  ∃ region_list flags,
    Segment._get_region_list mate2 2 0 = Ok (region_list, flags) ∧
    region_list ≠ [] ∧
    SpliceList.identifier (Segment.splice_list mate2_segment)
      = Grouping._get_qname mate2 ∧
    SpliceList.regions (Segment.splice_list mate2_segment)
      = exon_region <$> region_list.
Proof. apply (segment_regions mate2 2 0 mate2_segment). by vm_compute. Defined.

(** ** Read grouping and [get_transcripts] *)

Lemma filter_list_elem p alignments kept x :
  Grouping.filter_list p alignments = Ok kept →
  x ∈ kept ↔ x ∈ alignments ∧ p x = Ok true.
Proof.
  revert kept. induction alignments as [|a alignments IH]; intros kept;
    cbn [Grouping.filter_list].
  { intros [= <-]. split; [by intros ?%elem_of_nil|by intros [?%elem_of_nil _]]. }
  destruct (p a) as [b|] eqn:Hpa; [|done]. cbn [mbind result_bind].
  destruct (Grouping.filter_list p alignments) as [k|]; [|done].
  cbn [mbind result_bind]. intros [= <-]. specialize (IH k eq_refl).
  destruct b.
  - rewrite !elem_of_cons, IH. split.
    + intros [->|[? ?]]; (split; [|done]); [by left|by right].
    + intros [[->|?] ?]; [by left|by right].
  - rewrite elem_of_cons, IH. split.
    + intros [? ?]. split; [by right|done].
    + intros [[->|?] Hp]; [congruence|done].
Qed.

Lemma filter_list_total p alignments kept x :
  Grouping.filter_list p alignments = Ok kept → x ∈ alignments → ∃ b, p x = Ok b.
Proof.
  revert kept. induction alignments as [|a alignments IH]; intros kept;
    cbn [Grouping.filter_list].
  { by intros _ ?%elem_of_nil. }
  destruct (p a) as [b|] eqn:Hpa; [|done]. cbn [mbind result_bind].
  destruct (Grouping.filter_list p alignments) as [k|]; [|done].
  intros _ [->|Hx]%elem_of_cons; [by exists b|]. by apply (IH k).
Qed.

Lemma filter_list_Raise p alignments e :
  Grouping.filter_list p alignments = Raise e → ∃ x, p x = Raise e.
Proof.
  induction alignments as [|a alignments IH]; cbn [Grouping.filter_list]; [done|].
  destruct (p a) as [b|e'] eqn:Hpa; [|intros [= <-]; by exists a].
  cbn [mbind result_bind].
  destruct (Grouping.filter_list p alignments) as [k|]; [done|].
  cbn [mbind result_bind]. intros [= <-]. by apply IH.
Qed.

Lemma get_flags_Raise line e :
  Grouping._get_flags line = Raise e → e = IndexError ∨ e = ValueError.
Proof.
  unfold Grouping._get_flags.
  destruct (index (split tab line) 1) as [flags|] eqn:Hindex.
  - cbn [mbind result_bind]. intros ->%int_Raise. by right.
  - intros [= <-]. apply index_Raise in Hindex as ->. by left.
Qed.

Lemma flag_test_Raise (p : string → result bool) line e :
  p = Grouping.is_grouped ∨ p = Grouping.is_ungrouped ∨
  p = Grouping.is_first_segment ∨ p = Grouping.is_last_segment ∨
  p = Grouping.is_middle_segment →
  p line = Raise e → e = IndexError ∨ e = ValueError.
Proof.
  intros [->|[->|[->|[->| ->]]]];
    unfold Grouping.is_middle_segment, Grouping.is_ungrouped, Grouping.is_grouped,
      Grouping.is_first_segment, Grouping.is_last_segment;
    destruct (Grouping._get_flags line) as [flags|e'] eqn:Hflags;
    cbn [mbind result_bind fmap result_fmap]; try done;
    try (intros [= <-]; by eapply get_flags_Raise).
  destruct (negb _); done.
Qed.

Lemma next_name_Raise line e : Grouping.next_name line = Raise e → e = IndexError.
Proof.
  unfold Grouping.next_name, Grouping._get_rnext.
  destruct (index (split tab line) 6) as [rnext|] eqn:Hindex; [done|].
  intros [= <-]. by apply index_Raise in Hindex.
Qed.

Lemma consider_middles_Raise grouped_middle rnext e :
  Grouping.consider_middles grouped_middle rnext = Raise e → e = IndexError.
Proof.
  revert rnext. induction grouped_middle as [|consider rest IH]; intros rnext;
    cbn [Grouping.consider_middles]; [done|].
  destruct rnext as [name|]; [|done]. case_bool_decide.
  - destruct (Grouping.next_name consider) as [rnext|] eqn:Hnext;
      [|intros [= <-]; by apply next_name_Raise in Hnext].
    cbn [mbind result_bind].
    destruct (Grouping.consider_middles rest rnext) as [[[taken kept] rnext']|] eqn:Hm;
      [done|].
    intros [= <-]. by eapply IH.
  - destruct (Grouping.consider_middles rest (Some name))
      as [[[taken kept] rnext']|] eqn:Hm; [done|].
    intros [= <-]. by eapply IH.
Qed.

Lemma first_loop_Raise firsts st e :
  foldl Grouping.first_step (Ok st) firsts = Raise e → e = IndexError.
Proof.
  revert st. induction firsts as [|a firsts IH]; intros st; cbn [foldl]; [done|].
  destruct (Grouping.first_step (Ok st) a) as [st1|e'] eqn:Hstep; [by apply IH|].
  rewrite first_step_Raise. intros [= <-].
  unfold Grouping.first_step in Hstep. cbn [mbind result_bind] in Hstep.
  destruct (Grouping.next_name a) as [rnext|] eqn:Hnext;
    [|injection Hstep as <-; by apply next_name_Raise in Hnext].
  cbn [mbind result_bind] in Hstep.
  destruct (Grouping.consider_middles (Grouping.st_grouped_middle st) rnext)
    as [[[middles kept] rnext']|] eqn:Hm;
    [|injection Hstep as <-; by apply consider_middles_Raise in Hm].
  cbn [mbind result_bind] in Hstep.
  destruct (Grouping.consider_lasts _ _). by case_bool_decide.
Qed.

(** The steps of [_get_read_groups], when it returns. *)
Lemma get_read_groups_inv alignments groups :
  Grouping._get_read_groups alignments = Ok groups →
  ∃ ungrouped grouped firsts lasts middles st,
    Grouping.filter_list Grouping.is_ungrouped (strip <$> alignments) = Ok ungrouped ∧
    Grouping.filter_list Grouping.is_grouped (strip <$> alignments) = Ok grouped ∧
    Grouping.filter_list Grouping.is_first_segment grouped = Ok firsts ∧
    Grouping.filter_list Grouping.is_last_segment grouped = Ok lasts ∧
    Grouping.filter_list Grouping.is_middle_segment grouped = Ok middles ∧
    foldl Grouping.first_step (Ok (Grouping.State middles lasts [] [])) firsts = Ok st ∧
    groups = Grouping.st_read_groups st
      ++ ((λ alignment, [alignment]) <$> ungrouped)
      ++ ((λ alignment, [alignment]) <$>
            Grouping.st_grouped_orphans st ++ Grouping.st_grouped_middle st
            ++ Grouping.st_grouped_last st).
Proof.
  unfold Grouping._get_read_groups.
  destruct (Grouping.filter_list Grouping.is_ungrouped (strip <$> alignments))
    as [ungrouped|] eqn:Hu; [|done].
  cbn [mbind result_bind].
  destruct (Grouping.filter_list Grouping.is_grouped (strip <$> alignments))
    as [grouped|] eqn:Hg; [|done].
  cbn [mbind result_bind].
  destruct (Grouping.filter_list Grouping.is_first_segment grouped)
    as [firsts|] eqn:Hf; [|done].
  cbn [mbind result_bind].
  destruct (Grouping.filter_list Grouping.is_last_segment grouped)
    as [lasts|] eqn:Hl; [|done].
  cbn [mbind result_bind].
  destruct (Grouping.filter_list Grouping.is_middle_segment grouped)
    as [middles|] eqn:Hm; [|done].
  cbn [mbind result_bind].
  destruct (foldl Grouping.first_step _ firsts) as [st|] eqn:Hloop; [|done].
  cbn [mbind result_bind]. intros [= <-].
  by exists ungrouped, grouped, firsts, lasts, middles, st.
Qed.

Lemma get_read_groups_Raise alignments e :
  Grouping._get_read_groups alignments = Raise e → e = IndexError ∨ e = ValueError.
Proof.
  unfold Grouping._get_read_groups.
  destruct (Grouping.filter_list Grouping.is_ungrouped (strip <$> alignments))
    as [ungrouped|] eqn:H1;
    [|intros [= <-]; apply filter_list_Raise in H1 as [x Hx];
      eapply flag_test_Raise; [|done]; tauto].
  cbn [mbind result_bind].
  destruct (Grouping.filter_list Grouping.is_grouped (strip <$> alignments))
    as [grouped|] eqn:H2;
    [|intros [= <-]; apply filter_list_Raise in H2 as [x Hx];
      eapply flag_test_Raise; [|done]; tauto].
  cbn [mbind result_bind].
  destruct (Grouping.filter_list Grouping.is_first_segment grouped)
    as [firsts|] eqn:H3;
    [|intros [= <-]; apply filter_list_Raise in H3 as [x Hx];
      eapply flag_test_Raise; [|done]; tauto].
  cbn [mbind result_bind].
  destruct (Grouping.filter_list Grouping.is_last_segment grouped)
    as [lasts|] eqn:H4;
    [|intros [= <-]; apply filter_list_Raise in H4 as [x Hx];
      eapply flag_test_Raise; [|done]; tauto].
  cbn [mbind result_bind].
  destruct (Grouping.filter_list Grouping.is_middle_segment grouped)
    as [middles|] eqn:H5;
    [|intros [= <-]; apply filter_list_Raise in H5 as [x Hx];
      eapply flag_test_Raise; [|done]; tauto].
  cbn [mbind result_bind].
  destruct (foldl Grouping.first_step _ firsts) as [st|] eqn:Hloop; [done|].
  intros [= <-]. apply first_loop_Raise in Hloop. by left.
Qed.

Lemma read_groups_sub alignments groups :
  Grouping._get_read_groups alignments = Ok groups →
  concat groups ⊆ strip <$> alignments.
Proof.
  intros (ungrouped & grouped & firsts & lasts & middles & st
          & Hu & Hg & Hf & Hl & Hm & Hloop & ->)%get_read_groups_inv.
  apply first_loop_perm in Hloop. unfold held in Hloop.
  cbn [Grouping.st_read_groups Grouping.st_grouped_orphans
       Grouping.st_grouped_middle Grouping.st_grouped_last] in Hloop.
  rewrite !concat_app, !concat_singletons. intros line.
  pose proof (elem_of_Permutation_proper line _ _ Hloop) as Hiff.
  simpl in Hiff. rewrite !elem_of_app in Hiff. rewrite !elem_of_app.
  apply filter_list_sub in Hu, Hg, Hf, Hl, Hm.
  intros [?|[?|?]]; [apply Hg|by apply Hu|apply Hg].
  - assert (line ∈ firsts ∨ line ∈ middles ∨ line ∈ lasts) as [?|[?|?]] by tauto; auto.
  - assert (line ∈ firsts ∨ line ∈ middles ∨ line ∈ lasts) as [?|[?|?]] by tauto; auto.
Qed.

(** X11. The read groups hold the stripped input lines and nothing else:
    every line of a group is an input line, and every input line is in
    some group. *)
Theorem grouping_lines (alignments : list string) (groups : list (list string))
    (line : string) :
  Grouping._get_read_groups alignments = Ok groups →
  line ∈ concat groups ↔ line ∈ strip <$> alignments.
Proof.
  intros (ungrouped & grouped & firsts & lasts & middles & st
          & Hu & Hg & Hf & Hl & Hm & Hloop & ->)%get_read_groups_inv.
  apply first_loop_perm in Hloop. unfold held in Hloop.
  cbn [Grouping.st_read_groups Grouping.st_grouped_orphans
       Grouping.st_grouped_middle Grouping.st_grouped_last] in Hloop.
  rewrite !concat_app, !concat_singletons.
  assert (line ∈ concat (Grouping.st_read_groups st) ++ ungrouped
                 ++ Grouping.st_grouped_orphans st ++ Grouping.st_grouped_middle st
                 ++ Grouping.st_grouped_last st
          ↔ line ∈ ungrouped ∨ line ∈ firsts ∨ line ∈ middles ∨ line ∈ lasts) as ->.
  { rewrite !elem_of_app.
    pose proof (elem_of_Permutation_proper line _ _ Hloop) as Hiff.
    simpl in Hiff. rewrite !elem_of_app in Hiff. tauto. }
  rewrite (filter_list_elem _ _ _ line Hu), (filter_list_elem _ _ _ line Hf),
    (filter_list_elem _ _ _ line Hm), (filter_list_elem _ _ _ line Hl),
    !(filter_list_elem _ _ _ line Hg).
  split; [tauto|]. intros Hline.
  destruct (filter_list_total _ _ _ line Hg Hline) as [b Hb].
  unfold Grouping.is_middle_segment, Grouping.is_ungrouped, Grouping.is_grouped,
    Grouping.is_first_segment, Grouping.is_last_segment in *.
  destruct (Grouping._get_flags line) as [flags|]; [|done].
  cbn [mbind result_bind fmap result_fmap] in *.
  destruct (bool_decide (Z.land flags 1 = 1)); cbn [negb]; [|tauto].
  destruct (bool_decide (Z.land flags 64 = 64)); cbn [negb mbind result_bind];
    [tauto|].
  destruct (bool_decide (Z.land flags 128 = 128)); cbn [negb fmap result_fmap]; tauto.
Qed.

Lemma grouping_lines_witness :
  pair_last ∈ concat [[pair_first; pair_last]; [single_line]].
Proof.
  apply (grouping_lines [single_line; pair_last; pair_first]
           [[pair_first; pair_last]; [single_line]] pair_last).
  - by vm_compute.
  - apply list_elem_of_In. vm_compute. tauto.
Defined.

Lemma linked_cons a group :
  linked (a :: group) ↔
  (∀ b, head group = Some b →
        Grouping.next_name a = Ok (Some (Grouping._get_qname b))) ∧
  linked group.
Proof.
  unfold linked. split.
  - intros Hl. split.
    + intros b Hb. apply (Hl 0%nat); [done|]. by destruct group; simplify_eq/=.
    + intros i x y Hx Hy. by apply (Hl (S i)).
  - intros [Hhd Hl] [|i] x y Hx Hy; simplify_eq/=.
    + apply Hhd. by destruct group; simplify_eq/=.
    + by eapply Hl.
Qed.

Lemma consider_middles_chain grouped_middle rnext taken kept final :
  Grouping.consider_middles grouped_middle rnext = Ok (taken, kept, final) →
  chain_to rnext taken final.
Proof.
  revert rnext taken kept.
  induction grouped_middle as [|consider rest IH]; intros rnext taken kept;
    cbn [Grouping.consider_middles].
  { by destruct rnext; intros [= <- <- <-]. }
  destruct rnext as [name|]; [|by intros [= <- <- <-]].
  case_bool_decide as Hname.
  - destruct (Grouping.next_name consider) as [rnext|] eqn:Hnext; [|done].
    cbn [mbind result_bind].
    destruct (Grouping.consider_middles rest rnext) as [[[taken' kept'] final']|] eqn:Hm;
      [|done].
    cbn [mbind result_bind]. intros [= <- <- <-]. simpl. split; [by subst|].
    exists rnext. split; [done|]. by eapply IH.
  - destruct (Grouping.consider_middles rest (Some name))
      as [[[taken' kept'] final']|] eqn:Hm; [|done].
    cbn [mbind result_bind]. intros [= <- <- <-]. by eapply IH.
Qed.

Lemma consider_lasts_taken grouped_last rnext taken kept :
  Grouping.consider_lasts grouped_last rnext = (taken, kept) →
  taken = [] ∨ ∃ consider, taken = [consider] ∧
                           rnext = Some (Grouping._get_qname consider).
Proof.
  revert taken kept. induction grouped_last as [|consider rest IH]; intros taken kept;
    cbn [Grouping.consider_lasts].
  { intros [= <- <-]. by left. }
  case_bool_decide as Hname.
  - intros [= <- <-]. right. by exists consider.
  - destruct (Grouping.consider_lasts rest rnext) as [taken' kept'].
    intros [= <- <-]. by eapply IH.
Qed.

Lemma chain_linked a rnext middles final lasts :
  Grouping.next_name a = Ok rnext → chain_to rnext middles final →
  (lasts = [] ∨ ∃ consider, lasts = [consider] ∧
                            final = Some (Grouping._get_qname consider)) →
  linked (a :: middles ++ lasts).
Proof.
  revert a rnext. induction middles as [|m middles IH]; intros a rnext Hnext Hchain Hlast.
  - simpl in Hchain. subst final. destruct Hlast as [->|(c & -> & ->)]; simpl.
    + intros [|i] x y Hx Hy; simplify_eq/=.
    + apply linked_cons. split; [by intros b [= <-]|].
      intros [|i] x y Hx Hy; simplify_eq/=.
  - destruct Hchain as [-> (r & Hr & Hchain)]. simpl.
    apply linked_cons. split; [by intros b [= <-]|]. by eapply IH.
Qed.

Lemma first_loop_groups middles lasts todo st0 st :
  (∀ line, line ∈ todo →
     Grouping.is_grouped line = Ok true ∧
     Grouping.is_first_segment line = Ok true) →
  (∀ line, line ∈ middles ∨ line ∈ lasts →
     Grouping.is_grouped line = Ok true ∧
     (Grouping.is_middle_segment line = Ok true ∨
      Grouping.is_last_segment line = Ok true)) →
  foldl Grouping.first_step (Ok st0) todo = Ok st →
  Grouping.st_grouped_middle st0 ⊆ middles →
  Grouping.st_grouped_last st0 ⊆ lasts →
  (∀ g, g ∈ Grouping.st_read_groups st0 →
     g ≠ [] ∧ linked g ∧ ((1 < length g)%nat → first_then_others g)) →
  ∀ g, g ∈ Grouping.st_read_groups st →
    g ≠ [] ∧ linked g ∧ ((1 < length g)%nat → first_then_others g).
Proof.
  intros Hfirsts Hothers. revert st0 Hfirsts.
  induction todo as [|alignment todo IH]; intros st0 Hfirsts; cbn [foldl].
  { by intros [= ->] _ _ Hinit. }
  destruct (Grouping.first_step (Ok st0) alignment) as [st1|] eqn:Hstep;
    [|by rewrite first_step_Raise].
  intros Hloop Hmid Hlast Hinit.
  destruct (Hfirsts alignment) as [Hgrouped Hfirst]; [by left|].
  unfold Grouping.first_step in Hstep. cbn [mbind result_bind] in Hstep.
  destruct (Grouping.next_name alignment) as [rnext|] eqn:Hnext; [|done].
  cbn [mbind result_bind] in Hstep.
  destruct (Grouping.consider_middles (Grouping.st_grouped_middle st0) rnext)
    as [[[taken_m kept_m] final]|] eqn:Hcm; [|done].
  cbn [mbind result_bind] in Hstep.
  destruct (Grouping.consider_lasts (Grouping.st_grouped_last st0) final)
    as [taken_l kept_l] eqn:Hcl.
  pose proof (consider_middles_chain _ _ _ _ _ Hcm) as Hchain.
  pose proof (consider_lasts_taken _ _ _ _ Hcl) as Htaken.
  pose proof (consider_middles_perm _ _ _ _ _ Hcm) as Hpm.
  pose proof (consider_lasts_perm _ _ _ _ Hcl) as Hpl.
  assert (taken_m ⊆ middles ∧ kept_m ⊆ middles) as [Htm Hkm].
  { split; intros x Hx; apply Hmid; rewrite <- Hpm, elem_of_app; tauto. }
  assert (taken_l ⊆ lasts ∧ kept_l ⊆ lasts) as [Htl Hkl].
  { split; intros x Hx; apply Hlast; rewrite <- Hpl, elem_of_app; tauto. }
  apply (IH st1); try done.
  - intros line Hline. apply Hfirsts. by right.
  - revert Hstep. by case_bool_decide; intros [= <-].
  - revert Hstep. by case_bool_decide; intros [= <-].
  - revert Hstep. case_bool_decide; intros [= <-]; [done|].
    cbn [Grouping.st_read_groups]. intros g [Hg| ->%list_elem_of_singleton]%elem_of_app;
      [by apply Hinit|].
    split; [done|]. split; [by eapply chain_linked|]. intros _.
    exists alignment, (taken_m ++ taken_l). repeat split; [done..|].
    apply Forall_forall. intros x [Hx|Hx]%elem_of_app; apply Hothers; auto.
Qed.

(** X12. In every read group each line but the first has the QNAME that
    the RNEXT of the line before it names, no group is empty, and a group
    of more than one line begins with a line marked as first segment and
    goes on with lines marked as middle or last segments. *)
Theorem read_groups_linked (alignments : list string) (groups : list (list string))
    (group : list string) :
  Grouping._get_read_groups alignments = Ok groups →
  group ∈ groups →
  group ≠ [] ∧ linked group ∧ ((1 < length group)%nat → first_then_others group).
Proof.
  intros (ungrouped & grouped & firsts & lasts & middles & st
          & Hu & Hg & Hf & Hl & Hm & Hloop & ->)%get_read_groups_inv.
  assert (∀ l : list string, group ∈ (λ alignment, [alignment]) <$> l →
            group ≠ [] ∧ linked group ∧
            ((1 < length group)%nat → first_then_others group)) as Hsingle.
  { intros l (x & -> & _)%list_elem_of_fmap. split; [done|]. split.
    - intros [|i] a b Ha Hb; simplify_eq/=.
    - simpl. lia. }
  rewrite !elem_of_app. intros [Hin|[Hin|Hin]]; [|by eapply Hsingle..].
  revert Hin.
  apply (first_loop_groups middles lasts firsts
           (Grouping.State middles lasts [] []) st); try done.
  - intros line [Hgr Hfirst]%(filter_list_elem _ _ _ line Hf).
    by apply (filter_list_elem _ _ _ line Hg) in Hgr as [_ ?].
  - intros line [[Hgr ?]%(filter_list_elem _ _ _ line Hm)
                |[Hgr ?]%(filter_list_elem _ _ _ line Hl)];
      apply (filter_list_elem _ _ _ line Hg) in Hgr as [_ ?]; tauto.
  - by intros g ?%elem_of_nil.
Qed.

Lemma read_groups_linked_witness :
  linked [pair_first; pair_last] ∧ first_then_others [pair_first; pair_last].
Proof.
  destruct (read_groups_linked [single_line; pair_last; pair_first]
              [[pair_first; pair_last]; [single_line]] [pair_first; pair_last])
    as (_ & Hlinked & Hshape).
  - by vm_compute.
  - apply list_elem_of_here.
  - split; [done|]. apply Hshape. simpl. lia.
Defined.

(** *** [get_transcripts] *)

Lemma build_segments_Raise lines st mt e :
  Transcript.build_segments lines st mt = Raise e →
  e = IndexError ∨ e = ValueError ∨ e = TypeError.
Proof.
  induction lines as [|line lines IH]; cbn [Transcript.build_segments]; [done|].
  destruct (Segment.__init__ line st mt) as [seg|e'] eqn:Hseg.
  - destruct (Transcript.build_segments lines st mt); [done|].
    cbn [mbind result_bind]. intros [= <-]. by apply IH.
  - destruct (segment_init_Raise _ _ _ _ Hseg) as [->|[->|[->| ->]]]; simpl;
      try (intros [= <-]; tauto). apply IH.
Qed.

Lemma transcript_init_Raise lines st mt e :
  Transcript.__init__ lines st mt = Raise e →
  e = IndexError ∨ e = ValueError ∨ e = TypeError ∨ e = NoMappedSegmentsError.
Proof.
  unfold Transcript.__init__.
  destruct (Transcript.build_segments lines st mt) as [segs|e'] eqn:Hbuild.
  - cbn [mbind result_bind]. destruct segs; [|done]. intros [= <-]. tauto.
  - intros [= <-]. apply build_segments_Raise in Hbuild. tauto.
Qed.

Lemma build_transcripts_Raise groups st mt e :
  Grouping.build_transcripts groups st mt = Raise e →
  e = IndexError ∨ e = ValueError ∨ e = TypeError.
Proof.
  induction groups as [|group groups IH]; cbn [Grouping.build_transcripts]; [done|].
  destruct (Transcript.__init__ group st mt) as [t|e'] eqn:Ht.
  - destruct (Grouping.build_transcripts groups st mt); [done|].
    cbn [mbind result_bind]. intros [= <-]. by apply IH.
  - destruct (transcript_init_Raise _ _ _ _ Ht) as [->|[->|[->| ->]]];
      try (intros [= <-]; tauto). apply IH.
Qed.

Lemma build_transcripts_filter groups st mt transcripts :
  Grouping.build_transcripts groups st mt = Ok transcripts →
  Forall2 (λ group t, Transcript.__init__ group st mt = Ok t)
    (filter (λ group, succeeds (Transcript.__init__ group st mt) = true) groups)
    transcripts.
Proof.
  revert transcripts. induction groups as [|group groups IH]; intros transcripts;
    cbn [Grouping.build_transcripts].
  - intros [= <-]. constructor.
  - destruct (Transcript.__init__ group st mt) as [t|e] eqn:Ht.
    + destruct (Grouping.build_transcripts groups st mt) as [ts|]; [|done].
      cbn [mbind result_bind]. intros [= <-].
      rewrite filter_cons_True by (by rewrite Ht). constructor; [done|by apply IH].
    + rewrite filter_cons_False by (by rewrite Ht).
      destruct e; try done; apply IH.
Qed.

(** X13. [get_transcripts] raises nothing but [IndexError], [ValueError]
    and [TypeError]: a line or a group without mapping costs no
    exception. *)
Theorem get_transcripts_errors (alignments : list string) (st mt : Z) (e : exn) :
  Grouping.get_transcripts alignments st mt = Raise e →
  e = IndexError ∨ e = ValueError ∨ e = TypeError.
Proof.
  unfold Grouping.get_transcripts.
  destruct (Grouping._get_read_groups alignments) as [groups|e'] eqn:Hgroups.
  - cbn [mbind result_bind]. apply build_transcripts_Raise.
  - intros [= <-]. apply get_read_groups_Raise in Hgroups. tauto.
Qed.

Lemma get_transcripts_errors_witness :
  ValueError = IndexError ∨ ValueError = ValueError ∨ ValueError = TypeError.
Proof.
  apply (get_transcripts_errors
           [join_tab ["r1"; "0"; "chrX"; "x"; "60"; "10M"]%string] 2 0).
  by vm_compute.
Defined.

Lemma Forall2_elem_of_r {A B} (P : A → B → Prop) l k y :
  Forall2 P l k → y ∈ k → ∃ x, x ∈ l ∧ P x y.
Proof.
  induction 1 as [|x y' l k Hxy _ IH]; [by intros ?%elem_of_nil|].
  intros [->|Hy]%elem_of_cons.
  - exists x. split; [by left|done].
  - destruct (IH Hy) as (x' & ? & ?). exists x'. split; [by right|done].
Qed.

(** X14. Every transcript that [get_transcripts] returns is the
    transcript of one of the read groups, in the order of the groups; it
    has at least one segment, and the line of each of its segments is one
    of the stripped input lines. *)
Theorem get_transcripts_lines (alignments : list string) (st mt : Z)
    (transcripts : list Transcript.t) :
  Grouping.get_transcripts alignments st mt = Ok transcripts →
  ∃ groups,
    Grouping._get_read_groups alignments = Ok groups ∧
    Forall2 (λ group t, Transcript.__init__ group st mt = Ok t)
      (filter (λ group, succeeds (Transcript.__init__ group st mt) = true) groups)
      transcripts ∧
    Forall (λ t,
        Transcript.segments t ≠ [] ∧
        Forall (λ segment, Segment.sam segment ∈ strip <$> alignments)
               (Transcript.segments t)) transcripts.
Proof.
  unfold Grouping.get_transcripts.
  destruct (Grouping._get_read_groups alignments) as [groups|] eqn:Hgroups; [|done].
  cbn [mbind result_bind]. intros Hbuild%build_transcripts_filter.
  exists groups. split; [done|]. split; [done|].
  apply Forall_forall. intros t Ht.
  destruct (Forall2_elem_of_r _ _ _ _ Hbuild Ht)
    as (group & [_ Hgroup]%list_elem_of_filter & Hinit).
  destruct (transcript_sams _ _ _ _ Hinit) as [Hne Hsams]. split; [done|].
  apply Forall_forall. intros segment Hsegment.
  apply (read_groups_sub _ _ Hgroups), elem_of_concat. exists group. split; [|done].
  assert (Segment.sam segment ∈ Segment.sam <$> Transcript.segments t) as Hsam.
  { apply list_elem_of_fmap. by exists segment. }
  rewrite Hsams in Hsam. by apply list_elem_of_filter in Hsam as [_ ?].
Qed.

Lemma get_transcripts_lines_witness :
  ∃ groups,
    Grouping._get_read_groups [mate1; mate2] = Ok groups ∧
    Forall2 (λ group t, Transcript.__init__ group 2 0 = Ok t)
      (filter (λ group, succeeds (Transcript.__init__ group 2 0) = true) groups)
      [pair_of_mates] ∧
    Forall (λ t,
        Transcript.segments t ≠ [] ∧
        Forall (λ segment, Segment.sam segment ∈ strip <$> [mate1; mate2])
               (Transcript.segments t)) [pair_of_mates].
Proof. apply (get_transcripts_lines [mate1; mate2] 2 0 [pair_of_mates]). by vm_compute. Defined.

(** ** [Annotations.__init__] *)

Lemma init_both_ends id exons :
  exons ≠ [] → ¬ adjacent_overlap (sorted fst exons) →
  ∃ v, SpliceList.__init__ id exons true true = Ok v.
Proof.
  intros Hne Hno.
  assert (sorted fst exons ≠ []) as Hne' by (by intros ?%sorted_nil_inv).
  destruct (components_shape _ Hne') as (e1 & en & M & _ & _ & Hc & _).
  rewrite (init_shape _ _ _ _ _ _ _ Hno Hc). by eexists.
Qed.

Lemma init_overlapping id exons l r :
  adjacent_overlap (sorted fst exons) →
  SpliceList.__init__ id exons l r = Raise OverlappingExonsError.
Proof.
  intros Hov. unfold SpliceList.__init__.
  by destruct (check_overlap_spec (sorted fst exons)) as [[_ ?]|[-> _]].
Qed.

Lemma normalised_nil_inv exons : normalised exons = [] → exons = [].
Proof.
  unfold normalised. destruct (first_reversed exons); [|done].
  intros Hnil%sorted_nil_inv. by apply fmap_nil_inv in Hnil.
Qed.

Lemma close_variant_normalised st :
  Annotations.st_exons st ≠ [] →
  Annotations.close_variant st =
    variant ← SpliceList.__init__ (Annotations.st_current_variant st)
                 (normalised (Annotations.st_exons st)) true true;
    Ok (Annotations.State
          (Some (match Annotations.st_precursor_start st with
                 | None => first_start (normalised (Annotations.st_exons st))
                 | Some p => Z.min p (first_start (normalised (Annotations.st_exons st)))
                 end))
          (Some (match Annotations.st_precursor_end st with
                 | None => last_stop (normalised (Annotations.st_exons st))
                 | Some p => Z.max p (last_stop (normalised (Annotations.st_exons st)))
                 end))
          (Annotations.st_variants st ++ [variant])
          (normalised (Annotations.st_exons st))
          (Annotations.st_current_variant st)).
Proof.
  intros Hne. pose proof (normalised_nil_inv (Annotations.st_exons st)) as Hnorm.
  unfold Annotations.close_variant, index, index_last, first_start, last_stop.
  unfold normalised, first_reversed in *.
  destruct (Annotations.st_exons st) as [|first_exon exons]; [done|].
  cbn [lookup list_lookup mbind result_bind].
  set (exons' := if bool_decide (first_exon.1 > first_exon.2)
                 then sorted fst (Annotations.sorted_pair <$> first_exon :: exons)
                 else first_exon :: exons) in *.
  destruct (SpliceList.__init__ _ exons' true true) as [v|]; [|done].
  cbn [mbind result_bind].
  destruct exons' as [|e es] eqn:He; [by specialize (Hnorm eq_refl)|].
  cbn [lookup list_lookup mbind result_bind].
  destruct (last (e :: es)) as [last_exon|] eqn:Hlast; [done|].
  by apply last_None in Hlast.
Qed.

Lemma close_variant_total st :
  Annotations.st_exons st ≠ [] →
  (overlapping_group (Annotations.st_current_variant st, Annotations.st_exons st) ∧
   Annotations.close_variant st = Raise OverlappingExonsError) ∨
  (¬ overlapping_group (Annotations.st_current_variant st, Annotations.st_exons st) ∧
   ∃ st', Annotations.close_variant st = Ok st' ∧
          Annotations.st_exons st' ≠ []).
Proof.
  intros Hne. rewrite close_variant_normalised by done. unfold overlapping_group.
  cbn [snd].
  destruct (check_overlap_spec (sorted fst (normalised (Annotations.st_exons st))))
    as [[_ Hno]|[_ Hov]].
  - right. split; [done|].
    destruct (init_both_ends (Annotations.st_current_variant st)
                (normalised (Annotations.st_exons st))) as [v ->]; [|done|].
    + by intros ?%normalised_nil_inv.
    + cbn [mbind result_bind]. eexists. split; [done|]. simpl.
      by intros ?%normalised_nil_inv.
  - left. split; [done|]. by rewrite init_overlapping.
Qed.

Lemma triple_step_same st triple :
  triple.2 = Annotations.st_current_variant st →
  Annotations.triple_step (Ok st) triple =
    Ok (Annotations.State (Annotations.st_precursor_start st)
          (Annotations.st_precursor_end st) (Annotations.st_variants st)
          (Annotations.st_exons st ++ [triple.1])
          (Annotations.st_current_variant st)).
Proof.
  intros Hid. unfold Annotations.triple_step. cbn [mbind result_bind].
  by rewrite bool_decide_eq_true_2.
Qed.

Lemma triple_step_other st triple :
  triple.2 ≠ Annotations.st_current_variant st →
  Annotations.triple_step (Ok st) triple =
    st' ← Annotations.close_variant st;
    Ok (Annotations.State (Annotations.st_precursor_start st')
          (Annotations.st_precursor_end st') (Annotations.st_variants st')
          [triple.1] triple.2).
Proof.
  intros Hid. unfold Annotations.triple_step. cbn [mbind result_bind].
  by rewrite bool_decide_eq_false_2.
Qed.

(** The loop over the exon triples and the closing of the last group:
    every group is built, or the first overlapping one stops it. *)
Lemma triples_loop_total rows st :
  Annotations.st_exons st ≠ [] ∨
    (∃ triple rest, rows = triple :: rest ∧
                    triple.2 = Annotations.st_current_variant st) →
  (Exists overlapping_group
     (groups_from (Annotations.st_current_variant st) (Annotations.st_exons st) rows) ∧
   foldl Annotations.triple_step (Ok st) rows ≫= Annotations.close_variant
     = Raise OverlappingExonsError) ∨
  (Forall (λ g, ¬ overlapping_group g)
     (groups_from (Annotations.st_current_variant st) (Annotations.st_exons st) rows) ∧
   ∃ st', foldl Annotations.triple_step (Ok st) rows ≫= Annotations.close_variant
            = Ok st').
Proof.
  revert st. induction rows as [|triple rows IH]; intros st Hne;
    cbn [foldl groups_from].
  - destruct Hne as [Hne|(? & ? & ? & _)]; [|done].
    cbn [mbind result_bind].
    destruct (close_variant_total st Hne) as [[Hov ->]|[Hno (st' & -> & _)]].
    + left. split; [by constructor|done].
    + right. split; [by repeat constructor|by eexists].
  - destruct (decide (triple.2 = Annotations.st_current_variant st)) as [Hid|Hid].
    + rewrite bool_decide_eq_true_2, triple_step_same by done.
      specialize (IH (Annotations.State (Annotations.st_precursor_start st)
                        (Annotations.st_precursor_end st) (Annotations.st_variants st)
                        (Annotations.st_exons st ++ [triple.1])
                        (Annotations.st_current_variant st))).
      cbn [Annotations.st_exons Annotations.st_current_variant] in IH.
      apply IH. left. by destruct (Annotations.st_exons st).
    + rewrite bool_decide_eq_false_2, triple_step_other by done.
      assert (Annotations.st_exons st ≠ []) as Hne'.
      { destruct Hne as [?|(t & rest & [= <- <-] & ?)]; done. }
      destruct (close_variant_total st Hne') as [[Hov ->]|[Hno (st' & -> & _)]].
      * left. split; [by constructor|]. cbn [mbind result_bind].
        by rewrite triple_step_Raise.
      * cbn [mbind result_bind].
        specialize (IH (Annotations.State (Annotations.st_precursor_start st')
                          (Annotations.st_precursor_end st')
                          (Annotations.st_variants st') [triple.1] triple.2)).
        cbn [Annotations.st_exons Annotations.st_current_variant] in IH.
        destruct IH as [[Hex Hraise]|[Hall Hok]]; [by left|..].
        -- left. split; [by apply Exists_cons_tl|done].
        -- right. split; [by constructor|done].
Qed.

Lemma init_pre_mRNA lo hi :
  ∃ pre_mRNA, SpliceList.__init__ "pre-mRNA" [(lo, hi)] true true = Ok pre_mRNA.
Proof. by eexists. Qed.

Lemma from_triples_total triple rows :
  (Exists overlapping_group (groups_of (triple :: rows)) ∧
   Annotations.from_triples (triple :: rows) = Raise OverlappingExonsError) ∨
  (Forall (λ g, ¬ overlapping_group g) (groups_of (triple :: rows)) ∧
   ∃ ann, Annotations.from_triples (triple :: rows) = Ok ann).
Proof.
  unfold Annotations.from_triples, groups_of, index.
  cbn [lookup list_lookup mbind result_bind].
  set (st0 := Annotations.State None None [] [] triple.2).
  destruct (triples_loop_total (triple :: rows) st0) as [[Hex Hraise]|[Hall [st' Hok]]].
  - right. by exists triple, rows.
  - left. split; [done|].
    destruct (foldl Annotations.triple_step (Ok st0) (triple :: rows)) as [st1|e];
      cbn [mbind result_bind] in *; [by rewrite Hraise|by injection Hraise as ->].
  - right. split; [done|].
    destruct (foldl Annotations.triple_step (Ok st0) (triple :: rows)) as [st1|];
      cbn [mbind result_bind] in *; [|done].
    rewrite Hok. cbn [mbind result_bind].
    rewrite close_variant_normalised in Hok.
    + destruct (SpliceList.__init__ _ _ true true); [|done].
      cbn [mbind result_bind] in Hok. injection Hok as <-.
      cbn [Annotations.st_precursor_start Annotations.st_precursor_end].
      by eexists.
    + intros Hnil. unfold Annotations.close_variant in Hok. by rewrite Hnil in Hok.
Qed.

(** X15. Without exon rows the annotations cannot be built
    ([IndexError]); with exon rows they are built exactly when no group of
    rows has overlapping exons, and [OverlappingExonsError] is raised
    otherwise. *)
Theorem annotations_outcome (rows : list (Z * Z * string)) :
  (rows = [] → Annotations.from_triples rows = Raise IndexError) ∧
  (rows ≠ [] → Exists overlapping_group (groups_of rows) →
   Annotations.from_triples rows = Raise OverlappingExonsError) ∧
  (rows ≠ [] → Forall (λ g, ¬ overlapping_group g) (groups_of rows) →
   ∃ ann, Annotations.from_triples rows = Ok ann).
Proof.
  split; [by intros ->|].
  split; intros Hne Hgroups; (destruct rows as [|triple rows]; [done|]);
    destruct (from_triples_total triple rows) as [[Hex Hraise]|[Hall Hok]];
    try done.
  - exfalso. apply Exists_exists in Hgroups as (g & Hg & Hov).
    rewrite Forall_forall in Hall. by apply (Hall g).
  - exfalso. apply Exists_exists in Hex as (g & Hg & Hov).
    rewrite Forall_forall in Hgroups. by apply (Hgroups g).
Qed.

Lemma annotations_outcome_witness :
  Annotations.from_triples [(1, 10, "T"); (5, 20, "T")]%string
    = Raise OverlappingExonsError ∧
  ∃ ann, Annotations.from_triples [(1, 10, "T"); (15, 20, "T"); (1, 30, "U")]%string
           = Ok ann.
Proof.
  split.
  - apply (annotations_outcome [(1, 10, "T"); (5, 20, "T")]%string); [done|].
    apply Exists_cons_hd. exists 0%nat, (1, 10), (5, 20). by vm_compute.
  - apply (annotations_outcome [(1, 10, "T"); (15, 20, "T"); (1, 30, "U")]%string);
      [done|].
    assert (groups_of [(1, 10, "T"); (15, 20, "T"); (1, 30, "U")]%string
            = [("T", [(1, 10); (15, 20)]); ("U", [(1, 30)])]%string) as ->
      by (by vm_compute).
    repeat constructor.
    + intros (i & a & b & Ha & Hb & Hab).
      destruct i as [|[|i]]; vm_compute in Ha, Hb; simplify_eq. simpl in Hab. lia.
    + intros (i & a & b & Ha & Hb & Hab).
      destruct i as [|i]; vm_compute in Ha, Hb; simplify_eq.
Defined.

Lemma pre_mRNA_of_ascending_rows_witness :
  ∃ vs pre_mRNA lo hi,
    Annotations.variants example_annotations = vs ++ [pre_mRNA] ∧
    SpliceList.regions pre_mRNA = [Region.__init__ lo hi] ∧
    is_minimum lo ((λ triple, triple.1.1) <$> ascending_rows) ∧
    is_maximum hi ((λ triple, triple.1.2) <$> ascending_rows).
Proof.
  apply (pre_mRNA_of_ascending_rows ascending_rows example_annotations).
  - assert (groups_of ascending_rows = [("T", [(10, 50); (100, 200)])]%string) as ->
      by (by vm_compute).
    repeat constructor; simpl; lia.
  - by vm_compute.
Defined.

(** ** [SpliceList.join] *)

Lemma exon_loop_from mapped exons start prev :
  ∃ exons' start',
    SpliceList.exon_loop mapped exons (Some start) prev = (exons', Some start') ∧
    exons' ++ [(start', default prev (last mapped))]
      = exons ++ exons_from start prev mapped.
Proof.
  revert exons start prev.
  induction mapped as [|pos mapped IH]; intros exons start prev;
    cbn [SpliceList.exon_loop exons_from].
  { by eexists _, _. }
  assert (default prev (last (pos :: mapped)) = default pos (last mapped)) as ->.
  { rewrite last_cons. by destruct (last mapped). }
  case_bool_decide as Hnext.
  - replace (prev + 1) with pos by lia. apply IH.
  - destruct (IH (exons ++ [(start, prev)]) pos pos) as (exons' & start' & -> & Heq).
    exists exons', start'. split; [done|]. by rewrite Heq, <- app_assoc.
Qed.

Lemma merged_exons_cons pos mapped :
  SpliceList.merged_exons (pos :: mapped) = Returned (exons_from pos pos mapped).
Proof.
  unfold SpliceList.merged_exons. cbn [SpliceList.exon_loop].
  destruct (exon_loop_from mapped [] pos pos) as (exons' & start' & -> & Heq).
  rewrite last_cons. simpl in Heq. rewrite <- Heq. by destruct (last mapped).
Qed.

Lemma exons_from_spec start prev mapped :
  start ≤ prev → Sorted Z.lt (prev :: mapped) →
  Sorted region_gap (exons_from start prev mapped) ∧
  Forall (λ exon, exon.1 ≤ exon.2) (exons_from start prev mapped) ∧
  (∃ exon tl, exons_from start prev mapped = exon :: tl ∧ exon.1 = start) ∧
  ∀ z, (∃ exon, exon ∈ exons_from start prev mapped ∧ exon.1 ≤ z ≤ exon.2)
       ↔ (start ≤ z ≤ prev ∨ z ∈ mapped).
Proof.
  revert start prev. induction mapped as [|pos mapped IH]; intros start prev Hle Hs;
    cbn [exons_from].
  - split; [by repeat constructor|]. split; [by repeat constructor|].
    split; [by eexists _, _|]. intros z. split.
    + intros (exon & ->%list_elem_of_singleton & Hz). by left.
    + intros [Hz|?%elem_of_nil]; [|done]. exists (start, prev).
      split; [apply list_elem_of_here|done].
  - apply Sorted_inv in Hs as [Hs Hhd]. apply HdRel_inv in Hhd.
    case_bool_decide as Hnext.
    + destruct (IH start pos) as (Hsorted & Hwf & Hhead & Hcover); [lia|done|].
      split; [done|]. split; [done|]. split; [done|].
      intros z. rewrite Hcover, elem_of_cons.
      assert (start ≤ z ≤ pos ↔ start ≤ z ≤ prev ∨ z = pos) as -> by lia. tauto.
    + destruct (IH pos pos) as (Hsorted & Hwf & (exon & tl & Heq & Hstart) & Hcover);
        [lia|done|].
      split; [|split; [|split]].
      * constructor; [done|]. rewrite Heq. constructor.
        rewrite Heq in Hwf. apply Forall_cons in Hwf as [Hexon _].
        unfold region_gap. simpl. lia.
      * by constructor.
      * by eexists _, _.
      * intros z. split.
        -- intros (e & [->|He]%elem_of_cons & Hz); [by left|].
           assert (pos ≤ z ≤ pos ∨ z ∈ mapped) as [?|?]
             by (apply Hcover; by exists e).
           ++ right. apply elem_of_cons. left. lia.
           ++ right. by apply elem_of_cons; right.
        -- intros [Hz|[->|Hz]%elem_of_cons].
           ++ exists (start, prev). split; [apply list_elem_of_here|done].
           ++ destruct (proj2 (Hcover pos)) as (e & He & Hz); [left; lia|].
              exists e. split; [by apply elem_of_cons; right|done].
           ++ destruct (proj2 (Hcover z)) as (e & He & Hz'); [by right|].
              exists e. split; [by apply elem_of_cons; right|done].
Qed.

Lemma Sorted_le_lt l : Sorted Z.le l → NoDup l → Sorted Z.lt l.
Proof.
  induction 1 as [|x l Hs IH Hhd]; [constructor|].
  intros [Hx Hnd]%NoDup_cons. constructor; [by apply IH|].
  destruct Hhd as [|y l Hxy]; constructor.
  assert (x ≠ y) by (intros ->; apply Hx; by left). lia.
Qed.

(** [sorted(list(a_set))]: the elements in ascending order, each once,
    whatever the enumeration of the set. *)
Lemma sorted_set set_iter (X : gset Z) :
  (∀ X, set_iter X ≡ₚ elements X) →
  Sorted Z.lt (sorted (λ pos, pos) (set_iter X)) ∧
  ∀ z, z ∈ sorted (λ pos, pos) (set_iter X) ↔ z ∈ X.
Proof.
  intros Hperm.
  assert (sorted (λ pos : Z, pos) (set_iter X) ≡ₚ elements X) as Hp
    by (by rewrite sorted_perm).
  split.
  - apply Sorted_le_lt.
    + apply (sorted_Sorted (λ pos : Z, pos)).
    + rewrite Hp. apply NoDup_elements.
  - intros z. by rewrite Hp, elem_of_elements.
Qed.

Section omap_sorted.
Context {A B : Type} (f : A → option B) (keyA : A → Z) (keyB : B → Z).
Hypothesis Hkey : ∀ x y, f x = Some y → keyB y = keyA x.

Lemma omap_HdRel (y : B) (l : list A) :
  Forall (λ a, keyB y ≤ keyA a) l →
  HdRel (λ a b, keyB a ≤ keyB b) y (omap f l).
Proof.
  intros Hall. destruct (omap f l) as [|b bs] eqn:Hb; constructor.
  assert (b ∈ omap f l) as (a & Ha & Hfa)%list_elem_of_omap
    by (rewrite Hb; by left).
  rewrite Forall_forall in Hall. rewrite (Hkey _ _ Hfa). by apply Hall.
Qed.

Lemma omap_insert_by x l :
  Sorted (λ a b, keyA a ≤ keyA b) l →
  omap f (insert_by keyA x l) =
    match f x with
    | Some y => insert_by keyB y (omap f l)
    | None => omap f l
    end.
Proof.
  intros Hs. apply Sorted_StronglySorted in Hs; [|intros a b c; lia].
  induction Hs as [|a l Hs IH Hall]; cbn [insert_by].
  - simpl. by destruct (f x).
  - case_bool_decide as Hxa.
    + csimpl. destruct (f x) as [y|] eqn:Hfx; [|done].
      symmetry. apply (insert_by_HdRel keyB).
      apply (omap_HdRel y (a :: l)). rewrite (Hkey _ _ Hfx).
      constructor; [done|]. eapply Forall_impl; [done|]. simpl. lia.
    + csimpl. rewrite IH.
      destruct (f a) as [b|] eqn:Hfa; [|done].
      destruct (f x) as [y|] eqn:Hfx; [|done].
      cbn [insert_by]. rewrite bool_decide_eq_false_2; [done|].
      rewrite (Hkey _ _ Hfx), (Hkey _ _ Hfa). lia.
Qed.

(** A stable sort and a filter commute. *)
Lemma omap_sorted l : omap f (sorted keyA l) = sorted keyB (omap f l).
Proof.
  induction l as [|x l IH]; [done|]. cbn [sorted].
  rewrite omap_insert_by by apply sorted_Sorted.
  csimpl. rewrite IH. by destruct (f x).
Qed.
End omap_sorted.

Lemma omap_regions (rs : list Region.t) (js : list Junction.t) :
  omap as_region ((CRegion <$> rs) ++ (CJunction <$> js)) = rs.
Proof.
  rewrite omap_app.
  assert (omap as_region (CJunction <$> js) = []) as ->
    by (induction js; [done|by csimpl]).
  rewrite app_nil_r. induction rs as [|r rs IH]; [done|]. csimpl. by rewrite IH.
Qed.

Lemma omap_junctions (rs : list Region.t) (js : list Junction.t) :
  omap as_junction ((CRegion <$> rs) ++ (CJunction <$> js)) = js.
Proof.
  rewrite omap_app.
  assert (omap as_junction (CRegion <$> rs) = []) as ->
    by (induction rs; [done|by csimpl]).
  cbn [app]. induction js as [|j js IH]; [done|]. csimpl. by rewrite IH.
Qed.

Lemma covered_exons exons z :
  covered (exon_region <$> exons) z ↔ ∃ exon, exon ∈ exons ∧ exon.1 ≤ z ≤ exon.2.
Proof.
  unfold covered. split.
  - intros (r & (exon & -> & Hexon)%list_elem_of_fmap & Hz). by exists exon.
  - intros (exon & Hexon & Hz). exists (exon_region exon). split; [|done].
    apply list_elem_of_fmap. by exists exon.
Qed.

(** What [join] returns, when it returns. *)
Lemma join_inv set_iter junction_iter sl1 sl2 sl :
  SpliceList.join set_iter junction_iter sl1 sl2 = Returned sl →
  ∃ X pos mapped,
    SpliceList.positions (SpliceList.regions sl1 ++ SpliceList.regions sl2) = Ok X ∧
    sorted (λ pos, pos) (set_iter X) = pos :: mapped ∧
    SpliceList.regions sl = sorted Region.start (exon_region <$> exons_from pos pos mapped) ∧
    SpliceList.junctions sl =
      sorted Junction.position
        (filter (λ j, SpliceList.keep_junction (pos :: mapped) j = true)
           (junction_iter (SpliceList.junctions sl1) (SpliceList.junctions sl2))).
Proof.
  unfold SpliceList.join.
  destruct (SpliceList.positions (SpliceList.regions sl1 ++ SpliceList.regions sl2))
    as [X|]; [|done].
  cbn [of_result mbind outcome_bind].
  destruct (sorted (λ pos, pos) (set_iter X)) as [|pos mapped] eqn:Hmapped; [done|].
  rewrite merged_exons_cons. cbn [mbind outcome_bind]. intros [= <-].
  exists X, pos, mapped. split; [done|]. split; [done|].
  unfold SpliceList.regions, SpliceList.junctions. cbn [SpliceList.components].
  split.
  - rewrite (omap_sorted as_region SpliceList.component_key Region.start)
      by (by intros [r|j] y [= <-]).
    by rewrite omap_regions.
  - rewrite (omap_sorted as_junction SpliceList.component_key Junction.position)
      by (by intros [r|j] y [= <-]).
    by rewrite omap_junctions.
Qed.

Lemma join_positions set_iter junction_iter sl1 sl2 X :
  SpliceList.positions (SpliceList.regions sl1 ++ SpliceList.regions sl2) = Ok X →
  SpliceList.join set_iter junction_iter sl1 sl2 =
    match sorted (λ pos, pos) (set_iter X) with
    | [] => RaisedUnboundLocalError
    | _ => SpliceList.join set_iter junction_iter sl1 sl2
    end.
Proof.
  intros HX. unfold SpliceList.join. rewrite HX. cbn [of_result mbind outcome_bind].
  by destruct (sorted (λ pos, pos) (set_iter X)).
Qed.

(** The regions of a joined SpliceList. *)
Lemma join_regions_spec set_iter junction_iter sl1 sl2 sl :
  (∀ X, set_iter X ≡ₚ elements X) →
  SpliceList.join set_iter junction_iter sl1 sl2 = Returned sl →
  Sorted region_order (SpliceList.regions sl) ∧
  Forall (λ r, Region.start r ≤ Region.stop r) (SpliceList.regions sl) ∧
  ∀ z, covered (SpliceList.regions sl) z
       ↔ covered (SpliceList.regions sl1 ++ SpliceList.regions sl2) z.
Proof.
  intros Hperm (X & pos & mapped & HX & Hmapped & Hregions & _)%join_inv.
  destruct (sorted_set set_iter X Hperm) as [Hsorted Helem].
  rewrite Hmapped in Hsorted, Helem.
  destruct (exons_from_spec pos pos mapped) as (Hgap & Hwf & _ & Hcover); [lia|done|].
  assert (Sorted region_order (exon_region <$> exons_from pos pos mapped)) as Horder.
  { eapply Sorted_fmap; [|done]. by intros [a b] [c d]. }
  rewrite sorted_id in Hregions.
  2: { eapply Sorted_weaken; [|done]. unfold region_order. intros a b. lia. }
  rewrite Hregions. split; [done|]. split.
  - apply Forall_fmap. eapply Forall_impl; [done|]. by intros [a b].
  - intros z. rewrite covered_exons, Hcover, <- (elem_of_positions _ _ _ HX).
    rewrite <- Helem, elem_of_cons.
    assert (pos ≤ z ≤ pos ↔ z = pos) as -> by lia. tauto.
Qed.

Lemma join_covered set_iter junction_iter sl1 sl2 z :
  (∀ X, set_iter X ≡ₚ elements X) →
  covered (SpliceList.regions sl1 ++ SpliceList.regions sl2) z →
  ∃ sl, SpliceList.join set_iter junction_iter sl1 sl2 = Returned sl.
Proof.
  intros Hperm Hz. unfold SpliceList.join.
  destruct (SpliceList.positions (SpliceList.regions sl1 ++ SpliceList.regions sl2))
    as [X|e] eqn:HX.
  - cbn [of_result mbind outcome_bind].
    apply (elem_of_positions _ _ _ HX) in Hz.
    apply (sorted_set set_iter X Hperm) in Hz.
    destruct (sorted (λ pos, pos) (set_iter X)) as [|pos mapped];
      [by apply elem_of_nil in Hz|].
    rewrite merged_exons_cons. cbn [mbind outcome_bind]. by eexists.
  - apply positions_Raise in HX as [Hnil _]. destruct Hz as (r & Hr & _).
    rewrite Hnil in Hr. by apply elem_of_nil in Hr.
Qed.

(** X16. The regions of a joined SpliceList cover exactly the positions
    that the regions of the two lists cover; they are in ascending order,
    none is empty and two neighbours leave at least one position
    between them. *)
Theorem join_regions (set_iter : gset Z → list Z)
    (junction_iter : list Junction.t → list Junction.t → list Junction.t)
    (sl1 sl2 sl : SpliceList.t) :
  (∀ X, set_iter X ≡ₚ elements X) →
  SpliceList.join set_iter junction_iter sl1 sl2 = Returned sl →
  Sorted region_order (SpliceList.regions sl) ∧
  Forall (λ r, Region.start r ≤ Region.stop r) (SpliceList.regions sl) ∧
  ∀ z, covered (SpliceList.regions sl) z
       ↔ covered (SpliceList.regions sl1) z ∨ covered (SpliceList.regions sl2) z.
Proof.
  intros Hperm Hjoin.
  destruct (join_regions_spec _ _ _ _ _ Hperm Hjoin) as (Hs & Hwf & Hcover).
  split; [done|]. split; [done|]. intros z. rewrite Hcover. unfold covered. split.
  - intros (r & [Hr|Hr]%elem_of_app & Hz); [left|right]; by exists r.
  - intros [(r & Hr & Hz)|(r & Hr & Hz)]; exists r; (split; [|done]);
      apply elem_of_app; [by left|by right].
Qed.

(** X17. A junction of the two lists is a junction of the joined
    SpliceList exactly when the position next to it, on the side away
    from its exon, is covered by no region of the two lists. *)
Theorem join_junctions (set_iter : gset Z → list Z)
    (junction_iter : list Junction.t → list Junction.t → list Junction.t)
    (sl1 sl2 sl : SpliceList.t) (j : Junction.t) :
  (∀ X, set_iter X ≡ₚ elements X) →
  (∀ l1 l2 j, j ∈ junction_iter l1 l2 ↔ j ∈ l1 ∨ j ∈ l2) →
  SpliceList.join set_iter junction_iter sl1 sl2 = Returned sl →
  j ∈ SpliceList.junctions sl ↔
  (j ∈ SpliceList.junctions sl1 ∨ j ∈ SpliceList.junctions sl2) ∧
  ¬ covered (SpliceList.regions sl1 ++ SpliceList.regions sl2) (outer_position j).
Proof.
  intros Hperm Hiter (X & pos & mapped & HX & Hmapped & _ & Hjunctions)%join_inv.
  destruct (sorted_set set_iter X Hperm) as [_ Helem]. rewrite Hmapped in Helem.
  rewrite Hjunctions, (sorted_perm Junction.position), list_elem_of_filter, Hiter.
  rewrite <- (elem_of_positions _ _ _ HX), <- Helem.
  unfold SpliceList.keep_junction, outer_position.
  destruct (Junction.type j); rewrite bool_decide_eq_true; tauto.
Qed.

(** X18. [join] raises [TypeError] when neither list has a region, fails
    on its unbound loop variable when there are regions and all of them
    are empty, and returns as soon as the regions cover a position. *)
Theorem join_outcome (set_iter : gset Z → list Z)
    (junction_iter : list Junction.t → list Junction.t → list Junction.t)
    (sl1 sl2 : SpliceList.t) :
  (∀ X, set_iter X ≡ₚ elements X) →
  (SpliceList.regions sl1 ++ SpliceList.regions sl2 = [] →
   SpliceList.join set_iter junction_iter sl1 sl2 = Raised TypeError) ∧
  (SpliceList.regions sl1 ++ SpliceList.regions sl2 ≠ [] →
   (∀ z, ¬ covered (SpliceList.regions sl1 ++ SpliceList.regions sl2) z) →
   SpliceList.join set_iter junction_iter sl1 sl2 = RaisedUnboundLocalError) ∧
  (∀ z, covered (SpliceList.regions sl1 ++ SpliceList.regions sl2) z →
        ∃ sl, SpliceList.join set_iter junction_iter sl1 sl2 = Returned sl).
Proof.
  intros Hperm. split; [|split].
  - intros Hnil. unfold SpliceList.join. by rewrite Hnil.
  - intros Hne Hnone.
    destruct (SpliceList.positions (SpliceList.regions sl1 ++ SpliceList.regions sl2))
      as [X|e] eqn:HX; [|by apply positions_Raise in HX as [? _]].
    rewrite (join_positions _ _ _ _ _ HX).
    destruct (sorted (λ pos, pos) (set_iter X)) as [|pos mapped] eqn:Hmapped; [done|].
    exfalso. apply (Hnone pos), (elem_of_positions _ _ _ HX).
    apply (sorted_set set_iter X Hperm). rewrite Hmapped. by left.
  - intros z Hz. by eapply join_covered.
Qed.

Lemma join_regions_witness :
  Sorted region_order (SpliceList.regions joined_example) ∧
  Forall (λ r, Region.start r ≤ Region.stop r) (SpliceList.regions joined_example) ∧
  ∀ z, covered (SpliceList.regions joined_example) z
       ↔ covered (SpliceList.regions two_exons) z ∨ covered (SpliceList.regions bridge) z.
Proof.
  apply (join_regions elements junctions_in_order two_exons bridge joined_example).
  - done.
  - by vm_compute.
Defined.

Lemma join_junctions_witness :
  Junction.Build 10 TYPE_END None false ∈ SpliceList.junctions joined_example ↔
  (Junction.Build 10 TYPE_END None false ∈ SpliceList.junctions two_exons ∨
   Junction.Build 10 TYPE_END None false ∈ SpliceList.junctions bridge) ∧
  ¬ covered (SpliceList.regions two_exons ++ SpliceList.regions bridge)
      (outer_position (Junction.Build 10 TYPE_END None false)).
Proof.
  apply (join_junctions elements junctions_in_order two_exons bridge joined_example).
  - done.
  - intros l1 l2 j. apply elem_of_app.
  - by vm_compute.
Defined.

Lemma join_outcome_witness :
  SpliceList.join elements junctions_in_order (test_splice_list []) (test_splice_list [])
    = Raised TypeError ∧
  SpliceList.join elements junctions_in_order (test_splice_list [(5, 4)])
    (test_splice_list []) = RaisedUnboundLocalError ∧
  ∃ sl, SpliceList.join elements junctions_in_order two_exons bridge = Returned sl.
Proof.
  split; [|split].
  - by apply (join_outcome elements junctions_in_order).
  - apply (join_outcome elements junctions_in_order); [done|by vm_compute|].
    intros z (r & Hr & Hz). vm_compute in Hr.
    apply list_elem_of_singleton in Hr as ->. simpl in Hz. lia.
  - apply (join_outcome elements junctions_in_order two_exons bridge) with (z := 7);
      [done|].
    exists (Region.__init__ 5 25). split; [|simpl; lia].
    vm_compute. apply list_elem_of_further, list_elem_of_further, list_elem_of_here.
Defined.

(** ** Annotating a transcript *)

Lemma split_nonempty sep s : split sep s ≠ [].
Proof.
  destruct s as [|c s]; [done|]. simpl. destruct (Ascii.eqb c sep); [done|].
  by destruct (split sep s).
Qed.

Lemma split_append sep s t :
  split sep (s +:+ String sep t) = split sep s ++ split sep t.
Proof.
  induction s as [|c s IH].
  - simpl. by rewrite Ascii.eqb_refl.
  - rewrite append_cons. cbn [split]. destruct (Ascii.eqb c sep); rewrite IH; [done|].
    pose proof (split_nonempty sep s). by destruct (split sep s).
Qed.

Lemma split_free sep t : free_of sep t → split sep t = [t].
Proof.
  unfold free_of. induction t as [|c t IH]; [done|]. simpl.
  intros [Hc Ht]%not_elem_of_cons.
  destruct (Ascii.eqb_spec c sep) as [->|_]; [done|]. by rewrite IH.
Qed.

Lemma free_of_append c s t : free_of c s → free_of c t → free_of c (s +:+ t).
Proof.
  unfold free_of. rewrite list_ascii_of_append, not_elem_of_app. tauto.
Qed.

Lemma free_of_join c sep strings :
  free_of c sep → Forall (free_of c) strings → free_of c (join sep strings).
Proof.
  intros Hsep. induction 1 as [|s strings Hs Hall IH]; cbn [join].
  - unfold free_of. simpl. apply not_elem_of_nil.
  - destruct strings as [|s' strings]; [done|].
    by repeat apply free_of_append.
Qed.

Lemma free_of_literal c s :
  forallb (λ x, negb (Ascii.eqb x c)) (String.list_ascii_of_string s) = true →
  free_of c s.
Proof.
  unfold free_of. intros Hall Hin. rewrite forallb_forall in Hall.
  apply list_elem_of_In, Hall in Hin. by rewrite Ascii.eqb_refl in Hin.
Qed.

(** X19. Annotating a transcript leaves the SpliceList of every segment
    as it is and adds one field to its SAM line, after the fields the
    line had: [TR:Z:*] when there is no annotation, and otherwise [TR:Z:]
    and the annotations, separated by commas (none of which holds a
    tab). *)
Theorem annotate_fields (self : Transcript.t)
    (get_annotations : Transcript.t → Z → outcome (list string))
    (junction_tolerance : Z) (annotated : Transcript.t) :
  Transcript.annotate self get_annotations junction_tolerance = Returned annotated →
  ∃ represents tag,
    get_annotations self junction_tolerance = Returned represents ∧
    (represents = [] → tag = "TR:Z:*"%string) ∧
    (represents ≠ [] → tag = "TR:Z:" +:+ join "," represents) ∧
    (Forall (free_of tab) represents →
     Forall2 (λ segment segment',
         Segment.splice_list segment' = Segment.splice_list segment ∧
         split tab (Segment.sam segment') = split tab (Segment.sam segment) ++ [tag])
       (Transcript.segments self) (Transcript.segments annotated)).
Proof.
  unfold Transcript.annotate.
  destruct (get_annotations self junction_tolerance) as [represents| |]; [|done..].
  cbn [mbind outcome_bind]. intros [= <-].
  exists represents,
    ("TR:Z:" +:+ (if bool_decide (represents = []) then "*" else join "," represents)).
  split; [done|]. split; [by intros ->|].
  split; [intros Hne; by rewrite bool_decide_eq_false_2|].
  intros Hfree. cbn [Transcript.segments].
  induction (Transcript.segments self) as [|segment segments IH]; [constructor|].
  rewrite fmap_cons. constructor; [|done]. split; [done|].
  unfold Segment.apply_annotation. cbn [Segment.sam join].
  rewrite append_cons. cbn [String.append]. rewrite split_append. f_equal.
  apply split_free, free_of_append; [apply free_of_literal; by vm_compute|].
  case_bool_decide; [apply free_of_literal; by vm_compute|].
  apply free_of_join; [apply free_of_literal; by vm_compute|done].
Qed.

(** ** [Annotations.get_annotations] on what the constructors build *)

Lemma regions_forget (cs : list component) :
  omap as_region (forget_complement <$> cs) = omap as_region cs.
Proof. induction cs as [|[r|j] cs IH]; csimpl; by rewrite ?IH. Qed.

Lemma transcript_covers lines st mt t :
  Transcript.__init__ lines st mt = Ok t →
  Transcript.segments t ≠ [] ∧
  Forall (λ segment, ∃ z, covered (SpliceList.regions (Segment.splice_list segment)) z)
         (Transcript.segments t).
Proof.
  intros Ht. split; [by apply transcript_sams in Ht as [? _]|].
  apply transcript_init_inv in Ht as (segs & Hbuild & Hne & ->).
  pose proof (build_segments_filter _ _ _ _ Hbuild) as Hfilter.
  pose proof (redistribute_Forall2 segs _ (wire_forget _)) as Hred.
  revert Hfilter Hred. generalize (Transcript.redistribute segs (Transcript.wire
    (concat ((λ segment, SpliceList.components (Segment.splice_list segment))
               <$> segs)))).
  generalize (filter (λ line, succeeds (Segment.__init__ line st mt) = true) lines).
  clear. intros kept segs' Hfilter. revert segs'.
  induction Hfilter as [|line fresh kept segs Hinit _ IH]; intros segs' Hred.
  - inversion Hred. constructor.
  - inversion Hred as [|? segment ? segs'' (_ & _ & Hcs) Hrest]; subst.
    constructor; [|by apply IH].
    destruct (segment_covers _ _ _ _ Hinit) as [z Hz]. exists z.
    unfold SpliceList.regions in *.
    by rewrite <- regions_forget, Hcs, regions_forget.
Qed.

Lemma join_many_covers set_iter junction_iter sls :
  (∀ X, set_iter X ≡ₚ elements X) →
  sls ≠ [] →
  Forall (λ sl, ∃ z, covered (SpliceList.regions sl) z) sls →
  ∃ merged, SpliceList.join_many set_iter junction_iter sls = Returned merged ∧
            ∃ z, covered (SpliceList.regions merged) z.
Proof.
  intros Hperm Hne Hall. destruct sls as [|joined sls]; [done|].
  apply Forall_cons in Hall as [Hjoined Hall]. cbn [SpliceList.join_many].
  clear Hne. revert joined Hjoined.
  induction Hall as [|sl sls Hsl _ IH]; intros joined [z Hz]; cbn [foldl].
  { exists joined. split; [done|]. by exists z. }
  cbn [mbind outcome_bind].
  assert (covered (SpliceList.regions joined ++ SpliceList.regions sl) z) as Hz'.
  { destruct Hz as (r & Hr & Hz). exists r. split; [|done].
    apply elem_of_app. by left. }
  destruct (join_covered set_iter junction_iter joined sl z Hperm Hz') as [sl' Hsl'].
  rewrite Hsl'. apply IH. exists z.
  by apply (join_regions_spec _ _ _ _ _ Hperm Hsl').
Qed.

Lemma possible_annotations_filter set_iter variants merged tol :
  SpliceList.regions merged ≠ [] →
  Forall (λ v, SpliceList.regions v ≠ []) variants →
  Annotations.possible_annotations set_iter variants merged tol =
    Ok (SpliceList.identifier
          <$> filter (λ v, holds (SpliceList.contains set_iter v merged tol) = true)
                variants).
Proof.
  intros Hmerged. induction 1 as [|v variants Hv _ IH];
    cbn [Annotations.possible_annotations]; [done|].
  destruct (contains_returns set_iter v merged tol Hmerged Hv) as [b Hb].
  rewrite Hb, IH. cbn [mbind result_bind]. rewrite filter_cons, Hb.
  by destruct b.
Qed.

Lemma annotations_regions rows ann :
  Annotations.from_triples rows = Ok ann →
  Forall (λ v, SpliceList.regions v ≠ []) (Annotations.variants ann).
Proof.
  intros Hann.
  destruct (from_triples_variants _ _ Hann) as (vs & pre & Hvariants & Hvs).
  destruct (from_triples_pre_mRNA _ _ Hann)
    as (vs' & pre' & lo & hi & Hvariants' & _ & Hpre & _).
  rewrite Hvariants in Hvariants'. apply app_inj_tail in Hvariants' as [<- <-].
  rewrite Hvariants. apply Forall_app. split; [|by rewrite Forall_singleton, Hpre].
  clear -Hvs. induction Hvs as [|g v groups vs [Hne Hinit] _ IH]; constructor; [|done].
  destruct (init_regions _ _ _ _ _ Hinit) as [_ ->].
  intros Hnil%fmap_nil_inv. apply sorted_nil_inv in Hnil.
  by apply normalised_nil_inv in Hnil.
Qed.

(** X20. For a transcript that [Transcript.__init__] has built and
    annotations that [Annotations.__init__] has built, [get_annotations]
    returns: the SpliceLists of the segments join into one, and the
    result holds the identifiers of the variants that contain it, in the
    order of the variants. *)
Theorem get_annotations_returns (set_iter : gset Z → list Z)
    (junction_iter : list Junction.t → list Junction.t → list Junction.t)
    (lines : list string) (st mt tol : Z) (t : Transcript.t)
    (gtf_lines : list string) (ann : Annotations.t) :
  (∀ X, set_iter X ≡ₚ elements X) →
  Transcript.__init__ lines st mt = Ok t →
  Annotations.__init__ gtf_lines = Ok ann →
  ∃ merged,
    SpliceList.join_many set_iter junction_iter
      (Segment.splice_list <$> Transcript.segments t) = Returned merged ∧
    Annotations.get_annotations set_iter junction_iter ann t tol =
      Returned (SpliceList.identifier
                  <$> filter (λ v, holds (SpliceList.contains set_iter v merged tol)
                                   = true)
                        (Annotations.variants ann)).
Proof.
  intros Hperm Ht Hann. unfold Annotations.get_annotations.
  assert (∃ rows, Annotations.from_triples rows = Ok ann) as [rows Hrows].
  { unfold Annotations.__init__ in Hann.
    destruct (Annotations.exon_lines (split tab <$> gtf_lines)) as [exons|]; [|done].
    cbn [mbind result_bind] in Hann.
    destruct (Annotations.parse_lines exons) as [rows|]; [|done]. by exists rows. }
  destruct (transcript_covers _ _ _ _ Ht) as [Hne Hcovers].
  destruct (join_many_covers set_iter junction_iter
              (Segment.splice_list <$> Transcript.segments t) Hperm)
    as (merged & Hmerged & z & r & Hr & _).
  - by intros ?%fmap_nil_inv.
  - by apply Forall_fmap.
  - exists merged. split; [done|]. rewrite Hmerged. cbn [mbind outcome_bind].
    rewrite possible_annotations_filter; [done| |by eapply annotations_regions].
    intros Hnil. rewrite Hnil in Hr. by apply elem_of_nil in Hr.
Qed.

Lemma annotate_fields_witness :
  ∃ represents tag,
    Annotations.get_annotations elements junctions_in_order example_annotations
      pair_of_mates 0 = Returned represents ∧
    (represents = [] → tag = "TR:Z:*"%string) ∧
    (represents ≠ [] → tag = "TR:Z:" +:+ join "," represents) ∧
    (Forall (free_of tab) represents →
     Forall2 (λ segment segment',
         Segment.splice_list segment' = Segment.splice_list segment ∧
         split tab (Segment.sam segment') = split tab (Segment.sam segment) ++ [tag])
       (Transcript.segments pair_of_mates) (Transcript.segments annotated_pair)).
Proof.
  apply (annotate_fields pair_of_mates
           (Annotations.get_annotations elements junctions_in_order example_annotations)
           0 annotated_pair).
  by vm_compute.
Defined.

Lemma get_annotations_returns_witness :
  ∃ merged,
    SpliceList.join_many elements junctions_in_order
      (Segment.splice_list <$> Transcript.segments pair_of_mates) = Returned merged ∧
    Annotations.get_annotations elements junctions_in_order example_annotations
      pair_of_mates 0 =
      Returned (SpliceList.identifier
                  <$> filter (λ v, holds (SpliceList.contains elements v merged 0) = true)
                        (Annotations.variants example_annotations)).
Proof.
  apply (get_annotations_returns elements junctions_in_order [mate1; mate2] 2 0 0
           pair_of_mates ascending_gtf example_annotations).
  - done.
  - by vm_compute.
  - by vm_compute.
Defined.

(** ** Printing a transcript *)

Lemma split_join sep strings :
  strings ≠ [] → Forall (free_of sep) strings →
  split sep (join (String sep EmptyString) strings) = strings.
Proof.
  intros Hne Hall. induction Hall as [|s strings Hs Hall IH]; [done|].
  cbn [join]. destruct strings as [|s' strings]; [by apply split_free|].
  rewrite append_cons. change (EmptyString +:+ ?x) with x.
  rewrite split_append, IH by done. by rewrite split_free.
Qed.

(** X21. The text of a transcript, split at the newlines, gives back the
    SAM lines of its segments, when there is a segment and no line holds
    a newline. *)
Theorem transcript_str_lines (t : Transcript.t) :
  Transcript.segments t ≠ [] →
  Forall (λ segment, free_of "010" (Segment.sam segment)) (Transcript.segments t) →
  split "010" (Transcript.__str__ t) = Segment.sam <$> Transcript.segments t.
Proof.
  intros Hne Hfree. unfold Transcript.__str__. apply split_join.
  - by intros ?%fmap_nil_inv.
  - by apply Forall_fmap.
Qed.

Lemma transcript_str_lines_witness :
  split "010" (Transcript.__str__ pair_of_mates)
    = Segment.sam <$> Transcript.segments pair_of_mates.
Proof.
  apply (transcript_str_lines pair_of_mates).
  - by vm_compute.
  - unfold free_of. apply (bool_decide_unpack _). by vm_compute.
Defined.

(** ** Transcripts without a mapped segment *)

(** X22. [Transcript.__init__] raises [NoMappedSegmentsError] exactly
    when the constructor of every segment raises [NoMappingError]; so it
    does for no line at all. *)
Theorem no_mapped_segments (lines : list string) (st mt : Z) :
  Transcript.__init__ lines st mt = Raise NoMappedSegmentsError ↔
  Forall (λ line, Segment.__init__ line st mt = Raise NoMappingError) lines.
Proof.
  unfold Transcript.__init__. split.
  - destruct (Transcript.build_segments lines st mt) as [segs|e] eqn:Hbuild.
    + cbn [mbind result_bind]. destruct segs as [|seg segs]; [|done]. intros _.
      revert Hbuild. induction lines as [|line lines IH];
        cbn [Transcript.build_segments]; [constructor|].
      destruct (Segment.__init__ line st mt) as [seg|e] eqn:Hseg.
      * by destruct (Transcript.build_segments lines st mt).
      * destruct (segment_init_Raise _ _ _ _ Hseg) as [->|[->|[->| ->]]]; try done.
        intros Hrest. constructor; [done|by apply IH].
    + intros [= ->]. by apply build_segments_Raise in Hbuild as [|[|]].
  - intros Hall.
    assert (Transcript.build_segments lines st mt = Ok []) as ->; [|done].
    induction Hall as [|line lines Hline _ IH]; [done|].
    cbn [Transcript.build_segments]. by rewrite Hline.
Qed.

Lemma no_mapped_segments_witness :
  Transcript.__init__ [line_with_cigar "*"; line_with_cigar "*"] 2 0
    = Raise NoMappedSegmentsError.
Proof.
  apply (no_mapped_segments [line_with_cigar "*"; line_with_cigar "*"] 2 0).
  repeat constructor; by vm_compute.
Defined.

(** ** The expansion of a CIGAR *)

Lemma expand_loop_digits digits rest expanded acc :
  Forall (λ c, isnumeric c = true) (String.list_ascii_of_string digits) →
  Segment.expand_loop (digits +:+ rest) expanded (Some acc)
    = Segment.expand_loop rest expanded (Some (acc +:+ digits)).
Proof.
  revert acc. induction digits as [|c digits IH]; intros acc Hall.
  - by rewrite append_nil_r.
  - simpl in Hall. apply Forall_cons in Hall as [Hc Hall].
    rewrite append_cons. cbn [Segment.expand_loop]. rewrite Hc, IH by done.
    by rewrite append_assoc.
Qed.

Lemma expand_loop_run digits o n rest expanded :
  well_formed_run (digits, o, n) →
  Segment.expand_loop (digits +:+ String o rest) expanded None
    = Segment.expand_loop rest (expanded +:+ repeat_char o n) None.
Proof.
  intros (Hne & Hall & Ho & Hint). simpl in *.
  destruct digits as [|c digits]; [done|].
  simpl in Hall. apply Forall_cons in Hall as [Hc Hall].
  rewrite append_cons. cbn [Segment.expand_loop]. rewrite Hc.
  rewrite expand_loop_digits by done. cbn [Segment.expand_loop].
  rewrite Ho. change (String c EmptyString +:+ digits) with (String c digits).
  by rewrite Hint.
Qed.

Lemma expand_loop_runs runs expanded :
  Forall well_formed_run runs →
  Segment.expand_loop (cigar_of runs) expanded None = Ok (expanded +:+ expansion runs).
Proof.
  intros Hall. revert expanded.
  induction Hall as [|[[digits o] n] runs Hrun _ IH]; intros expanded;
    cbn [cigar_of expansion].
  - by rewrite append_nil_r.
  - by rewrite (expand_loop_run digits o n), IH, append_assoc.
Qed.

(** X23. A CIGAR made of runs, each a count in digits and an op that is
    no digit, expands to the ops, each as often as its count says. *)
Theorem expand_cigar_runs (runs : list (string * ascii * Z)) :
  Forall well_formed_run runs →
  Segment._expand_cigar (cigar_of runs) = Ok (expansion runs).
Proof.
  intros Hall. unfold Segment._expand_cigar.
  rewrite bool_decide_eq_false_2.
  - by rewrite expand_loop_runs.
  - destruct Hall as [|[[digits o] n] runs (Hne & Hdigits & _) _]; [done|].
    simpl in *. destruct digits as [|c digits]; [done|].
    simpl in Hdigits. apply Forall_cons in Hdigits as [Hc _].
    rewrite append_cons. intros [= -> _]. by vm_compute in Hc.
Qed.

Lemma expand_cigar_runs_witness :
  Segment._expand_cigar "10M30N2D" = Ok (expansion example_runs).
Proof.
  apply (expand_cigar_runs example_runs).
  repeat constructor; by vm_compute.
Defined.

(** ** The rows of the GTF file *)

Lemma exon_lines_Raise lines e : Annotations.exon_lines lines = Raise e → e = IndexError.
Proof.
  induction lines as [|line lines IH]; cbn [Annotations.exon_lines]; [done|].
  destruct (index line 2) as [feature|] eqn:Hindex;
    [|intros [= <-]; by apply index_Raise in Hindex].
  cbn [mbind result_bind].
  destruct (Annotations.exon_lines lines); [done|]. intros [= <-]. by apply IH.
Qed.

Lemma exon_lines_short lines :
  Exists (λ line, (length line < 3)%nat) lines →
  Annotations.exon_lines lines = Raise IndexError.
Proof.
  induction 1 as [line lines Hshort|line lines _ IH]; cbn [Annotations.exon_lines].
  - unfold index. by rewrite (lookup_ge_None_2 line 2) by lia.
  - rewrite IH. by destruct (index line 2) as [feature|e] eqn:Hindex;
      [|apply index_Raise in Hindex as ->].
Qed.

Lemma exon_lines_app lines1 lines2 :
  Annotations.exon_lines (lines1 ++ lines2) =
    kept1 ← Annotations.exon_lines lines1;
    kept2 ← Annotations.exon_lines lines2;
    Ok (kept1 ++ kept2).
Proof.
  induction lines1 as [|line lines1 IH]; cbn [app Annotations.exon_lines].
  - cbn [mbind result_bind]. by destruct (Annotations.exon_lines lines2).
  - destruct (index line 2) as [feature|]; [|done]. cbn [mbind result_bind].
    rewrite IH. destruct (Annotations.exon_lines lines1) as [kept1|]; [|done].
    cbn [mbind result_bind].
    destruct (Annotations.exon_lines lines2) as [kept2|]; [|done].
    cbn [mbind result_bind]. by case_bool_decide.
Qed.

(** X24. A GTF line with fewer than three columns makes
    [Annotations.__init__] raise [IndexError], wherever it stands; a line
    whose third column is there and is not [exon] is passed over. *)
Theorem gtf_rows (before after : list string) (line : string) :
  ((length (split tab line) < 3)%nat →
   Annotations.__init__ (before ++ line :: after) = Raise IndexError) ∧
  (∀ feature, split tab line !! 2%nat = Some feature → feature ≠ "exon"%string →
   Annotations.__init__ (before ++ line :: after) = Annotations.__init__ (before ++ after)).
Proof.
  unfold Annotations.__init__. split.
  - intros Hshort. rewrite exon_lines_short; [done|].
    rewrite fmap_app, fmap_cons. apply Exists_app. right. by left.
  - intros feature Hfeature Hne.
    rewrite !fmap_app, fmap_cons, !exon_lines_app. cbn [Annotations.exon_lines].
    unfold index at 1. rewrite Hfeature. cbn [mbind result_bind].
    rewrite bool_decide_eq_false_2 by done.
    destruct (Annotations.exon_lines (split tab <$> before)) as [kept1|]; [|done].
    cbn [mbind result_bind].
    by destruct (Annotations.exon_lines (split tab <$> after)) as [kept2|].
Qed.

Lemma gtf_rows_witness :
  Annotations.__init__ ([gtf_exon_line "1" "10" "T"] ++ "# a comment"%string :: [])
    = Raise IndexError ∧
  Annotations.__init__ ([gtf_gene_line] ++ gtf_gene_line :: [gtf_exon_line "1" "10" "T"])
    = Annotations.__init__ ([gtf_gene_line] ++ [gtf_exon_line "1" "10" "T"]).
Proof.
  split.
  - apply (gtf_rows [gtf_exon_line "1" "10" "T"] [] "# a comment"). vm_compute. lia.
  - apply (gtf_rows [gtf_gene_line] [gtf_exon_line "1" "10" "T"] gtf_gene_line)
      with (feature := "gene"%string); by vm_compute.
Defined.

(** ** Conservation of the lines *)

Lemma grouping_conservation_witness :
  concat [[pair_first; pair_last]; [single_line]]
    ≡ₚ strip <$> [single_line; pair_last; pair_first].
Proof.
  apply (grouping_conservation [single_line; pair_last; pair_first]
           [[pair_first; pair_last]; [single_line]]).
  - repeat constructor; intros [Hfirst Hlast]; by vm_compute in Hfirst, Hlast.
  - by vm_compute.
Defined.

(** ** The junctions of a constructed SpliceList *)

Lemma exon_components_junction exons j :
  CJunction j ∈ exons ≫= SpliceList.exon_components →
  ∃ exon, exon ∈ exons ∧
    (j = Junction.__init__ exon.1 TYPE_START ∨ j = Junction.__init__ exon.2 TYPE_END).
Proof.
  intros (exon & Hj & Hexon)%list_elem_of_bind. exists exon. split; [done|].
  unfold SpliceList.exon_components in Hj.
  repeat (apply elem_of_cons in Hj as [Hj|Hj]; [by simplify_eq; auto|]).
  by apply elem_of_nil in Hj.
Qed.

(** X25. Every junction of a constructed SpliceList has no complement
    and sits at a bound of one of its regions: a start junction at the
    start of a region, an end junction at the stop of one. *)
Theorem junction_positions (id : string) (exons : list (Z * Z)) (l r : bool)
    (sl : SpliceList.t) (j : Junction.t) :
  SpliceList.__init__ id exons l r = Ok sl →
  j ∈ SpliceList.junctions sl →
  Junction.complement j = None ∧
  ∃ region, region ∈ SpliceList.regions sl ∧
    ((Junction.type j = TYPE_START ∧ Junction.position j = Region.start region) ∨
     (Junction.type j = TYPE_END ∧ Junction.position j = Region.stop region)).
Proof.
  intros Hinit Hj. split.
  { pose proof (init_no_complement _ _ _ _ _ Hinit) as Hno.
    unfold no_complement in Hno. rewrite Forall_forall in Hno. by apply Hno. }
  destruct (init_regions _ _ _ _ _ Hinit) as [_ Hregions]. rewrite Hregions.
  assert (∃ c0, c0 ∈ sorted fst exons ≫= SpliceList.exon_components ∧
                (CJunction j = c0 ∨ CJunction j = SpliceList.mark c0))
    as (c0 & Hc0 & Hmark).
  { unfold SpliceList.junctions in Hj.
    apply list_elem_of_omap in Hj as ([r0|j0] & Hc & [= ->]).
    destruct (check_overlap_spec (sorted fst exons)) as [[_ Hno]|[Hov _]];
      [|unfold SpliceList.__init__ in Hinit; by rewrite Hov in Hinit].
    destruct (decide (sorted fst exons = [])) as [Hnil|Hne].
    - unfold SpliceList.__init__ in Hinit. rewrite Hnil in Hinit.
      destruct l, r; simplify_eq/=. by apply elem_of_nil in Hc.
    - destruct (components_shape _ Hne) as (e1 & en & M & _ & _ & Hshape & _).
      rewrite (init_shape _ _ _ _ _ _ _ Hno Hshape) in Hinit. injection Hinit as <-.
      cbn [SpliceList.components] in Hc. rewrite Hshape.
      apply elem_of_app in Hc as [Hc|[Hc|Hc]%elem_of_app].
      + destruct l; [|by apply elem_of_nil in Hc].
        apply list_elem_of_singleton in Hc. exists (left_end e1).
        split; [by left|by right].
      + exists (CJunction j). split; [|by left].
        apply elem_of_cons. right. apply elem_of_app. by left.
      + destruct r; [|by apply elem_of_nil in Hc].
        apply list_elem_of_singleton in Hc. exists (right_end en).
        split; [|by right]. apply elem_of_cons. right. apply elem_of_app. right.
        by left. }
  assert (∃ j0, c0 = CJunction j0 ∧ Junction.type j = Junction.type j0 ∧
                Junction.position j = Junction.position j0) as (j0 & -> & Htype & Hpos).
  { destruct c0 as [r0|j0]; [by destruct Hmark|]. exists j0. split; [done|].
    by destruct Hmark as [[= ->]|[= ->]]. }
  apply exon_components_junction in Hc0 as (exon & Hexon & Hj0).
  exists (exon_region exon). split; [apply list_elem_of_fmap; by exists exon|].
  rewrite Htype, Hpos. destruct Hj0 as [-> | ->]; [by left|by right].
Qed.

Lemma junction_positions_witness :
  Junction.complement (Junction.Build 10 TYPE_END None false) = None ∧
  ∃ region, region ∈ SpliceList.regions two_exons ∧
    ((Junction.type (Junction.Build 10 TYPE_END None false) = TYPE_START ∧
      Junction.position (Junction.Build 10 TYPE_END None false) = Region.start region) ∨
     (Junction.type (Junction.Build 10 TYPE_END None false) = TYPE_END ∧
      Junction.position (Junction.Build 10 TYPE_END None false) = Region.stop region)).
Proof.
  apply (junction_positions "test" [(1, 10); (21, 30)] false false two_exons).
  - by vm_compute.
  - vm_compute. apply list_elem_of_here.
Defined.

(** ** Lines that are not marked as paired *)

(** X26. A line whose FLAG lacks bit [0x1] makes a group on its own, and
    is in no other group. *)
Theorem ungrouped_alone (alignments : list string) (groups : list (list string))
    (line : string) :
  Grouping._get_read_groups alignments = Ok groups →
  line ∈ strip <$> alignments →
  Grouping.is_ungrouped line = Ok true →
  [line] ∈ groups ∧ ∀ group, group ∈ groups → line ∈ group → group = [line].
Proof.
  intros Hgroups Hline Hungrouped.
  assert (Grouping.is_grouped line ≠ Ok true) as Hnot.
  { unfold Grouping.is_ungrouped in Hungrouped.
    destruct (Grouping.is_grouped line) as [[]|]; by simplify_eq/=. }
  pose proof Hgroups as (ungrouped & grouped & firsts & lasts & middles & st
          & Hu & Hg & Hf & Hl & Hm & Hloop & Heq)%get_read_groups_inv.
  split.
  - rewrite Heq, !elem_of_app. right. left.
    apply list_elem_of_fmap. exists line. split; [done|].
    by apply (filter_list_elem _ _ _ line Hu).
  - intros group Hgroup Hin.
    assert (∀ l : list string, group ∈ (λ alignment, [alignment]) <$> l →
              group = [line]) as Hsingle.
    { intros l' (x & -> & _)%list_elem_of_fmap.
      by apply list_elem_of_singleton in Hin as ->. }
    rewrite Heq, !elem_of_app in Hgroup.
    destruct Hgroup as [Hgroup|[Hgroup|Hgroup]]; [|by eapply Hsingle..].
    exfalso.
    assert (group ≠ [] ∧ linked group ∧
            ((1 < length group)%nat → first_then_others group)) as (_ & _ & Hshape).
    { revert Hgroup.
      apply (first_loop_groups middles lasts firsts
               (Grouping.State middles lasts [] []) st); try done.
      - intros x [Hgr Hfirst]%(filter_list_elem _ _ _ x Hf).
        by apply (filter_list_elem _ _ _ x Hg) in Hgr as [_ ?].
      - intros x [[Hgr ?]%(filter_list_elem _ _ _ x Hm)
                 |[Hgr ?]%(filter_list_elem _ _ _ x Hl)];
          apply (filter_list_elem _ _ _ x Hg) in Hgr as [_ ?]; tauto.
      - by intros g ?%elem_of_nil. }
    assert (∀ g, g ∈ Grouping.st_read_groups st → (1 < length g)%nat) as Hlong.
    { clear -Hloop. revert Hloop.
      assert (∀ g, g ∈ Grouping.st_read_groups (Grouping.State middles lasts [] []) →
                (1 < length g)%nat) as Hinit by (by intros g ?%elem_of_nil).
      revert Hinit. generalize (Grouping.State middles lasts [] []).
      induction firsts as [|a firsts IH]; intros st0 Hinit; cbn [foldl].
      { by intros [= ->]. }
      destruct (Grouping.first_step (Ok st0) a) as [st1|] eqn:Hstep;
        [|by rewrite first_step_Raise].
      apply IH. unfold Grouping.first_step in Hstep.
      cbn [mbind result_bind] in Hstep.
      destruct (Grouping.next_name a) as [rnext|]; [|done].
      cbn [mbind result_bind] in Hstep.
      destruct (Grouping.consider_middles _ _) as [[[taken_m kept_m] final]|]; [|done].
      cbn [mbind result_bind] in Hstep.
      destruct (Grouping.consider_lasts _ _) as [taken_l kept_l].
      revert Hstep. case_bool_decide as Hlen; intros [= <-]; [done|].
      cbn [Grouping.st_read_groups].
      intros g [Hg| ->%list_elem_of_singleton]%elem_of_app; [by apply Hinit|].
      simpl in *. lia. }
    destruct (Hshape (Hlong _ Hgroup)) as (first & others & -> & Hgrouped & _ & Hothers).
    apply elem_of_cons in Hin as [->|Hin]; [done|].
    rewrite Forall_forall in Hothers. by destruct (Hothers _ Hin).
Qed.

Lemma ungrouped_alone_witness :
  [single_line] ∈ [[pair_first; pair_last]; [single_line]] ∧
  ∀ group, group ∈ [[pair_first; pair_last]; [single_line]] →
           single_line ∈ group → group = [single_line].
Proof.
  apply (ungrouped_alone [single_line; pair_last; pair_first]).
  - by vm_compute.
  - vm_compute. apply list_elem_of_here.
  - by vm_compute.
Defined.

(** ** Containment without tolerance, and of lists without junctions *)

Lemma set_iter_nil set_iter (X : gset Z) :
  (∀ X, set_iter X ≡ₚ elements X) → set_iter X = [] ↔ X = ∅.
Proof.
  intros Hperm. split.
  - intros Hnil. apply leibniz_equiv, elements_empty_inv, Permutation_nil_r.
    by rewrite <- Hperm, Hnil.
  - intros ->. apply Permutation_nil_r. by rewrite Hperm, elements_empty.
Qed.

Lemma difference_empty_covered regions1 regions2 X Y :
  SpliceList.positions regions1 = Ok X → SpliceList.positions regions2 = Ok Y →
  X ∖ Y = ∅ ↔ ∀ z, covered regions1 z → covered regions2 z.
Proof.
  intros HX HY. split.
  - intros Hempty z Hz%(elem_of_positions _ _ _ HX). apply (elem_of_positions _ _ _ HY).
    destruct (decide (z ∈ Y)) as [|Hnot]; [done|].
    assert (z ∈ X ∖ Y) as Hin by set_solver. rewrite Hempty in Hin.
    by apply not_elem_of_empty in Hin.
  - intros Hsub. apply elem_of_equiv_empty_L. intros z [Hz Hnot]%elem_of_difference.
    apply Hnot, (elem_of_positions _ _ _ HY), Hsub.
    by apply (elem_of_positions _ _ _ HX).
Qed.

Lemma all_matched_spec tol this_junctions other_junctions :
  all_matched tol this_junctions other_junctions = true ↔
  ∀ j, j ∈ other_junctions →
    ∃ this_j, this_j ∈ this_junctions ∧ Junction.type this_j = Junction.type j ∧
              Junction.position j - tol ≤ Junction.position this_j
                < Junction.position j + tol + 1.
Proof.
  unfold all_matched. rewrite forallb_forall. split.
  - intros Hall j Hj%list_elem_of_In.
    apply Hall, existsb_exists in Hj as (this_j & Hin & Hrange).
    exists this_j. split; [by apply list_elem_of_In|].
    unfold SpliceList.in_check_range in Hrange.
    by apply andb_true_iff in Hrange
      as [Htype%bool_decide_eq_true Hpos%bool_decide_eq_true].
  - intros Hall j Hj%list_elem_of_In. apply existsb_exists.
    destruct (Hall j Hj) as (this_j & Hin & Htype & Hpos).
    exists this_j. split; [by apply list_elem_of_In|].
    unfold SpliceList.in_check_range.
    by rewrite !bool_decide_eq_true_2.
Qed.

(** X29. Without tolerance, and for a list whose junctions have no
    complement, [contains] returns True exactly when every position of a
    region of the other list lies in a region of this one and every
    junction of the other list has a junction of the same type at the
    same position in this one. *)
Theorem contains_exact (set_iter : gset Z → list Z) (self other_sl : SpliceList.t) :
  (∀ X, set_iter X ≡ₚ elements X) →
  SpliceList.regions other_sl ≠ [] → SpliceList.regions self ≠ [] →
  no_complement (SpliceList.junctions other_sl) →
  SpliceList.contains set_iter self other_sl 0 = Ok true ↔
  (∀ z, covered (SpliceList.regions other_sl) z → covered (SpliceList.regions self) z) ∧
  (∀ j, j ∈ SpliceList.junctions other_sl →
     ∃ this_j, this_j ∈ SpliceList.junctions self ∧
               Junction.type this_j = Junction.type j ∧
               Junction.position this_j = Junction.position j).
Proof.
  intros Hperm Hother Hself Hno. rewrite contains_no_complement by done.
  destruct (SpliceList.positions (SpliceList.regions other_sl)) as [X|e] eqn:HX;
    [|by apply positions_Raise in HX as [? _]].
  destruct (SpliceList.positions (SpliceList.regions self)) as [Y|e] eqn:HY;
    [|by apply positions_Raise in HY as [? _]].
  cbn [mbind result_bind].
  rewrite <- (difference_empty_covered _ _ _ _ HX HY), <- (set_iter_nil set_iter) by done.
  assert (SpliceList.overhangs_within 0 (set_iter (X ∖ Y)) 0 (-1) = true
          ↔ set_iter (X ∖ Y) = []) as Hover.
  { split; [by apply overhangs_within_nil|by intros ->]. }
  rewrite <- Hover.
  assert ((∀ j, j ∈ SpliceList.junctions other_sl →
             ∃ this_j, this_j ∈ SpliceList.junctions self ∧
                       Junction.type this_j = Junction.type j ∧
                       Junction.position this_j = Junction.position j)
          ↔ all_matched 0 (SpliceList.junctions self) (SpliceList.junctions other_sl)
              = true) as ->.
  { rewrite all_matched_spec. split; intros Hall j Hj;
      destruct (Hall j Hj) as (this_j & Hin & Htype & Hpos);
      exists this_j; (split; [done|]); (split; [done|]); lia. }
  split.
  - by intros [= [? ?]%andb_true_iff].
  - intros [-> ->]. done.
Qed.

Lemma contains_exact_witness :
  SpliceList.contains elements two_exons two_exons 0 = Ok true ↔
  (∀ z, covered (SpliceList.regions two_exons) z
        → covered (SpliceList.regions two_exons) z) ∧
  (∀ j, j ∈ SpliceList.junctions two_exons →
     ∃ this_j, this_j ∈ SpliceList.junctions two_exons ∧
               Junction.type this_j = Junction.type j ∧
               Junction.position this_j = Junction.position j).
Proof.
  apply (contains_exact elements two_exons two_exons).
  - done.
  - by vm_compute.
  - by vm_compute.
  - vm_compute. by repeat constructor.
Defined.

(** X30. A SpliceList without junctions, all of whose positions lie in
    the regions of this one, is contained under every tolerance. *)
Theorem contains_without_junctions (set_iter : gset Z → list Z)
    (self other_sl : SpliceList.t) (tol : Z) :
  (∀ X, set_iter X ≡ₚ elements X) →
  SpliceList.regions other_sl ≠ [] → SpliceList.regions self ≠ [] →
  SpliceList.junctions other_sl = [] →
  (∀ z, covered (SpliceList.regions other_sl) z → covered (SpliceList.regions self) z) →
  SpliceList.contains set_iter self other_sl tol = Ok true.
Proof.
  intros Hperm Hother Hself Hjunctions Hsub. unfold SpliceList.contains.
  destruct (SpliceList.positions (SpliceList.regions other_sl)) as [X|e] eqn:HX;
    [|by apply positions_Raise in HX as [? _]].
  destruct (SpliceList.positions (SpliceList.regions self)) as [Y|e] eqn:HY;
    [|by apply positions_Raise in HY as [? _]].
  cbn [mbind result_bind].
  apply (difference_empty_covered _ _ _ _ HX HY) in Hsub.
  apply (set_iter_nil set_iter _ Hperm) in Hsub. by rewrite Hsub, Hjunctions.
Qed.

Lemma contains_without_junctions_witness :
  SpliceList.contains elements one_exon bridge (-1) = Ok true.
Proof.
  apply (contains_without_junctions elements one_exon bridge (-1)).
  - done.
  - by vm_compute.
  - by vm_compute.
  - by vm_compute.
  - intros z (r & Hr & Hz). vm_compute in Hr.
    apply list_elem_of_singleton in Hr as ->. simpl in Hz.
    exists (Region.__init__ 1 30). split; [vm_compute; apply list_elem_of_here|].
    simpl. lia.
Defined.
